(** * UX Audio Router: routing store, jitter ring buffer, direct-audio
      scheduler, gain automation and the UXD1 handshake decoder.

    A shallow embedding of the JavaScript sources:
    - [Store]        js/store.js  (the revision with [getAvailableId] and
                     [directBuffer]),
    - [RingBuffer]   js/audio.js  (class RingBuffer),
    - [AudioEngine]  js/audio.js  (updateAllGains, scheduleAudio, and the
                     cursor corrections of the earlier processDirectAudio,
                     which schedules without a ring buffer),
    - [DirectServer] js/ipc.js    (handleHandshake, handleAudioData),
    - [Persistence], [UI], [Doubles]: load and save of the store, the strip
                     handlers of js/ui.js, and the earlier
                     processDirectAudio with rounded arithmetic.

    Conventions.  JavaScript numbers that hold times, gains and buffer
    lengths in seconds are rationals ([Q]); [AudioEngine] reads the
    arithmetic on them as exact, [Doubles] rounds every result to a
    double.  Ids, cursors and frame counts are naturals.  A Float32 sample is carried as its
    32-bit pattern (a [Z]): the code only copies samples between typed
    arrays and never computes with them; an element copy goes through a
    Number, which keeps every pattern but that of a signalling NaN.  A
    Node [Buffer] is its bytes, with its [byteOffset] where the code
    depends on it.  A JS [Map] is an association list in insertion order,
    a JS [Set] of ids is a [gset nat]. *)

From Stdlib Require Import QArith Qminmax Qround Lqa ZArith Lia.
From Stdlib Require Import Strings.Byte Strings.String.
From stdpp Require Import base option list gmap strings relations sorting.

Local Open Scope nat_scope.

(** ** js/store.js *)

Module Store.

Record EqValues := mkEqValues { high : Q; mid : Q; low : Q }.

Module Input.
(** [{ id, deviceId, volume, isMuted, routing }] *)
Record t := mk {
  id : nat;
  deviceId : string;
  volume : Q;
  isMuted : bool;
  routing : list nat
}.
End Input.

Module Output.
(** [{ id, selectedDeviceId, volume, isMuted, eqValues }] *)
Record t := mk {
  id : nat;
  selectedDeviceId : string;
  volume : Q;
  isMuted : bool;
  eqValues : EqValues
}.
End Output.

(** [this.data] *)
Record Data := mkData {
  inputs : list Input.t;
  directGain : Q;
  directMuted : bool;
  directRouting : list nat;
  directBuffer : Q;
  outputs : list Output.t
}.

Record t := mkStore {
  data : Data;
  hardwareRoutingSet : gset nat;
  directRoutingSet : gset nat;
  inputIdCounter : nat;
  outputIdCounter : nat
}.

(** The constructor. *)
Definition new : t :=
  {| data := {| inputs := []; directGain := 1; directMuted := false;
                directRouting := []; directBuffer := 0.1; outputs := [] |};
     hardwareRoutingSet := ∅; directRoutingSet := ∅;
     inputIdCounter := 1; outputIdCounter := 1 |}.

Definition set_inputs (l : list Input.t) (s : t) : t :=
  {| data := {| inputs := l; directGain := directGain (data s);
                directMuted := directMuted (data s);
                directRouting := directRouting (data s);
                directBuffer := directBuffer (data s);
                outputs := outputs (data s) |};
     hardwareRoutingSet := hardwareRoutingSet s;
     directRoutingSet := directRoutingSet s;
     inputIdCounter := inputIdCounter s;
     outputIdCounter := outputIdCounter s |}.

Definition set_outputs (l : list Output.t) (s : t) : t :=
  {| data := {| inputs := inputs (data s); directGain := directGain (data s);
                directMuted := directMuted (data s);
                directRouting := directRouting (data s);
                directBuffer := directBuffer (data s);
                outputs := l |};
     hardwareRoutingSet := hardwareRoutingSet s;
     directRoutingSet := directRoutingSet s;
     inputIdCounter := inputIdCounter s;
     outputIdCounter := outputIdCounter s |}.

Definition set_directRoutingSet (r : gset nat) (s : t) : t :=
  {| data := data s;
     hardwareRoutingSet := hardwareRoutingSet s;
     directRoutingSet := r;
     inputIdCounter := inputIdCounter s;
     outputIdCounter := outputIdCounter s |}.

Definition set_directBuffer (b : Q) (s : t) : t :=
  {| data := {| inputs := inputs (data s); directGain := directGain (data s);
                directMuted := directMuted (data s);
                directRouting := directRouting (data s);
                directBuffer := b;
                outputs := outputs (data s) |};
     hardwareRoutingSet := hardwareRoutingSet s;
     directRoutingSet := directRoutingSet s;
     inputIdCounter := inputIdCounter s;
     outputIdCounter := outputIdCounter s |}.

Definition input_ids (s : t) : list nat := Input.id <$> inputs (data s).
Definition output_ids (s : t) : list nat := Output.id <$> outputs (data s).

(** [while (existingIds.has(id)) id++], with a bound on the number of
    iterations; [None] when the bound is used up before the loop exits. *)
Fixpoint getAvailableId_loop (fuel : nat) (existingIds : gset nat) (id : nat)
  : option nat :=
  match fuel with
  | O => None
  | S fuel' =>
      if decide (id ∈ existingIds)
      then getAvailableId_loop fuel' existingIds (S id)
      else Some id
  end.

(** [getAvailableId(list)]: [ids] is [list.map(o => o.id)].  The loop starts
    at 1 and cannot run more than [length ids] increments. *)
Definition getAvailableId (ids : list nat) : option nat :=
  getAvailableId_loop (S (length ids)) (list_to_set ids) 1.

(** [Array.prototype.sort((a, b) => a.id - b.id)]: a stable sort on the
    id, written as an insertion sort. *)
Fixpoint insert_by {A} (key : A → nat) (x : A) (l : list A) : list A :=
  match l with
  | [] => [x]
  | y :: l' => if key x <=? key y then x :: y :: l' else y :: insert_by key x l'
  end.

Definition sort_by {A} (key : A → nat) (l : list A) : list A :=
  foldr (insert_by key) [] l.

(** [save()] serialises [data] and the direct routing set to localStorage;
    the persisted copy is not read back by any operation below and is left
    out of the state. *)

Definition addInput (s : t) : option (nat * t) :=
  id ← getAvailableId (input_ids s);
  Some (id, set_inputs
              (sort_by Input.id
                 (inputs (data s) ++
                  [Input.mk id "default" 1 false []])) s).

Definition removeInput (id : nat) (s : t) : t :=
  match list_find (λ i, Input.id i = id) (inputs (data s)) with
  | Some (idx, _) => set_inputs (delete idx (inputs (data s))) s
  | None => s
  end.

Definition addOutput (s : t) : option (nat * t) :=
  id ← getAvailableId (output_ids s);
  Some (id, set_outputs
              (sort_by Output.id
                 (outputs (data s) ++
                  [Output.mk id "" 1 false (mkEqValues 0 0 0)])) s).

Definition prune_route (id : nat) (input : Input.t) : Input.t :=
  Input.mk (Input.id input) (Input.deviceId input) (Input.volume input)
           (Input.isMuted input)
           (filter (λ rId, rId ≠ id) (Input.routing input)).

Definition removeOutput (id : nat) (s : t) : t :=
  match list_find (λ o, Output.id o = id) (outputs (data s)) with
  | Some (idx, _) =>
      set_inputs (prune_route id <$> inputs (data s))
        (set_directRoutingSet (directRoutingSet s ∖ {[id]})
           (set_outputs (delete idx (outputs (data s))) s))
  | None => s
  end.

(** [type === 'direct'] is [inputId = None]. *)
Definition toggle_in (outputId : nat) (input : Input.t) : Input.t :=
  Input.mk (Input.id input) (Input.deviceId input) (Input.volume input)
           (Input.isMuted input)
           (match list_find (λ r, r = outputId) (Input.routing input) with
            | Some (idx, _) => delete idx (Input.routing input)
            | None => Input.routing input ++ [outputId]
            end).

Definition toggleRouting (inputId : option nat) (outputId : nat) (s : t) : t :=
  match inputId with
  | None =>
      if decide (outputId ∈ directRoutingSet s)
      then set_directRoutingSet (directRoutingSet s ∖ {[outputId]}) s
      else set_directRoutingSet (directRoutingSet s ∪ {[outputId]}) s
  | Some iid =>
      match list_find (λ i, Input.id i = iid) (inputs (data s)) with
      | Some (idx, input) =>
          set_inputs (<[idx := toggle_in outputId input]> (inputs (data s))) s
      | None => s
      end
  end.

Definition isRouted (inputId : option nat) (outputId : nat) (s : t) : bool :=
  match inputId with
  | None => bool_decide (outputId ∈ directRoutingSet s)
  | Some iid =>
      match list_find (λ i, Input.id i = iid) (inputs (data s)) with
      | Some (_, input) => bool_decide (outputId ∈ Input.routing input)
      | None => false
      end
  end.

(** A run of [addOutput] / [removeOutput] calls. *)
Inductive output_op := AddOutput | RemoveOutput (id : nat).

Definition run_output_op (s : t) (o : output_op) : option t :=
  match o with
  | AddOutput => snd <$> addOutput s
  | RemoveOutput id => Some (removeOutput id s)
  end.

Fixpoint run_output_ops (s : t) (ops : list output_op) : option t :=
  match ops with
  | [] => Some s
  | o :: ops' => s' ← run_output_op s o; run_output_ops s' ops'
  end.

(** Every Output id held in a routing set belongs to a live Output. *)
Definition routes_live (s : t) : Prop :=
  (∀ r, r ∈ directRoutingSet s → r ∈ output_ids s) ∧
  (∀ input r, input ∈ inputs (data s) → r ∈ Input.routing input →
              r ∈ output_ids s).

End Store.

(** ** js/audio.js: class RingBuffer *)

Module RingBuffer.

(** A Float32 sample, as its bit pattern. *)
Definition sample := Z.
(** The fill of a fresh [Float32Array]. *)
Definition zero : sample := 0%Z.
(** What a [Float32Array] element holds after [undefined] is stored. *)
Definition NaN : sample := 0x7FC00000%Z.

Record t := mk {
  size : nat;
  channels : nat;
  buffers : list (list sample);
  writePtr : nat;
  readPtr : nat;
  available : nat
}.

Definition new (size channels : nat) : t :=
  mk size channels (replicate channels (replicate size zero)) 0 0 0.

(** A NaN whose quiet bit (bit 22) is clear: exponent all ones, mantissa
    not zero. *)
Definition is_signalling_NaN (x : sample) : bool :=
  (Z.land x 0x7F800000 =? 0x7F800000)%Z
  && (Z.land x 0x00400000 =? 0)%Z
  && negb (Z.land x 0x003FFFFF =? 0)%Z.

(** A sample read from a [Float32Array] and stored into one.  The read
    widens the element to a Number and the store narrows it again; both
    conversions keep every bit pattern except that of a signalling NaN,
    which comes back with its quiet bit set ([0x7F800001] is stored as
    [0x7FC00001]). *)
Definition via_number (x : sample) : sample :=
  if is_signalling_NaN x then Z.lor x 0x00400000 else x.

(** [floatArray[k]] then stored into a typed array: the element goes
    through a Number; an index past the end reads [undefined], which is
    stored as NaN. *)
Definition get (a : list sample) (k : nat) : sample :=
  match a !! k with
  | Some x => via_number x
  | None => NaN
  end.

(** [bufs[ch][idx] = v] on an array of [Float32Array]s.  [None] is the
    TypeError raised when [bufs[ch]] is [undefined]; a write past the end
    of a typed array is ignored. *)
Definition store_at (bufs : list (list sample)) (ch idx : nat) (v : sample)
  : option (list (list sample)) :=
  b ← bufs !! ch; Some (<[ch := <[idx := v]> b]> bufs).

(** [for (ch ...) this.buffers[ch][this.writePtr] = floatArray[i * inputChannels + ch]] *)
Fixpoint write_channels (chs : list nat) (frame : nat → sample) (ptr : nat)
    (bufs : list (list sample)) : option (list (list sample)) :=
  match chs with
  | [] => Some bufs
  | ch :: chs' =>
      bufs' ← store_at bufs ch ptr (frame ch);
      write_channels chs' frame ptr bufs'
  end.

(** The body of the frame loop of [push], for frame index [i]. *)
Definition push_frame (floatArray : list sample) (inputChannels : nat)
    (rb : t) (i : nat) : option t :=
  let copyCh := channels rb `min` inputChannels in
  bufs ← write_channels (seq 0 copyCh)
            (λ ch, get floatArray (i * inputChannels + ch))
            (writePtr rb) (buffers rb);
  let w := (writePtr rb + 1) `mod` size rb in
  Some (if available rb <? size rb
        then mk (size rb) (channels rb) bufs w (readPtr rb) (available rb + 1)
        else mk (size rb) (channels rb) bufs w
                ((readPtr rb + 1) `mod` size rb) (available rb)).

(** The number of indices [i = 0, 1, ...] with [i < length / inputChannels]
    (a real quotient).  With [inputChannels = 0] the quotient is
    [Infinity] for a non-empty array and the loop never exits ([None]);
    for an empty array it is [NaN] and the loop does not run. *)
Definition frame_count (len inputChannels : nat) : option nat :=
  if inputChannels =? 0
  then (if len =? 0 then Some 0 else None)
  else Some ((len + inputChannels - 1) `div` inputChannels).

Fixpoint push_frames (floatArray : list sample) (inputChannels : nat)
    (rb : t) (idxs : list nat) : option t :=
  match idxs with
  | [] => Some rb
  | i :: idxs' =>
      rb' ← push_frame floatArray inputChannels rb i;
      push_frames floatArray inputChannels rb' idxs'
  end.

(** [push(floatArray, inputChannels)]; [None] when the call does not
    return normally. *)
Definition push (rb : t) (floatArray : list sample) (inputChannels : nat)
  : option t :=
  n ← frame_count (length floatArray) inputChannels;
  push_frames floatArray inputChannels rb (seq 0 n).

(** [for (ch ...) outputBuffers[ch][i] = this.buffers[ch][this.readPtr]] *)
Fixpoint read_channels (chs : list nat) (bufs : list (list sample))
    (ptr i : nat) (out : list (list sample)) : option (list (list sample)) :=
  match chs with
  | [] => Some out
  | ch :: chs' =>
      src ← bufs !! ch;
      out' ← store_at out ch i (get src ptr);
      read_channels chs' bufs ptr i out'
  end.

(** The frame loop of [pop]: threads the read cursor and the output
    buffers. *)
Fixpoint pop_frames (size channels : nat) (bufs : list (list sample))
    (idxs : list nat) (ptr : nat) (out : list (list sample))
  : option (nat * list (list sample)) :=
  match idxs with
  | [] => Some (ptr, out)
  | i :: idxs' =>
      out' ← read_channels (seq 0 channels) bufs ptr i out;
      pop_frames size channels bufs idxs' ((ptr + 1) `mod` size) out'
  end.

(** [pop(outputBuffers, count)]: the returned boolean, the output buffers
    and the ring buffer after the call; [None] for a TypeError. *)
Definition pop (rb : t) (outputBuffers : list (list sample)) (count : nat)
  : option (bool * list (list sample) * t) :=
  if available rb <? count then Some (false, outputBuffers, rb)
  else
    '(ptr, out) ← pop_frames (size rb) (channels rb) (buffers rb)
                     (seq 0 count) (readPtr rb) outputBuffers;
    Some (true, out,
          mk (size rb) (channels rb) (buffers rb) (writePtr rb) ptr
             (available rb - count)).

Definition clear (rb : t) : t :=
  mk (size rb) (channels rb) (buffers rb) 0 0 0.

(** The state a ring buffer built by [new] keeps under [push], [pop] and
    [clear]. *)
Record wf (rb : t) : Prop := {
  wf_size : 0 < size rb;
  wf_channels : length (buffers rb) = channels rb;
  wf_buffers : Forall (λ b, length b = size rb) (buffers rb);
  wf_read : readPtr rb < size rb;
  wf_available : available rb ≤ size rb;
  wf_write : writePtr rb = (readPtr rb + available rb) `mod` size rb
}.

(** The stored frames of channel [ch], oldest first. *)
Definition contents (rb : t) (ch : nat) : list sample :=
  (λ k, get (default [] (buffers rb !! ch)) ((readPtr rb + k) `mod` size rb))
    <$> seq 0 (available rb).

(** Channel [ch] of an interleaved array, frame by frame as [push] reads
    it. *)
Definition channel_of (floatArray : list sample) (inputChannels ch : nat)
  : list sample :=
  (λ i, get floatArray (i * inputChannels + ch))
    <$> seq 0 (default 0 (frame_count (length floatArray) inputChannels)).

(** The last [n] elements of a list. *)
Definition lastn {A} (n : nat) (l : list A) : list A :=
  drop (length l - n) l.

(** Calls on one ring buffer. *)
Inductive op :=
| Push (floatArray : list sample) (inputChannels : nat)
| Pop (outputBuffers : list (list sample)) (count : nat)
| Clear.


Definition run_op (rb : t) (o : op) : option t :=
  match o with
  | Push floatArray inputChannels => push rb floatArray inputChannels
  | Pop outputBuffers count => snd <$> pop rb outputBuffers count
  | Clear => Some (clear rb)
  end.

Fixpoint run_ops (rb : t) (ops : list op) : option t :=
  match ops with
  | [] => Some rb
  | o :: ops' => rb' ← run_op rb o; run_ops rb' ops'
  end.

(** Successive pushes of interleaved arrays, each with its channel count. *)
Fixpoint push_all (rb : t) (chunks : list (list sample * nat)) : option t :=
  match chunks with
  | [] => Some rb
  | (floatArray, inputChannels) :: chunks' =>
      rb' ← push rb floatArray inputChannels; push_all rb' chunks'
  end.





(** What a typed array element holds after such a read is stored in it. *)
Definition stored (x : option sample) : sample :=
  match x with
  | Some b => via_number b
  | None => NaN
  end.

End RingBuffer.

(** ** js/audio.js: class AudioEngine *)

Module AudioEngine.

Definition Qlt_bool (x y : Q) : bool := negb (Qle_bool y x).

(** An [AudioParam]: its value, and the arguments of the last
    [setTargetAtTime(target, startTime, timeConstant)] call. *)
Record AudioParam := mkParam {
  value : Q;
  automation : option (Q * Q * Q)
}.

Definition setTargetAtTime (target startTime timeConstant : Q)
    (p : AudioParam) : AudioParam :=
  mkParam (value p) (Some (target, startTime, timeConstant)).

(** The gain a parameter is ramping to. *)
Definition target (p : AudioParam) : option Q :=
  (λ a, a.1.1) <$> automation p.

(** An [AudioBuffer] from [createBuffer(2, length, sampleRate)], with the
    arrays copied into its channels. *)
Record AudioBuffer := mkBuffer {
  frames : nat;
  sampleRate : Q;
  channelData : list (list RingBuffer.sample)
}.

(** [buffer.duration]: frames over sample rate. *)
Definition duration (b : AudioBuffer) : Q :=
  inject_Z (Z.of_nat (frames b)) / sampleRate b.

(** A buffer source after [src.start(when)]. *)
Record Source := mkSource {
  when : Q;
  buffer : AudioBuffer
}.

(** The nodes of one output strip that the gain and scheduling code
    touches.  [currentTime] is the reading of the strip's own
    [context.currentTime]; [started] lists the sources connected to
    [directGain] and started, oldest first. *)
Record Strip := mkStrip {
  currentTime : Q;
  hwInputGains : list (nat * AudioParam);
  directGain : AudioParam;
  masterVol : AudioParam;
  nextAudioTime : Q;
  started : list Source
}.

Record t := mk {
  isRunning : bool;
  strips : list (nat * Strip);
  ringBuffer : RingBuffer.t
}.

Definition new : t := mk false [] (RingBuffer.new (N.to_nat 48000 * 2) 2).

(** *** updateAllGains *)

(** The body of [stripNodes.hwInputGains.forEach] for one entry. *)
Definition updateHwGain (s : Store.t) (outputId : nat) (now : Q)
    (entry : nat * AudioParam) : nat * AudioParam :=
  let '(inputId, gainNode) := entry in
  match list_find (λ i, Store.Input.id i = inputId)
                  (Store.inputs (Store.data s)) with
  | Some (_, inputData) =>
      let isRouted := bool_decide (outputId ∈ Store.Input.routing inputData) in
      let target := if isRouted then Store.Input.volume inputData else 0%Q in
      (inputId, setTargetAtTime target now 0.02 gainNode)
  | None => (inputId, gainNode)
  end.

Definition dirTarget (s : Store.t) (outputId : nat) : Q :=
  let dirRouteMult : Q :=
    if bool_decide (outputId ∈ Store.directRoutingSet s) then 1%Q else 0%Q in
  let dirMuteMult : Q :=
    if Store.directMuted (Store.data s) then 0%Q else 1%Q in
  Store.directGain (Store.data s) * dirRouteMult * dirMuteMult.

(** The body of [this.strips.forEach] in [updateAllGains]. *)
Definition updateStripGains (s : Store.t) (outputId : nat)
    (stripNodes : Strip) : Strip :=
  mkStrip (currentTime stripNodes)
    (updateHwGain s outputId (currentTime stripNodes)
       <$> hwInputGains stripNodes)
    (setTargetAtTime (dirTarget s outputId) (currentTime stripNodes) 0.02
       (directGain stripNodes))
    (masterVol stripNodes)
    (nextAudioTime stripNodes)
    (started stripNodes).

Definition updateAllGains (s : Store.t) (e : t) : t :=
  mk (isRunning e)
     ((λ '(outputId, stripNodes),
         (outputId, updateStripGains s outputId stripNodes)) <$> strips e)
     (ringBuffer e).

(** *** Scheduling *)

(** [Math.max(store.data.directBuffer || 0.1, 0.05)]; of the falsy values
    only 0 is a rational. *)
Definition userBuffer (directBuffer : Q) : Q :=
  Qmax (if Qeq_bool directBuffer 0 then 0.1%Q else directBuffer) 0.05.

(** **** processDirectAudio, scheduling each array as it arrives *)

(** [(userBuffer * 3) + 0.2] *)
Definition resetThreshold (userBuffer : Q) : Q := (userBuffer * 3 + 0.2)%Q.

(** The cursor after the underrun and overrun corrections, every sum and
    product read exactly ([Doubles.correctedCursor] has them rounded). *)
Definition correctedCursor (currentTime userBuffer nextAudioTime : Q) : Q :=
  let next1 :=
    if Qlt_bool nextAudioTime currentTime
    then (currentTime + userBuffer + 0.05)%Q
    else nextAudioTime in
  if Qlt_bool (currentTime + resetThreshold userBuffer) next1
  then (currentTime + userBuffer)%Q
  else next1.

(** [ch0[i] = floatArray[i * 2]; ch1[i] = floatArray[i * 2 + 1]] for
    [i < frameCount]. *)
Definition deinterleave (floatArray : list RingBuffer.sample)
  : list (list RingBuffer.sample) :=
  let frameCount := length floatArray `div` 2 in
  [ (λ i, RingBuffer.get floatArray (i * 2)) <$> seq 0 frameCount;
    (λ i, RingBuffer.get floatArray (i * 2 + 1)) <$> seq 0 frameCount ].

(** The body of [this.strips.forEach] in [processDirectAudio] once
    [createBuffer] has returned [buf], read exactly; the call as a whole,
    with its error path and its rounding, is [Doubles.processDirectAudio]. *)
Definition scheduleDirect (directBuffer : Q) (buf : AudioBuffer)
    (nodes : Strip) : Strip :=
  let next := correctedCursor (currentTime nodes) (userBuffer directBuffer)
                              (nextAudioTime nodes) in
  mkStrip (currentTime nodes) (hwInputGains nodes) (directGain nodes)
          (masterVol nodes)
          (next + duration buf)%Q
          (started nodes ++ [mkSource next buf]).

(** **** processDirectAudio into the ring buffer, and scheduleAudio *)

Definition processDirectAudio_ring (e : t)
    (floatArray : list RingBuffer.sample) (channels : nat) : option t :=
  if negb (isRunning e) then Some e
  else
    rb ← RingBuffer.push (ringBuffer e) floatArray channels;
    Some (mk (isRunning e) (strips e) rb).

Definition CHUNK_SIZE : nat := 1024.

(** The body of [this.strips.forEach] in [scheduleAudio]: the value of
    [store.data.directBuffer] and the strip, before and after. *)
Definition scheduleStrip (userBufferSec : Q)
    (tempBuffers : list (list RingBuffer.sample))
    (directBuffer : Q) (nodes : Strip) : Q * Strip :=
  let underrun := Qlt_bool (nextAudioTime nodes) (currentTime nodes) in
  let next :=
    if underrun then (currentTime nodes + userBufferSec)%Q
    else nextAudioTime nodes in
  let directBuffer' :=
    if underrun && Qlt_bool directBuffer 0.5
    then (directBuffer + 0.001)%Q
    else directBuffer in
  let buf := mkBuffer CHUNK_SIZE 48000 tempBuffers in
  (directBuffer',
   mkStrip (currentTime nodes) (hwInputGains nodes) (directGain nodes)
           (masterVol nodes)
           (next + duration buf)%Q
           (started nodes ++ [mkSource next buf])).

(** [this.strips.forEach] for one chunk, in insertion order. *)
Fixpoint scheduleChunk (userBufferSec : Q)
    (tempBuffers : list (list RingBuffer.sample))
    (directBuffer : Q) (strips : list (nat * Strip))
  : Q * list (nat * Strip) :=
  match strips with
  | [] => (directBuffer, [])
  | (id, nodes) :: rest =>
      let '(directBuffer1, nodes') :=
        scheduleStrip userBufferSec tempBuffers directBuffer nodes in
      let '(directBuffer2, rest') :=
        scheduleChunk userBufferSec tempBuffers directBuffer1 rest in
      (directBuffer2, (id, nodes') :: rest')
  end.

(** [while (this.ringBuffer.available >= CHUNK_SIZE)], at most [fuel]
    iterations; [None] when the bound is used up or [pop] raises. *)
Fixpoint schedule_loop (fuel : nat) (userBufferSec : Q)
    (s : Store.t) (e : t) : option (Store.t * t) :=
  if CHUNK_SIZE <=? RingBuffer.available (ringBuffer e) then
    match fuel with
    | O => None
    | S fuel' =>
        '(_, tempBuffers, rb) ←
           RingBuffer.pop (ringBuffer e)
             [replicate CHUNK_SIZE RingBuffer.zero;
              replicate CHUNK_SIZE RingBuffer.zero]
             CHUNK_SIZE;
        let '(directBuffer', strips') :=
          scheduleChunk userBufferSec tempBuffers
            (Store.directBuffer (Store.data s)) (strips e) in
        schedule_loop fuel' userBufferSec
          (Store.set_directBuffer directBuffer' s)
          (mk (isRunning e) strips' rb)
    end
  else Some (s, e).

(** [scheduleAudio()]: every iteration removes [CHUNK_SIZE] frames, so
    [available] iterations are enough. *)
Definition scheduleAudio (s : Store.t) (e : t) : option (Store.t * t) :=
  if negb (isRunning e) then Some (s, e)
  else schedule_loop (RingBuffer.available (ringBuffer e))
         (userBuffer (Store.directBuffer (Store.data s))) s e.


(** Some strip's cursor is behind its clock. *)
Definition underrun (nodes : Strip) : Prop :=
  (nextAudioTime nodes < currentTime nodes)%Q.

(** The number of strips whose cursor is behind their clock. *)
Definition behind_count (strips : list (nat * Strip)) : nat :=
  length (filter (λ p, Qlt_bool (nextAudioTime p.2) (currentTime p.2) = true)
                 strips).

(** The start time of the source most recently started on a strip. *)
Definition last_start (nodes : Strip) : option Q := when <$> last (started nodes).

(** The mute-aware target in the words of the specification, for a
    hardware input on an Output: [routed ? (muted ? 0 : volume) : 0]. *)
Definition spec_hw_target (inputData : Store.Input.t) (outputId : nat) : Q :=
  if bool_decide (outputId ∈ Store.Input.routing inputData)
  then (if Store.Input.isMuted inputData then 0%Q
        else Store.Input.volume inputData)
  else 0%Q.

End AudioEngine.

(** ** js/ipc.js: class DirectServer *)

Module DirectServer.

#[global] Instance byte_eq_decision : EqDecision byte := byte_eq_dec.

(** What the server does to its surroundings. *)
Inductive effect :=
| ReportStatus (connected : bool) (rate : option N)
    (** [this.reportStatus(connected, rate)] *)
| ProcessDirectAudio (floatArray : list RingBuffer.sample) (sampleRate : N)
    (** [audio.processDirectAudio(floatArray, this.sampleRate)] *)
| SocketDestroy
    (** [socket.destroy()] *)
| RangeError.
    (** [new Float32Array] throws; the exception leaves the [data]
        handler. *)

Record t := mk {
  isHeaderReceived : bool;
  headerBuffer : list byte;
  sampleRate : N
}.

Definition new : t := mk false [] 44100.

(** The connection callback of [net.createServer]. *)
Definition onConnection (s : t) : t * list effect :=
  (mk false [] (sampleRate s), [ReportStatus false None]).

Definition magic : list byte := list_byte_of_string "UXD1".

(** [buf.readUInt32LE(offset)] for [offset + 4 <= buf.length]. *)
Definition readUInt32LE (buf : list byte) (offset : nat) : N :=
  match drop offset buf with
  | b0 :: b1 :: b2 :: b3 :: _ =>
      (Byte.to_N b0 + 256 * Byte.to_N b1 + 65536 * Byte.to_N b2
       + 16777216 * Byte.to_N b3)%N
  | _ => 0%N
  end.

(** [new Float32Array(buffer.buffer, buffer.byteOffset, buffer.byteLength / 4)]
    on a little-endian host: one sample per four bytes. *)
Fixpoint float32_view (bytes : list byte) : list RingBuffer.sample :=
  match bytes with
  | b0 :: b1 :: b2 :: b3 :: rest =>
      Z.of_N (Byte.to_N b0 + 256 * Byte.to_N b1 + 65536 * Byte.to_N b2
              + 16777216 * Byte.to_N b3)
      :: float32_view rest
  | _ => []
  end.

(** [handleAudioData(buffer)] for a [buffer] that starts [byteOffset]
    bytes into its ArrayBuffer.  [slice] keeps the offset; [new
    Float32Array(buffer.buffer, buffer.byteOffset, ...)] throws a
    RangeError unless the offset is a multiple of 4. *)
Definition handleAudioData_at (s : t) (byteOffset : nat)
    (buffer : list byte) : list effect :=
  let buffer :=
    if negb (length buffer `mod` 8 =? 0)
    then take (length buffer `div` 8 * 8) buffer
    else buffer in
  if length buffer =? 0 then []
  else if byteOffset `mod` 4 =? 0
       then [ProcessDirectAudio (float32_view buffer) (sampleRate s)]
       else [RangeError].

(** The call was left by the exception. *)
Definition threw (fx : list effect) : bool :=
  existsb (λ f, match f with RangeError => true | _ => false end) fx.

(** [handleAudioData(buffer)] for a chunk as the socket delivers it, at
    the start of its own ArrayBuffer. *)
Definition handleAudioData (s : t) (buffer : list byte) : list effect :=
  handleAudioData_at s 0 buffer.

(** [Buffer.concat([this.headerBuffer, buffer])], cut to its last 1024
    bytes when longer. *)
Definition accumulate (headerBuffer buffer : list byte) : list byte :=
  let hb := headerBuffer ++ buffer in
  if 1024 <? length hb then drop (length hb - 1024) hb else hb.

(** [handleHandshake(buffer, socket)].  [slice(0, 4).toString() === 'UXD1']
    holds exactly when the four bytes are the ASCII codes of the literal:
    the UTF-8 decoding of any other four bytes differs from it.
    [Buffer.concat] allocates at a multiple of 8, so the bytes after the
    header start [cut + 8] bytes into the allocation, where [cut] is what
    [slice(-1024)] removed.  When [handleAudioData] throws, the statement
    that empties [headerBuffer] is not reached. *)
Definition handleHandshake (s : t) (buffer : list byte) : t * list effect :=
  let cut := length (headerBuffer s ++ buffer) - 1024 in
  let hb := accumulate (headerBuffer s) buffer in
  if 8 <=? length hb then
    if decide (take 4 hb = magic) then
      let rate := readUInt32LE hb 4 in
      let remaining := drop 8 hb in
      let fx :=
        if 0 <? length remaining
        then handleAudioData_at (mk true hb rate) (cut + 8) remaining
        else [] in
      (mk true (if threw fx then hb else []) rate,
       ReportStatus true (Some rate) :: fx)
    else (mk (isHeaderReceived s) [] (sampleRate s), [SocketDestroy])
  else (mk (isHeaderReceived s) hb (sampleRate s), []).

(** [socket.on('data', ...)] *)
Definition onData (s : t) (buffer : list byte) : t * list effect :=
  if negb (isHeaderReceived s) then handleHandshake s buffer
  else (s, handleAudioData s buffer).


End DirectServer.

(** ** Concrete states used to exercise the statements below *)

Module Examples.

(** A store with two Outputs, both routed from the direct input and from
    Input 1. *)
Definition store_two_routed : Store.t :=
  {| Store.data :=
       {| Store.inputs := [Store.Input.mk 1 "default" 1 false [1; 2]];
          Store.directGain := 1; Store.directMuted := false;
          Store.directRouting := []; Store.directBuffer := 0.1;
          Store.outputs :=
            [Store.Output.mk 1 "" 1 false (Store.mkEqValues 0 0 0);
             Store.Output.mk 2 "" 1 false (Store.mkEqValues 0 0 0)] |};
     Store.hardwareRoutingSet := ∅; Store.directRoutingSet := {[1; 2]};
     Store.inputIdCounter := 1; Store.outputIdCounter := 1 |}.

(** A stereo ring buffer of four frames holding three. *)
Definition ring_three : RingBuffer.t :=
  RingBuffer.mk 4 2 [[1; 3; 5; 0]; [2; 4; 6; 0]]%Z 3 0 3.

(** Two zeroed output arrays of three samples. *)
Definition out_three : list (list RingBuffer.sample) :=
  [[0; 0; 0]; [0; 0; 0]]%Z.

(** Two interleaved stereo arrays, three frames in all. *)
Definition chunks_three : list (list RingBuffer.sample * nat) :=
  [([11; 12; 21; 22]%Z, 2); ([31; 32]%Z, 2)].

(** A ring buffer holding exactly one chunk of silence. *)
Definition ring_one_chunk : RingBuffer.t :=
  RingBuffer.mk 1024 2
    [replicate 1024 RingBuffer.zero; replicate 1024 RingBuffer.zero]
    0 0 1024.

Definition silent : AudioEngine.AudioParam := AudioEngine.mkParam 0 None.

(** A strip whose clock reads 1 s, with the given cursor and one hardware
    input tap. *)
Definition strip_at (nextAudioTime : Q) : AudioEngine.Strip :=
  AudioEngine.mkStrip 1 [(1, silent)] silent silent nextAudioTime [].

(** A running engine with one chunk buffered; strip 1 has never been
    scheduled (cursor 0, clock at 1 s). *)
Definition engine_underrun : AudioEngine.t :=
  AudioEngine.mk true [(1, strip_at 0)] ring_one_chunk.

(** The same with two strips, neither scheduled yet. *)
Definition engine_two_underrun : AudioEngine.t :=
  AudioEngine.mk true [(1, strip_at 0); (2, strip_at 0)] ring_one_chunk.




(** The same, with the cursor one second ahead of the clock. *)
Definition engine_overrun : AudioEngine.t :=
  AudioEngine.mk true [(1, strip_at (1 + 1.0))] ring_one_chunk.

(** Input 1 muted, at full volume, routed to Output 1. *)
Definition store_muted_input : Store.t :=
  {| Store.data :=
       {| Store.inputs := [Store.Input.mk 1 "default" 1 true [1]];
          Store.directGain := 1; Store.directMuted := false;
          Store.directRouting := []; Store.directBuffer := 0.1;
          Store.outputs :=
            [Store.Output.mk 1 "" 1 false (Store.mkEqValues 0 0 0)] |};
     Store.hardwareRoutingSet := ∅; Store.directRoutingSet := {[1]};
     Store.inputIdCounter := 1; Store.outputIdCounter := 1 |}.

(** The handshake header for 48000 Hz: ["UXD1"] and [0x0000BB80],
    little-endian. *)
Definition header_48000 : list byte :=
  DirectServer.magic ++ [x80; xbb; x00; x00].

(** A header with a wrong identifier. *)
Definition header_bad : list byte :=
  list_byte_of_string "XXXX" ++ [x80; xbb; x00; x00].

(** A chunk of 1025 bytes whose last 1024 begin with the 48000 Hz
    header: the cap cuts one byte, and the bytes after the header lie 9
    bytes into the allocation. *)
Definition chunk_misaligned : list byte :=
  x00 :: header_48000 ++ replicate 1016 x00.

End Examples.

(** ** js/store.js: load and save *)

Module Persistence.

(** An element of [saved.outputs]: an Output as [save] writes it, with the
  [eq] copy of [eqValues]; either may be missing in older data. *)
Record SavedOutput := mkSavedOutput {
id : nat;
selectedDeviceId : string;
volume : Q;
isMuted : bool;
eqValues : option Store.EqValues;
eq : option Store.EqValues
}.

(** The object under the key [uxAudioRouterSettings]; [None] is a missing
  property. *)
Record Saved := mkSaved {
inputs : option (list Store.Input.t);
hardwareGain : option Q;
inputDeviceId : option string;
hardwareRouting : option (list nat);
directGain : option Q;
directMuted : option bool;
directRouting : option (list nat);
directBuffer : option Q;
outputs : option (list SavedOutput)
}.

(** [JSON.parse(localStorage.getItem(...))]: [null] (no item), a
  SyntaxError, or the saved object. *)
Inductive Stored := Missing | Corrupt | Parsed (saved : Saved).

(** [save()]: the object handed to [JSON.stringify].  [Array.from] lists the
  set in insertion order, [elements] in another; only the set read back
  from it matters. *)
Definition save (s : Store.t) : Saved :=
{| inputs := Some (Store.inputs (Store.data s));
   hardwareGain := None;
   inputDeviceId := None;
   hardwareRouting := None;
   directGain := Some (Store.directGain (Store.data s));
   directMuted := Some (Store.directMuted (Store.data s));
   directRouting := Some (elements (Store.directRoutingSet s));
   directBuffer := Some (Store.directBuffer (Store.data s));
   outputs :=
     Some ((λ out,
              mkSavedOutput (Store.Output.id out)
                (Store.Output.selectedDeviceId out)
                (Store.Output.volume out) (Store.Output.isMuted out)
                (Some (Store.Output.eqValues out))
                (Some (Store.Output.eqValues out)))
             <$> Store.outputs (Store.data s)) |}.

(** [Array.from(new Set(l))]: the first occurrence of each element, in
  order. *)
Fixpoint dedup_first (l : list nat) : list nat :=
match l with
| [] => []
| x :: l' => x :: filter (λ y, y ≠ x) (dedup_first l')
end.

(** [Math.max(...ids)] for a non-empty list of ids. *)
Definition max_id (ids : list nat) : nat := foldr Nat.max 0 ids.

(** [if (!out.eqValues) out.eqValues = out.eq || { high: 0, mid: 0, low: 0 }] *)
Definition restore_output (out : SavedOutput) : Store.Output.t :=
Store.Output.mk (id out) (selectedDeviceId out) (volume out) (isMuted out)
  (match eqValues out with
   | Some v => v
   | None => default (Store.mkEqValues 0 0 0) (eq out)
   end).

Definition with_data (d : Store.Data) (s : Store.t) : Store.t :=
Store.mkStore d (Store.hardwareRoutingSet s) (Store.directRoutingSet s)
              (Store.inputIdCounter s) (Store.outputIdCounter s).

Definition with_inputIdCounter (n : nat) (s : Store.t) : Store.t :=
Store.mkStore (Store.data s) (Store.hardwareRoutingSet s)
              (Store.directRoutingSet s) n (Store.outputIdCounter s).

Definition with_outputIdCounter (n : nat) (s : Store.t) : Store.t :=
Store.mkStore (Store.data s) (Store.hardwareRoutingSet s)
              (Store.directRoutingSet s) (Store.inputIdCounter s) n.

(** The three branches that set [data.inputs]. *)
Definition load_inputs (saved : Saved) (s : Store.t) : option Store.t :=
match inputs saved with
| Some l =>
    let s1 := Store.set_inputs l s in
    Some (if 0 <? length l
          then with_inputIdCounter (max_id (Store.Input.id <$> l) + 1) s1
          else s1)
| None =>
    match hardwareGain saved with
    | Some g =>
        let oldRouting := dedup_first (default [] (hardwareRouting saved)) in
        let deviceId :=
          match inputDeviceId saved with
          | Some d => if String.eqb d "" then "default" else d
          | None => "default"
          end in
        let volume := if Qeq_bool g 0 then 1%Q else g in
        Some (with_inputIdCounter 2
                (Store.set_inputs
                   [Store.Input.mk 1 deviceId volume false oldRouting] s))
    | None => snd <$> Store.addInput s
    end
end.

(** [directGain], [directMuted], [directBuffer] when present, and the
  direct routing set. *)
Definition load_direct (saved : Saved) (s : Store.t) : Store.t :=
let d := Store.data s in
Store.set_directRoutingSet
  (list_to_set (default [] (directRouting saved)))
  (with_data
     (Store.mkData (Store.inputs d)
        (default (Store.directGain d) (directGain saved))
        (default (Store.directMuted d) (directMuted saved))
        (Store.directRouting d)
        (default (Store.directBuffer d) (directBuffer saved))
        (Store.outputs d))
     s).

(** [this.data.outputs = saved.outputs || []]; the array is always truthy,
  so the [addOutput] fallback of the source is never taken. *)
Definition load_outputs (saved : Saved) (s : Store.t) : Store.t :=
let l := restore_output <$> default [] (outputs saved) in
let s1 := Store.set_outputs l s in
if 0 <? length l
then with_outputIdCounter (max_id (Store.Output.id <$> l) + 1) s1
else s1.

(** [load()] *)
Definition load (stored : Stored) (s : Store.t) : option Store.t :=
match stored with
| Parsed saved =>
    s1 ← load_inputs saved s;
    Some (load_outputs saved (load_direct saved s1))
| Missing =>
    '(_, s1) ← Store.addInput s;
    '(_, s2) ← Store.addOutput s1;
    Some (Store.toggleRouting None 1
            (Store.toggleRouting (Some 1) 1 s2))
| Corrupt =>
    '(_, s1) ← Store.addInput s;
    snd <$> Store.addOutput s1
end.

End Persistence.

(** ** Store operations as steps *)

Module StoreSteps.

(** One call on the store.  Routes are toggled from the route buttons,
  which exist for live Outputs only. *)
Inductive step : Store.t → Store.t → Prop :=
| step_addInput s id s' :
  Store.addInput s = Some (id, s') → step s s'
| step_addOutput s id s' :
  Store.addOutput s = Some (id, s') → step s s'
| step_removeInput s id :
  step s (Store.removeInput id s)
| step_removeOutput s id :
  step s (Store.removeOutput id s)
| step_toggleRouting s inputId outputId :
  outputId ∈ Store.output_ids s →
  step s (Store.toggleRouting inputId outputId s).

(** Ids ascending and distinct, no dangling route, no route listed twice. *)
Record inv (s : Store.t) : Prop := {
inv_inputs_sorted : Sorted lt (Store.input_ids s);
inv_outputs_sorted : Sorted lt (Store.output_ids s);
inv_routes_live : Store.routes_live s;
inv_routing_nodup :
  Forall (λ i, NoDup (Store.Input.routing i)) (Store.inputs (Store.data s))
}.

End StoreSteps.

(** ** js/ui.js: the store and engine side of the strip handlers *)

Module UI.

(** [removeStripContext(id)] of the engine: [this.strips.delete(id)]. *)
Definition removeStripContext (id : nat) (e : AudioEngine.t) : AudioEngine.t :=
AudioEngine.mk (AudioEngine.isRunning e)
  (filter (λ p, p.1 ≠ id) (AudioEngine.strips e))
  (AudioEngine.ringBuffer e).

(** [addNewOutput()] up to the routing calls: [store.addOutput()], then
  [store.toggleRouting('hardware', inp.id, id)] for every input and
  [store.toggleRouting('direct', null, id)]. *)
Definition addNewOutput (s : Store.t) : option (nat * Store.t) :=
'(id, s1) ← Store.addOutput s;
let s2 :=
  foldl (λ acc inp, Store.toggleRouting (Some (Store.Input.id inp)) id acc)
        s1 (Store.inputs (Store.data s1)) in
Some (id, Store.toggleRouting None id s2).

(** [removeOutput(id)]: nothing unless the dialog is confirmed, then
  [audio.removeStripContext(id)] and [store.removeOutput(id)]. *)
Definition removeOutput (confirmed : bool) (id : nat)
  (s : Store.t) (e : AudioEngine.t) : Store.t * AudioEngine.t :=
if confirmed then (Store.removeOutput id s, removeStripContext id e)
else (s, e).

Definition set_muted (m : bool) (o : Store.Output.t) : Store.Output.t :=
Store.Output.mk (Store.Output.id o) (Store.Output.selectedDeviceId o)
                (Store.Output.volume o) m (Store.Output.eqValues o).

(** The [toggle-global-mute] handler on the store: the new mute state sent
  back as [mute-status-changed], and the store. *)
Definition toggleGlobalMute (s : Store.t) : bool * Store.t :=
let anyActive :=
  existsb (λ o, negb (Store.Output.isMuted o))
          (Store.outputs (Store.data s)) in
let muteAll := anyActive in
(muteAll,
 Store.set_outputs (set_muted muteAll <$> Store.outputs (Store.data s)) s).

(** Every strip of the engine belongs to a live Output. *)
Definition strips_live (s : Store.t) (e : AudioEngine.t) : Prop :=
∀ id, id ∈ (fst <$> AudioEngine.strips e) → id ∈ Store.output_ids s.

End UI.

(** ** The ring buffer seen as a bounded queue *)

Module Queue.

(** What one call does to the stored samples of channel [ch], oldest first,
  in a queue that keeps at most [size] samples. *)
Definition step (size ch : nat) (q : list RingBuffer.sample)
  (o : RingBuffer.op) : list RingBuffer.sample :=
match o with
| RingBuffer.Push floatArray inputChannels =>
    RingBuffer.lastn size
      (q ++ RingBuffer.channel_of floatArray inputChannels ch)
| RingBuffer.Pop _ count => if length q <? count then q else drop count q
| RingBuffer.Clear => []
end.

Definition run (size ch : nat) (q : list RingBuffer.sample)
  (ops : list RingBuffer.op) : list RingBuffer.sample :=
foldl (step size ch) q ops.

(** Channel [ch] is among the channels every [push] of the run supplies. *)
Definition feeds (ch : nat) (o : RingBuffer.op) : Prop :=
match o with
| RingBuffer.Push _ inputChannels => ch < inputChannels
| _ => True
end.

End Queue.

(** ** What scheduleAudio plays *)

Module Playback.

(** The [j]-th chunk of [CHUNK_SIZE] frames of two stored channels. *)
Definition chunk (c0 c1 : list RingBuffer.sample) (j : nat)
: list (list RingBuffer.sample) :=
[take AudioEngine.CHUNK_SIZE (drop (AudioEngine.CHUNK_SIZE * j) c0);
 take AudioEngine.CHUNK_SIZE (drop (AudioEngine.CHUNK_SIZE * j) c1)].

(** The whole chunks a stereo ring buffer holds, oldest first. *)
Definition chunks (rb : RingBuffer.t) : list (list (list RingBuffer.sample)) :=
chunk (RingBuffer.contents rb 0) (RingBuffer.contents rb 1)
  <$> seq 0 (RingBuffer.available rb `div` AudioEngine.CHUNK_SIZE).

(** A strip after the scheduling step of [scheduleAudio] for each of the
  given chunks in turn. *)
Definition play (userBufferSec : Q)
  (bufs : list (list (list RingBuffer.sample)))
  (nodes : AudioEngine.Strip) : AudioEngine.Strip :=
foldl (λ nd tmp, (AudioEngine.scheduleStrip userBufferSec tmp 0 nd).2)
      nodes bufs.

(** Where the first chunk of a pass is started on a strip. *)
Definition first_start (userBufferSec : Q) (nodes : AudioEngine.Strip) : Q :=
if AudioEngine.Qlt_bool (AudioEngine.nextAudioTime nodes)
                        (AudioEngine.currentTime nodes)
then (AudioEngine.currentTime nodes + userBufferSec)%Q
else AudioEngine.nextAudioTime nodes.

(** [buffer.duration] of a chunk: 1024 frames at 48 kHz. *)
Definition chunk_duration : Q :=
inject_Z (Z.of_nat AudioEngine.CHUNK_SIZE) / 48000.

End Playback.

(** ** The sender of the protocol document *)

Module Sender.

Definition byte_of_N (n : N) : byte := default x00 (Byte.of_N n).

(** [buf.writeUInt32LE(value, offset)] for [0 <= value < 2^32]: the four
  bytes written. *)
Definition writeUInt32LE (value : N) : list byte :=
[byte_of_N (value `mod` 256);
 byte_of_N ((value `div` 256) `mod` 256);
 byte_of_N ((value `div` 65536) `mod` 256);
 byte_of_N ((value `div` 16777216) `mod` 256)]%N.

(** The header of the reference sender:
  [header.write('UXD1', 0); header.writeUInt32LE(sampleRate, 4)]. *)
Definition header (sampleRate : N) : list byte :=
DirectServer.magic ++ writeUInt32LE sampleRate.


(** The samples handed to the engine by a list of server effects, in
  order. *)
Definition decoded (fx : list DirectServer.effect) : list RingBuffer.sample :=
mjoin ((λ f, match f with
             | DirectServer.ProcessDirectAudio floatArray _ => floatArray
             | _ => []
             end) <$> fx).

End Sender.

(** ** processDirectAudio on doubles

    The earlier [processDirectAudio] once more, with what the exact
    reading in [AudioEngine] leaves out: every sum and product is rounded
    to a double, and [createBuffer] can refuse its arguments. *)

Module Doubles.
Section Doubles.

(** The double nearest to an exact result. *)
Variable rnd : Q → Q.

(** The sample rates [createBuffer] accepts: the range is the
implementation's (Chromium: 3000 to 768000).  Such rates are whole
numbers of at most 24 bits, which the conversion of the argument to
[float] keeps. *)
Variable accepts : Q → bool.

(** [Math.max(store.data.directBuffer || 0.1, 0.05)] *)
Definition userBuffer (directBuffer : Q) : Q :=
Qmax (if Qeq_bool directBuffer 0 then rnd 0.1 else directBuffer) (rnd 0.05).

(** [(userBuffer * 3) + 0.2] *)
Definition resetThreshold (userBuffer : Q) : Q :=
rnd (rnd (userBuffer * 3) + rnd 0.2).

(** The cursor after the underrun and overrun corrections:
[currentTime + userBuffer + 0.05], the test against
[currentTime + resetThreshold], and [currentTime + userBuffer]. *)
Definition correctedCursor (currentTime userBuffer nextAudioTime : Q) : Q :=
let next1 :=
if AudioEngine.Qlt_bool nextAudioTime currentTime
then rnd (rnd (currentTime + userBuffer) + rnd 0.05)
else nextAudioTime in
if AudioEngine.Qlt_bool (rnd (currentTime + resetThreshold userBuffer)) next1
then rnd (currentTime + userBuffer)
else next1.

(** [ctx.createBuffer(2, frameCount, sampleRate)] succeeds: at least one
frame and an accepted rate; otherwise it throws a NotSupportedError. *)
Definition createBuffer_ok (frameCount : nat) (sampleRate : Q) : bool :=
(0 <? frameCount) && accepts sampleRate.

(** [buffer.duration]: the quotient of length and sample rate, a double. *)
Definition duration (b : AudioEngine.AudioBuffer) : Q :=
rnd (inject_Z (Z.of_nat (AudioEngine.frames b)) / AudioEngine.sampleRate b).

(** The body of [this.strips.forEach] after [createBuffer] has returned. *)
Definition scheduleDirect (directBuffer : Q) (buf : AudioEngine.AudioBuffer)
(nodes : AudioEngine.Strip) : AudioEngine.Strip :=
let next :=
correctedCursor (AudioEngine.currentTime nodes) (userBuffer directBuffer)
                (AudioEngine.nextAudioTime nodes) in
AudioEngine.mkStrip (AudioEngine.currentTime nodes)
(AudioEngine.hwInputGains nodes) (AudioEngine.directGain nodes)
(AudioEngine.masterVol nodes)
(rnd (next + duration buf))
(AudioEngine.started nodes ++ [AudioEngine.mkSource next buf]).

(** [processDirectAudio(floatArray, sampleRate)].  [createBuffer] is the
first call of the loop body and every strip's context accepts the same
arguments, so when it throws it does so for the first strip, before
anything is changed: [None]. *)
Definition processDirectAudio (s : Store.t) (e : AudioEngine.t)
(floatArray : list RingBuffer.sample) (sampleRate : Q)
: option AudioEngine.t :=
if negb (AudioEngine.isRunning e) then Some e
else
match AudioEngine.strips e with
| [] => Some e
| _ :: _ =>
    let frameCount := length floatArray `div` 2 in
    if createBuffer_ok frameCount sampleRate then
      let buf := AudioEngine.mkBuffer frameCount sampleRate
                   (AudioEngine.deinterleave floatArray) in
      Some (AudioEngine.mk (AudioEngine.isRunning e)
              ((λ '(id, nodes),
                  (id, scheduleDirect
                         (Store.directBuffer (Store.data s)) buf nodes))
                 <$> AudioEngine.strips e)
              (AudioEngine.ringBuffer e))
    else None
end.

End Doubles.
End Doubles.

(** ** More concrete states *)

Module MoreExamples.

(** Settings written by the single-input version: gain 0, routes with a
    repeated entry. *)
Definition saved_legacy : Persistence.Saved :=
  Persistence.mkSaved None (Some 0%Q) (Some "mic"%string) (Some [2; 1; 2])
    (Some 0.5%Q) (Some true) (Some [1]) None
    (Some [Persistence.mkSavedOutput 1 "" 1 false None
             (Some (Store.mkEqValues 1 2 3))]).

(** Saved settings in which Input 1 is muted, at volume 1 and routed to
    Output 1. *)
Definition saved_muted_input : Persistence.Saved :=
  Persistence.mkSaved
    (Some [Store.Input.mk 1 "default" 1 true [1]])
    None None None (Some 1%Q) (Some false) (Some [1]) (Some 0.1%Q)
    (Some [Persistence.mkSavedOutput 1 "" 1 false
             (Some (Store.mkEqValues 0 0 0))
             (Some (Store.mkEqValues 0 0 0))]).

(** Three stereo frames pushed, two popped, one more pushed. *)
Definition ring_run : list RingBuffer.op :=
  [RingBuffer.Push [1; 2; 3; 4; 5; 6]%Z 2;
   RingBuffer.Pop Examples.out_three 2;
   RingBuffer.Push [7; 8]%Z 2].

(** The ring buffer after [ring_run] on a fresh stereo buffer of four
    frames. *)
Definition ring_after_run : RingBuffer.t :=
  RingBuffer.mk 4 2 [[1; 3; 5; 7]; [2; 4; 6; 8]]%Z 0 2 2.

(** [Examples.ring_three] after a mono push of two samples. *)
Definition ring_after_mono : RingBuffer.t :=
  RingBuffer.mk 4 2 [[8; 3; 5; 7]; [2; 4; 6; 0]]%Z 1 1 4.

(** A rounding to use the statements about doubles with: to the nearest
    multiple of 1/1024 (halves upwards). *)
Definition round_1024 (x : Q) : Q :=
  inject_Z (Qfloor (x * 1024 + (1 # 2))) / 1024.

(** Chromium's range of buffer sample rates. *)
Definition accepts_chromium (rate : Q) : bool :=
  Qle_bool 3000 rate && Qle_bool rate 768000.

End MoreExamples.

(** * Properties *)

(** ** Routing store *)

Section StoreFacts.
Import Store.

Lemma getAvailableId_loop_spec fuel (S : gset nat) id r :
  getAvailableId_loop fuel S id = Some r →
  id ≤ r ∧ (r ∉ S) ∧ (∀ k, id ≤ k < r → k ∈ S).
Proof.
  revert id. induction fuel as [|fuel IH]; intros id; simpl; [done|].
  destruct (decide (id ∈ S)) as [Hin|Hout].
  - intros Hr. destruct (IH _ Hr) as (Hle & Hfree & Hbelow).
    split; [lia|]. split; [done|].
    intros k Hk. destruct (decide (k = id)) as [->|]; [done|].
    apply Hbelow. lia.
  - intros [= <-]. split; [lia|]. split; [done|]. intros k Hk. lia.
Qed.

Lemma getAvailableId_loop_None fuel (S : gset nat) id :
  getAvailableId_loop fuel S id = None →
  ∀ k, id ≤ k < id + fuel → k ∈ S.
Proof.
  revert id. induction fuel as [|fuel IH]; intros id; simpl.
  - intros _ k Hk. lia.
  - destruct (decide (id ∈ S)) as [Hin|]; [|done].
    intros Hn k Hk. destruct (decide (k = id)) as [->|]; [done|].
    apply (IH _ Hn). lia.
Qed.

(** The allocation loop always exits within its bound. *)
Lemma getAvailableId_total ids : is_Some (getAvailableId ids).
Proof.
  unfold getAvailableId.
  destruct (getAvailableId_loop _ _ _) eqn:E; [by eexists|].
  exfalso.
  pose proof (getAvailableId_loop_None _ _ _ E) as Hall.
  assert (seq 1 (S (length ids)) ⊆+ ids) as Hsub.
  { apply NoDup_submseteq; [apply NoDup_seq|].
    intros k Hk. apply elem_of_seq in Hk.
    specialize (Hall k). rewrite elem_of_list_to_set in Hall.
    apply Hall. lia. }
  apply submseteq_length in Hsub. rewrite length_seq in Hsub. lia.
Qed.

Lemma getAvailableId_spec ids r :
  getAvailableId ids = Some r →
  1 ≤ r ∧ (r ∉ ids) ∧ (∀ k, 1 ≤ k < r → k ∈ ids).
Proof.
  intros H. apply getAvailableId_loop_spec in H as (H1 & H2 & H3).
  rewrite elem_of_list_to_set in H2.
  split; [done|]. split; [done|].
  intros k Hk. specialize (H3 k Hk). by rewrite elem_of_list_to_set in H3.
Qed.

(** The value returned is determined by the three properties. *)
Lemma getAvailableId_unique ids r :
  1 ≤ r → r ∉ ids → (∀ k, 1 ≤ k < r → k ∈ ids) →
  getAvailableId ids = Some r.
Proof.
  intros H1 H2 H3.
  destruct (getAvailableId_total ids) as [r' Hr'].
  rewrite Hr'. f_equal.
  apply getAvailableId_spec in Hr' as (H1' & H2' & H3').
  destruct (decide (r' < r)); [exfalso; apply H2', H3; lia|].
  destruct (decide (r < r')); [exfalso; apply H2, H3'; lia|].
  lia.
Qed.

Lemma insert_by_perm {A} (key : A → nat) x l :
  insert_by key x l ≡ₚ x :: l.
Proof.
  induction l as [|y l IH]; simpl; [done|].
  destruct (key x <=? key y); [done|].
  rewrite IH. apply Permutation_swap.
Qed.

Lemma sort_by_perm {A} (key : A → nat) (l : list A) : sort_by key l ≡ₚ l.
Proof.
  induction l as [|x l IH]; simpl; [done|].
  rewrite insert_by_perm. by rewrite IH.
Qed.

Lemma addOutput_spec s :
  ∃ id s', addOutput s = Some (id, s') ∧
    1 ≤ id ∧ (id ∉ output_ids s) ∧ (∀ k, 1 ≤ k < id → k ∈ output_ids s) ∧
    output_ids s' ≡ₚ id :: output_ids s ∧
    inputs (data s') = inputs (data s) ∧
    directRoutingSet s' = directRoutingSet s.
Proof.
  unfold addOutput.
  destruct (getAvailableId_total (output_ids s)) as [id Hid].
  rewrite Hid. simpl. eexists _, _. split; [done|].
  apply getAvailableId_spec in Hid as (H1 & H2 & H3).
  repeat split; try done.
  unfold output_ids at 1. simpl.
  rewrite sort_by_perm, fmap_app. simpl.
  by rewrite <- Permutation_cons_append.
Qed.

Lemma addInput_spec s :
  ∃ id s', addInput s = Some (id, s') ∧
    1 ≤ id ∧ (id ∉ input_ids s) ∧ (∀ k, 1 ≤ k < id → k ∈ input_ids s) ∧
    input_ids s' ≡ₚ id :: input_ids s.
Proof.
  unfold addInput.
  destruct (getAvailableId_total (input_ids s)) as [id Hid].
  rewrite Hid. simpl. eexists _, _. split; [done|].
  apply getAvailableId_spec in Hid as (H1 & H2 & H3).
  repeat split; try done.
  unfold input_ids at 1. simpl.
  rewrite sort_by_perm, fmap_app. simpl.
  by rewrite <- Permutation_cons_append.
Qed.

Lemma removeOutput_ids_sublist id s :
  output_ids (removeOutput id s) `sublist_of` output_ids s.
Proof.
  unfold removeOutput.
  destruct (list_find _ _) as [[idx o]|] eqn:E; [|done].
  unfold output_ids. simpl.
  apply fmap_sublist, sublist_delete.
Qed.

Lemma removeOutput_keeps id s r :
  r ≠ id → r ∈ output_ids s → r ∈ output_ids (removeOutput id s).
Proof.
  intros Hne Hr. unfold removeOutput.
  destruct (list_find _ _) as [[idx o]|] eqn:E; [|done].
  apply list_find_Some in E as (Hidx & Ho & _).
  unfold output_ids in *. simpl.
  apply list_elem_of_fmap in Hr as (o' & -> & Ho').
  apply list_elem_of_lookup in Ho' as [j Hj].
  assert (j ≠ idx) as Hji by (intros ->; congruence).
  apply list_elem_of_fmap. exists o'. split; [done|].
  apply list_elem_of_lookup.
  destruct (decide (j < idx)).
  - exists j. by rewrite list_lookup_delete_lt.
  - exists (pred j). rewrite list_lookup_delete_ge by lia.
    replace (S (pred j)) with j by lia. done.
Qed.

Lemma removeOutput_NoDup id s :
  NoDup (output_ids s) → NoDup (output_ids (removeOutput id s)).
Proof. intros H. eapply sublist_NoDup; [exact H|apply removeOutput_ids_sublist]. Qed.

Lemma removeOutput_frees id s :
  NoDup (output_ids s) → id ∉ output_ids (removeOutput id s).
Proof.
  intros Hnd. unfold removeOutput.
  destruct (list_find _ _) as [[idx o]|] eqn:E.
  - apply list_find_Some in E as (Hidx & Ho & _).
    unfold output_ids in *. simpl.
    rewrite <- (take_drop_middle _ _ _ Hidx) in Hnd.
    rewrite delete_take_drop.
    rewrite fmap_app in *. simpl in Hnd.
    apply NoDup_app in Hnd as (_ & Hdisj & Hnd).
    apply NoDup_cons in Hnd as [Hnotin _].
    rewrite Ho in *.
    intros [Hin|Hin]%elem_of_app; [|done].
    apply (Hdisj _ Hin). left.
  - apply list_find_None in E.
    unfold output_ids. intros (o & -> & Ho)%list_elem_of_fmap.
    rewrite Forall_forall in E. by apply (E o).
Qed.

Lemma run_output_ops_NoDup ops s :
  NoDup (output_ids s) →
  ∃ s', run_output_ops s ops = Some s' ∧ NoDup (output_ids s').
Proof.
  revert s. induction ops as [|o ops IH]; intros s Hnd; simpl.
  - by exists s.
  - destruct o as [|id]; simpl.
    + destruct (addOutput_spec s) as (id & s1 & -> & _ & Hfree & _ & Hp & _).
      simpl. apply IH. rewrite Hp. by apply NoDup_cons.
    + apply IH. by apply removeOutput_NoDup.
Qed.

(** A free id is handed out again after finitely many allocations. *)
Lemma free_id_reallocated d id s :
  1 ≤ id → id ∉ output_ids s →
  (∀ r, getAvailableId (output_ids s) = Some r → id - r ≤ d) →
  ∃ n s1 s2, run_output_ops s (replicate n AddOutput) = Some s1 ∧
             addOutput s1 = Some (id, s2).
Proof.
  revert s. induction d as [|d IH]; intros s Hpos Hfree Hd.
  - destruct (addOutput_spec s) as (r & s2 & Hadd & H1 & H2 & H3 & _).
    exists 0, s, s2. split; [done|].
    assert (getAvailableId (output_ids s) = Some r) as Hr.
    { by apply getAvailableId_unique. }
    specialize (Hd _ Hr).
    assert (r = id) as ->; [|done].
    destruct (decide (r < id)); [lia|].
    destruct (decide (id < r)); [exfalso; apply Hfree, H3; lia|]. lia.
  - destruct (addOutput_spec s) as (r & s2 & Hadd & H1 & H2 & H3 & Hp & _).
    destruct (decide (r = id)) as [->|Hne].
    { by exists 0, s, s2. }
    assert (r < id) as Hlt.
    { destruct (decide (id < r)); [exfalso; apply Hfree, H3; lia|]. lia. }
    assert (getAvailableId (output_ids s) = Some r) as Hr.
    { by apply getAvailableId_unique. }
    specialize (Hd _ Hr).
    destruct (IH s2) as (n & s1 & s3 & Hrun & Hadd').
    + done.
    + rewrite Hp. intros [?|?]%elem_of_cons; [lia|done].
    + intros r' Hr'. apply getAvailableId_spec in Hr' as (Hr'pos & Hr'free & _).
      assert (r < r'); [|lia].
      destruct (decide (r < r')); [done|exfalso].
      apply Hr'free. rewrite Hp.
      destruct (decide (r' = r)) as [->|]; [left|].
      right. apply H3. lia.
    + exists (S n), s1, s3. simpl. rewrite Hadd. simpl. done.
Qed.
End StoreFacts.

Section StoreClaims.
Import Store Examples.

Lemma removeOutput_live id s :
  id ∈ output_ids s →
  ∃ idx o, list_find (λ o, Output.id o = id) (outputs (data s)) = Some (idx, o).
Proof.
  intros (o & -> & Ho)%list_elem_of_fmap.
  destruct (list_find (λ o', Output.id o' = Output.id o) (outputs (data s)))
    as [[idx o']|] eqn:E; [by eauto|].
  apply list_find_None in E. rewrite Forall_forall in E.
  by destruct (E o Ho).
Qed.

(** C8.  After [removeOutput(id)] on a live Output, [id] is in neither
    the direct routing set nor the routing list of any hardware Input, and
    the invariant that every routed Output id is live is preserved. *)
Theorem C8_removeOutput_no_dangling_route (s : Store.t) (id : nat)
    (Hlive : id ∈ output_ids s) :
  (id ∉ directRoutingSet (removeOutput id s)) ∧
  (∀ input, input ∈ inputs (data (removeOutput id s)) →
            id ∉ Input.routing input) ∧
  (routes_live s → routes_live (removeOutput id s)).
Proof.
  destruct (removeOutput_live _ _ Hlive) as (idx & o & Hfind).
  split; [|split].
  - unfold removeOutput. rewrite Hfind. simpl.
    rewrite elem_of_difference, elem_of_singleton. tauto.
  - intros input. unfold removeOutput. rewrite Hfind. simpl.
    intros (i0 & -> & _)%list_elem_of_fmap. simpl.
    rewrite list_elem_of_filter. tauto.
  - intros [Hdir Hin]. split.
    + intros r Hr. unfold removeOutput in Hr. rewrite Hfind in Hr.
      simpl in Hr. apply elem_of_difference in Hr as [Hr Hne].
      rewrite elem_of_singleton in Hne.
      apply removeOutput_keeps; [done|]. by apply Hdir.
    + intros input r Hinput Hr.
      unfold removeOutput in Hinput. rewrite Hfind in Hinput.
      simpl in Hinput.
      apply list_elem_of_fmap in Hinput as (i0 & -> & Hi0).
      simpl in Hr. apply list_elem_of_filter in Hr as [Hne Hr].
      apply removeOutput_keeps; [done|]. by apply (Hin i0).
Qed.

Lemma C8_witness :
  (2 ∉ directRoutingSet (removeOutput 2 store_two_routed)) ∧
  (∀ input, input ∈ inputs (data (removeOutput 2 store_two_routed)) →
            2 ∉ Input.routing input) ∧
  (routes_live store_two_routed →
   routes_live (removeOutput 2 store_two_routed)).
Proof.
  apply (C8_removeOutput_no_dangling_route store_two_routed 2).
  vm_compute. apply list_elem_of_In. simpl. auto.
Defined.

(** C9.  [addOutput] and [addInput] return the smallest positive id not
    in use by a live entity of the same kind; along every run of
    [addOutput] / [removeOutput] calls the live Output ids stay pairwise
    distinct; and the id of a removed Output is free again and is handed
    out by a later [addOutput]. *)
Theorem C9_gap_filling_ids (s : Store.t) :
  (∃ id s', addOutput s = Some (id, s') ∧
     1 ≤ id ∧ (id ∉ output_ids s) ∧
     (∀ k, 1 ≤ k < id → k ∈ output_ids s) ∧
     output_ids s' ≡ₚ id :: output_ids s) ∧
  (∃ id s', addInput s = Some (id, s') ∧
     1 ≤ id ∧ (id ∉ input_ids s) ∧
     (∀ k, 1 ≤ k < id → k ∈ input_ids s) ∧
     input_ids s' ≡ₚ id :: input_ids s) ∧
  (NoDup (output_ids s) →
   ∀ ops, ∃ s', run_output_ops s ops = Some s' ∧ NoDup (output_ids s')) ∧
  (NoDup (output_ids s) →
   ∀ id, 1 ≤ id → id ∈ output_ids s →
     (id ∉ output_ids (removeOutput id s)) ∧
     ∃ n s1 s2,
       run_output_ops (removeOutput id s) (replicate n AddOutput) = Some s1 ∧
       addOutput s1 = Some (id, s2)).
Proof.
  split; [|split; [|split]].
  - destruct (addOutput_spec s) as (id & s' & H & H1 & H2 & H3 & H4 & _).
    by exists id, s'.
  - apply addInput_spec.
  - intros Hnd ops. by apply run_output_ops_NoDup.
  - intros Hnd id Hpos Hin.
    pose proof (removeOutput_frees id s Hnd) as Hfree.
    split; [done|].
    apply (free_id_reallocated id); [done|done|].
    intros r _. lia.
Qed.

Lemma C9_witness :
  ∃ s', run_output_ops Store.new
          [AddOutput; AddOutput; AddOutput; RemoveOutput 2; AddOutput]
        = Some s' ∧ NoDup (output_ids s').
Proof.
  apply (proj1 (proj2 (proj2 (C9_gap_filling_ids Store.new)))).
  apply NoDup_nil_2.
Defined.

Example addOutput_fills_gap :
  (s ← run_output_ops Store.new
         [AddOutput; AddOutput; AddOutput; RemoveOutput 2];
   fst <$> addOutput s) = Some 2.
Proof. vm_compute. reflexivity. Qed.

Example addOutput_sequence_ids :
  output_ids <$> run_output_ops Store.new
    [AddOutput; AddOutput; AddOutput; RemoveOutput 1; AddOutput; AddOutput]
  = Some [1; 2; 3; 4].
Proof. vm_compute. reflexivity. Qed.
End StoreClaims.

(** ** Ring buffer *)

Section RingBufferFacts.
Import RingBuffer.

Lemma mod_add_inj (s p u v : nat) :
  (p + u) `mod` s = (p + v) `mod` s → u ≤ v → v - u < s → u = v.
Proof.
  intros Heq Hle Hlt.
  destruct (decide (s = 0)) as [->|Hs]; [lia|].
  pose proof (Nat.div_mod_eq (p + u) s) as Hu.
  pose proof (Nat.div_mod_eq (p + v) s) as Hv.
  rewrite Heq in Hu.
  set (r := (p + v) `mod` s) in *.
  set (q1 := (p + u) `div` s) in *. set (q2 := (p + v) `div` s) in *.
  destruct (decide (q1 = q2)) as [Hq|Hq]; [rewrite Hq in Hu; lia|].
  assert (q1 < q2) as Hq12 by nia.
  assert (s * (q1 + 1) ≤ s * q2) by (apply Nat.mul_le_mono_l; lia).
  lia.
Qed.

Lemma lastn_short {A} n (l : list A) : length l ≤ n → lastn n l = l.
Proof. intros H. unfold lastn. by replace (length l - n) with 0 by lia. Qed.

Lemma length_lastn {A} n (l : list A) : length (lastn n l) = length l `min` n.
Proof. unfold lastn. rewrite length_drop. lia. Qed.

Lemma lastn_app_ge {A} n (l k : list A) :
  n ≤ length k → lastn n (l ++ k) = lastn n k.
Proof.
  intros H. unfold lastn. rewrite length_app.
  rewrite drop_app_ge by lia. f_equal. lia.
Qed.

Lemma lastn_lastn_app {A} n (l k : list A) :
  lastn n (lastn n l ++ k) = lastn n (l ++ k).
Proof.
  destruct (decide (length l ≤ n)) as [Hle|Hgt].
  - by rewrite (lastn_short n l).
  - unfold lastn at 2.
    rewrite <- (take_drop (length l - n) l) at 3.
    rewrite <- app_assoc.
    symmetry. apply lastn_app_ge.
    rewrite length_app, length_drop. lia.
Qed.

Lemma write_channels_spec chs frame ptr bufs :
  Forall (λ ch, ch < length bufs) chs →
  ∃ bufs', write_channels chs frame ptr bufs = Some bufs' ∧
    length bufs' = length bufs ∧
    ∀ ch, bufs' !! ch =
          if decide (ch ∈ chs) then <[ptr := frame ch]> <$> bufs !! ch
          else bufs !! ch.
Proof.
  revert bufs. induction chs as [|c chs IH]; intros bufs Hall; simpl.
  - exists bufs. split; [done|]. split; [done|]. intros ch.
    destruct (decide (ch ∈ [])) as [Hin|]; [by apply elem_of_nil in Hin|done].
  - apply Forall_cons in Hall as [Hc Hall].
    destruct (lookup_lt_is_Some_2 bufs c Hc) as [b Hb].
    unfold store_at. rewrite Hb. simpl.
    destruct (IH (<[c := <[ptr := frame c]> b]> bufs)) as (bufs' & -> & Hlen & Hlk).
    { by rewrite length_insert. }
    exists bufs'. split; [done|]. rewrite length_insert in Hlen.
    split; [done|]. intros ch. rewrite Hlk.
    destruct (decide (ch = c)) as [->|Hne].
    + rewrite list_lookup_insert_eq by done.
      rewrite (decide_True (P := c ∈ c :: chs)) by left. rewrite Hb. simpl.
      destruct (decide (c ∈ chs)); [|done].
      f_equal. apply list_eq. intros j.
      destruct (decide (j = ptr)) as [->|].
      * destruct (decide (ptr < length b)).
        -- by rewrite !list_lookup_insert_eq by (by rewrite ?length_insert).
        -- by rewrite !list_insert_ge by (rewrite ?length_insert; lia).
      * by rewrite !list_lookup_insert_ne by done.
    + rewrite list_lookup_insert_ne by done.
      destruct (decide (ch ∈ chs)) as [Hin|Hout].
      * rewrite (decide_True (P := ch ∈ c :: chs)) by (by right). done.
      * rewrite (decide_False (P := ch ∈ c :: chs)); [done|].
        intros [?|?]%elem_of_cons; done.
Qed.

Lemma read_channels_write chs bufs ptr i out :
  Forall (λ ch, ch < length bufs) chs →
  read_channels chs bufs ptr i out =
  write_channels chs (λ ch, get (default [] (bufs !! ch)) ptr) i out.
Proof.
  revert out. induction chs as [|c chs IH]; intros out Hall; simpl; [done|].
  apply Forall_cons in Hall as [Hc Hall].
  destruct (lookup_lt_is_Some_2 bufs c Hc) as [b Hb].
  rewrite Hb. simpl.
  destruct (store_at out c i (get b ptr)); simpl; [by apply IH|done].
Qed.

Lemma via_number_plain x : is_signalling_NaN x = false → via_number x = x.
Proof. unfold via_number. by intros ->. Qed.

(** A sample that went through a Number once is left alone by a second
    copy. *)
Lemma via_number_idemp x : via_number (via_number x) = via_number x.
Proof.
  apply via_number_plain. unfold via_number.
  destruct (is_signalling_NaN x) eqn:E; [|done].
  assert ((Z.land (Z.lor x 0x00400000) 0x00400000 =? 0)%Z = false) as Hq.
  { apply Z.eqb_neq. rewrite Z.land_lor_distr_l.
    intros [_ H]%Z.lor_eq_0_iff. discriminate H. }
  unfold is_signalling_NaN.
  rewrite Hq, andb_false_r. reflexivity.
Qed.

Lemma via_number_get a k : via_number (get a k) = get a k.
Proof.
  unfold get. destruct (a !! k) as [x|]; [apply via_number_idemp|done].
Qed.

Lemma get_lookup a k x : a !! k = Some x → get a k = via_number x.
Proof. unfold get. by intros ->. Qed.

Lemma Forall_seq_lt n m : n ≤ m → Forall (λ ch, ch < m) (seq 0 n).
Proof.
  intros H. apply Forall_forall. intros ch Hch%elem_of_seq. lia.
Qed.

Lemma length_contents rb ch : length (contents rb ch) = available rb.
Proof. unfold contents. by rewrite length_fmap, length_seq. Qed.

Lemma contents_lookup rb ch j :
  j < available rb →
  contents rb ch !! j =
  Some (get (default [] (buffers rb !! ch)) ((readPtr rb + j) `mod` size rb)).
Proof.
  intros Hj. unfold contents.
  rewrite list_lookup_fmap, lookup_seq_lt by done. done.
Qed.

Lemma lastn_lookup {A} n (l : list A) j :
  lastn n l !! j = l !! (length l - n + j).
Proof. unfold lastn. apply lookup_drop. Qed.

Lemma push_frame_spec floatArray inputChannels rb i :
  wf rb →
  ∃ rb', push_frame floatArray inputChannels rb i = Some rb' ∧
    wf rb' ∧ size rb' = size rb ∧ channels rb' = channels rb ∧
    available rb' = (available rb + 1) `min` size rb ∧
    ∀ ch, ch < channels rb `min` inputChannels →
      contents rb' ch =
      lastn (size rb)
        (contents rb ch ++ [get floatArray (i * inputChannels + ch)]).
Proof.
  intros [Hsz Hch Hbufs Hrd Hav Hwr].
  set (frame := λ ch, get floatArray (i * inputChannels + ch)).
  destruct (write_channels_spec (seq 0 (channels rb `min` inputChannels))
              frame (writePtr rb) (buffers rb))
    as (bufs' & Hw & Hlen & Hlk).
  { apply Forall_seq_lt. lia. }
  unfold push_frame. fold frame. rewrite Hw. simpl.
  assert (writePtr rb < size rb) as Hwp.
  { rewrite Hwr. apply Nat.mod_upper_bound. lia. }
  assert (Forall (λ b, length b = size rb) bufs') as Hbufs'.
  { apply Forall_lookup. intros ch b' Hb'. rewrite Hlk in Hb'.
    rewrite Forall_lookup in Hbufs.
    destruct (decide _).
    - destruct (buffers rb !! ch) as [b|] eqn:Eb; [|done].
      simpl in Hb'. injection Hb' as <-. rewrite length_insert. eauto.
    - eauto. }
  assert (∀ ch u, ch < channels rb `min` inputChannels →
            u ≤ available rb → available rb - u < size rb →
            get (default [] (bufs' !! ch)) ((readPtr rb + u) `mod` size rb) =
            if decide (u = available rb) then frame ch
            else get (default [] (buffers rb !! ch))
                     ((readPtr rb + u) `mod` size rb)) as Hget.
  { intros ch u Hc Hu Hdist. rewrite Hlk.
    rewrite decide_True by (apply elem_of_seq; lia).
    destruct (lookup_lt_is_Some_2 (buffers rb) ch) as [b Hb]; [lia|].
    rewrite Hb. simpl.
    assert (length b = size rb) as Hlb.
    { rewrite Forall_lookup in Hbufs. eauto. }
    unfold get at 1. destruct (decide (u = available rb)) as [->|Hne].
    - rewrite <- Hwr. rewrite list_lookup_insert_eq by lia.
      apply via_number_get.
    - unfold get. rewrite list_lookup_insert_ne; [done|].
      rewrite Hwr. intros Heq. apply Hne.
      by apply (mod_add_inj (size rb) (readPtr rb)). }
  destruct (available rb <? size rb) eqn:Efull.
  - apply Nat.ltb_lt in Efull.
    eexists. split; [done|]. split; [|split; [done|split; [done|split]]]; simpl.
    + constructor; simpl; try done; try lia.
      rewrite Hwr. rewrite Nat.Div0.add_mod_idemp_l. f_equal. lia.
    + lia.
    + intros ch Hc. apply list_eq. intros j.
      rewrite lastn_lookup, length_app, length_contents. simpl.
      replace (available rb + 1 - size rb + j) with j by lia.
      destruct (decide (j < available rb + 1)) as [Hj|Hj].
      * rewrite contents_lookup by (simpl; lia). simpl.
        rewrite Hget by lia.
        destruct (decide (j = available rb)) as [->|Hne].
        -- rewrite lookup_app_r by (rewrite length_contents; lia).
           rewrite length_contents, Nat.sub_diag. done.
        -- rewrite lookup_app_l by (rewrite length_contents; lia).
           by rewrite contents_lookup by lia.
      * rewrite !lookup_ge_None_2; [done| |].
        -- rewrite length_app, length_contents. simpl. lia.
        -- rewrite length_contents. simpl. lia.
  - apply Nat.ltb_ge in Efull.
    assert (available rb = size rb) as Ea by lia.
    eexists. split; [done|]. split; [|split; [done|split; [done|split]]]; simpl.
    + constructor; simpl; try done; try lia.
      * apply Nat.mod_upper_bound. lia.
      * rewrite Hwr. rewrite !Nat.Div0.add_mod_idemp_l. f_equal. lia.
    + lia.
    + intros ch Hc. apply list_eq. intros j.
      rewrite lastn_lookup, length_app, length_contents. simpl.
      replace (available rb + 1 - size rb + j) with (1 + j) by lia.
      destruct (decide (j < available rb)) as [Hj|Hj].
      * rewrite contents_lookup by (simpl; lia). simpl.
        rewrite Nat.Div0.add_mod_idemp_l.
        replace (readPtr rb + 1 + j) with (readPtr rb + (1 + j)) by lia.
        rewrite Hget by lia.
        destruct (decide (1 + j = available rb)) as [Heq|Hne].
        -- rewrite lookup_app_r by (rewrite length_contents; lia).
           rewrite length_contents.
           replace (_ - available rb) with 0 by lia. done.
        -- rewrite lookup_app_l by (rewrite length_contents; lia).
           by rewrite contents_lookup by lia.
      * rewrite !lookup_ge_None_2; [done| |].
        -- rewrite length_app, length_contents. simpl. lia.
        -- rewrite length_contents. simpl. lia.
Qed.

Lemma push_frames_spec floatArray inputChannels idxs rb :
  wf rb →
  ∃ rb', push_frames floatArray inputChannels rb idxs = Some rb' ∧
    wf rb' ∧ size rb' = size rb ∧ channels rb' = channels rb ∧
    available rb' = (available rb + length idxs) `min` size rb ∧
    ∀ ch, ch < channels rb `min` inputChannels →
      contents rb' ch =
      lastn (size rb)
        (contents rb ch ++
         ((λ i, get floatArray (i * inputChannels + ch)) <$> idxs)).
Proof.
  revert rb. induction idxs as [|i idxs IH]; intros rb Hwf; simpl.
  - exists rb. split; [done|]. split; [done|]. split; [done|]. split; [done|].
    split; [destruct Hwf; lia|].
    intros ch _. rewrite app_nil_r. symmetry. apply lastn_short.
    rewrite length_contents. by destruct Hwf.
  - destruct (push_frame_spec floatArray inputChannels rb i Hwf)
      as (rb1 & -> & Hwf1 & Hs1 & Hc1 & Ha1 & Hcont1).
    simpl.
    destruct (IH rb1 Hwf1) as (rb' & -> & Hwf' & Hs' & Hc' & Ha' & Hcont').
    exists rb'. split; [done|]. split; [done|].
    split; [congruence|]. split; [congruence|]. split; [lia|].
    intros ch Hch. rewrite Hcont' by (by rewrite Hc1).
    rewrite Hs1, Hcont1 by done.
    rewrite lastn_lastn_app. by rewrite <- app_assoc.
Qed.

Lemma frame_count_pos len inputChannels :
  0 < inputChannels → is_Some (frame_count len inputChannels).
Proof.
  intros H. unfold frame_count.
  destruct (inputChannels =? 0) eqn:E; [apply Nat.eqb_eq in E; lia|by eexists].
Qed.

Lemma length_channel_of floatArray inputChannels ch :
  length (channel_of floatArray inputChannels ch) =
  default 0 (frame_count (length floatArray) inputChannels).
Proof. unfold channel_of. by rewrite length_fmap, length_seq. Qed.

(** [push] returns for every positive channel count, whatever the fill
    level, and keeps the last [size] frames of each copied channel. *)
Lemma push_spec rb floatArray inputChannels :
  wf rb → 0 < inputChannels →
  ∃ rb', push rb floatArray inputChannels = Some rb' ∧
    wf rb' ∧ size rb' = size rb ∧ channels rb' = channels rb ∧
    available rb' =
      (available rb + length (channel_of floatArray inputChannels 0))
        `min` size rb ∧
    ∀ ch, ch < channels rb `min` inputChannels →
      contents rb' ch =
      lastn (size rb)
        (contents rb ch ++ channel_of floatArray inputChannels ch).
Proof.
  intros Hwf Hpos. unfold push, channel_of.
  destruct (frame_count_pos (length floatArray) _ Hpos) as [n Hn].
  rewrite Hn. simpl.
  destruct (push_frames_spec floatArray inputChannels (seq 0 n) rb Hwf)
    as (rb' & -> & Hwf' & Hs & Hc & Ha & Hcont).
  exists rb'. rewrite length_fmap, !length_seq in *. done.
Qed.

Lemma pop_frames_spec size channels bufs count start ptr out :
  0 < size → ptr < size → channels ≤ length bufs → channels ≤ length out →
  ∃ out', pop_frames size channels bufs (seq start count) ptr out
            = Some ((ptr + count) `mod` size, out') ∧
    length out' = length out ∧
    ∀ ch o, out !! ch = Some o →
      ∃ o', out' !! ch = Some o' ∧
        ∀ i, o' !! i =
             if decide (ch < channels ∧ start ≤ i < start + count ∧
                        i < length o)
             then Some (get (default [] (bufs !! ch))
                            ((ptr + (i - start)) `mod` size))
             else o !! i.
Proof.
  intros Hsz Hptr Hbufs. revert start ptr out Hptr.
  induction count as [|count IH]; intros start ptr out Hptr Hout; simpl.
  - exists out. rewrite Nat.add_0_r, Nat.mod_small by done.
    split; [done|]. split; [done|].
    intros ch o Ho. exists o. split; [done|]. intros i.
    rewrite decide_False by lia. done.
  - rewrite read_channels_write by (by apply Forall_seq_lt).
    destruct (write_channels_spec (seq 0 channels)
                (λ ch, get (default [] (bufs !! ch)) ptr) start out)
      as (out1 & -> & Hlen1 & Hlk1).
    { by apply Forall_seq_lt. }
    simpl.
    destruct (IH (S start) ((ptr + 1) `mod` size) out1)
      as (out' & -> & Hlen' & Hlk').
    { apply Nat.mod_upper_bound. lia. }
    { by rewrite Hlen1. }
    exists out'. split.
    { do 2 f_equal. rewrite Nat.Div0.add_mod_idemp_l. f_equal. lia. }
    split; [congruence|].
    intros ch o Ho.
    specialize (Hlk1 ch). rewrite Ho in Hlk1. simpl in Hlk1.
    destruct (decide (ch ∈ seq 0 channels)) as [Hin|Hnin].
    + apply elem_of_seq in Hin.
      destruct (Hlk' ch _ Hlk1) as (o' & Ho' & Hi).
      exists o'. split; [done|]. intros i. rewrite Hi.
      rewrite length_insert.
      destruct (decide (i = start)) as [->|Hne].
      * rewrite decide_False by lia.
        destruct (decide (start < length o)) as [Hlt|Hge].
        -- rewrite decide_True by lia.
           rewrite list_lookup_insert_eq by done.
           by rewrite Nat.sub_diag, Nat.add_0_r, Nat.mod_small by done.
        -- rewrite decide_False by lia.
           by rewrite list_insert_ge by lia.
      * rewrite list_lookup_insert_ne by done.
        destruct (decide (ch < channels ∧ S start ≤ i < S start + count ∧
                          i < length o)) as [Hc|Hc].
        -- rewrite decide_True by lia. do 2 f_equal.
           rewrite Nat.Div0.add_mod_idemp_l. f_equal. lia.
        -- rewrite decide_False by lia. done.
    + rewrite elem_of_seq in Hnin.
      destruct (Hlk' ch _ Hlk1) as (o' & Ho' & Hi).
      exists o'. split; [done|]. intros i. rewrite Hi.
      rewrite !decide_False by lia. done.
Qed.

(** [pop] with too few stored frames: nothing changes. *)
Lemma pop_short rb outputBuffers count :
  available rb < count →
  pop rb outputBuffers count = Some (false, outputBuffers, rb).
Proof.
  intros H. unfold pop.
  by rewrite (proj2 (Nat.ltb_lt _ _) H).
Qed.

Lemma pop_spec rb outputBuffers count :
  wf rb → channels rb ≤ length outputBuffers → count ≤ available rb →
  ∃ out',
    pop rb outputBuffers count =
      Some (true, out',
            mk (size rb) (channels rb) (buffers rb) (writePtr rb)
               ((readPtr rb + count) `mod` size rb)
               (available rb - count)) ∧
    length out' = length outputBuffers ∧
    ∀ ch o, outputBuffers !! ch = Some o →
      ∃ o', out' !! ch = Some o' ∧
        ∀ i, o' !! i =
             if decide (ch < channels rb ∧ i < count ∧ i < length o)
             then Some (get (default [] (buffers rb !! ch))
                            ((readPtr rb + i) `mod` size rb))
             else o !! i.
Proof.
  intros [Hsz Hch Hbufs Hrd Hav Hwr] Hout Hcount. unfold pop.
  rewrite (proj2 (Nat.ltb_ge _ _) Hcount).
  destruct (pop_frames_spec (size rb) (channels rb) (buffers rb) count 0
              (readPtr rb) outputBuffers)
    as (out' & -> & Hlen & Hlk); [done|done|lia|done|].
  simpl. exists out'. split; [done|]. split; [done|].
  intros ch o Ho. destruct (Hlk ch o Ho) as (o' & Ho' & Hi).
  exists o'. split; [done|]. intros i. rewrite Hi.
  rewrite Nat.sub_0_r.
  destruct (decide (ch < channels rb ∧ i < count ∧ i < length o)).
  - by rewrite decide_True by lia.
  - by rewrite decide_False by lia.
Qed.

Lemma pop_frames_ptr size channels bufs count start ptr out ptr' out' :
  0 < size → ptr < size →
  pop_frames size channels bufs (seq start count) ptr out = Some (ptr', out') →
  ptr' = (ptr + count) `mod` size.
Proof.
  intros Hsz. revert start ptr out.
  induction count as [|count IH]; intros start ptr out Hp; simpl.
  - intros [= <- _]. by rewrite Nat.add_0_r, Nat.mod_small.
  - destruct (read_channels _ _ _ _ _) as [o1|]; [|done]. simpl.
    intros Ep. apply IH in Ep; [|apply Nat.mod_upper_bound; lia].
    rewrite Ep, Nat.Div0.add_mod_idemp_l. f_equal. lia.
Qed.

Lemma pop_wf rb outputBuffers count b out rb' :
  wf rb → pop rb outputBuffers count = Some (b, out, rb') → wf rb'.
Proof.
  intros Hwf. unfold pop.
  destruct (available rb <? count) eqn:E.
  - by intros [= _ _ <-].
  - apply Nat.ltb_ge in E.
    destruct (pop_frames _ _ _ _ _ _) as [[ptr out']|] eqn:Ep; [|done].
    simpl. intros [= _ _ <-].
    assert (ptr = (readPtr rb + count) `mod` size rb) as ->.
    { destruct Hwf. by eapply pop_frames_ptr. }
    destruct Hwf as [Hsz Hch Hbufs Hrd Hav Hwr].
    constructor; simpl; try done.
    + apply Nat.mod_upper_bound. lia.
    + lia.
    + rewrite Hwr, Nat.Div0.add_mod_idemp_l. f_equal. lia.
Qed.

Lemma clear_wf rb : wf rb → wf (clear rb).
Proof.
  intros [Hsz Hch Hbufs Hrd Hav Hwr]. constructor; simpl; try done; try lia.
  by rewrite Nat.Div0.mod_0_l.
Qed.

Lemma new_wf size channels : 0 < size → wf (new size channels).
Proof.
  intros H. constructor; simpl; try done; try lia.
  - by rewrite length_replicate.
  - apply Forall_replicate. by rewrite length_replicate.
  - by rewrite Nat.Div0.mod_0_l.
Qed.

Lemma run_op_wf rb o rb' :
  wf rb → run_op rb o = Some rb' →
  wf rb' ∧ size rb' = size rb ∧ channels rb' = channels rb.
Proof.
  intros Hwf. destruct o as [floatArray inputChannels|out count|]; simpl.
  - destruct (decide (inputChannels = 0)) as [->|Hne].
    + unfold push, frame_count. simpl.
      destruct (length floatArray =? 0); simpl; [|done].
      by intros [= <-].
    + destruct (push_spec rb floatArray inputChannels Hwf)
        as (rb1 & -> & Hwf1 & Hs & Hc & _); [lia|].
      by intros [= <-].
  - destruct (pop rb out count) as [[[b out'] rb1]|] eqn:E; [|done].
    simpl. intros [= <-]. split; [by eapply pop_wf|].
    unfold pop in E. destruct (available rb <? count).
    + by injection E as _ _ <-.
    + destruct (pop_frames _ _ _ _ _ _) as [[ptr o']|]; [|done].
      simpl in E. by injection E as _ _ <-.
  - intros [= <-]. split; [by apply clear_wf|done].
Qed.








End RingBufferFacts.

Section RingBufferClaims.
Import RingBuffer Examples.

Lemma ring_three_wf : wf ring_three.
Proof.
  constructor; simpl; try lia; try done.
  repeat constructor.
Qed.




Example push_pop_three :
  (rb ← push_all (new 4 2) chunks_three; pop rb out_three 3) =
  Some (true, [[11; 21; 31]; [12; 22; 32]]%Z,
        mk 4 2 [[11; 21; 31; 0]; [12; 22; 32; 0]]%Z 3 3 0).
Proof. vm_compute. reflexivity. Qed.



Example push_overflow_keeps_latest :
  (rb ← push (new 4 2) [1; 2; 3; 4; 5; 6; 7; 8; 9; 10; 11; 12]%Z 2;
   Some (available rb, contents rb 0, contents rb 1)) =
  Some (4, [5; 7; 9; 11]%Z, [6; 8; 10; 12]%Z).
Proof. vm_compute. reflexivity. Qed.

(** C6.  [pop(outputBuffers, count)] with fewer than [count] frames stored
    returns [false] and leaves the output buffers and the ring buffer as
    they were; otherwise it returns [true], writes to
    [outputBuffers[ch][i]], for each channel and each [i < count], the
    sample at the read cursor plus [i] (wrapping), leaves every other
    output position alone, advances [readPtr] by [count] modulo [size] and
    lowers [available] by [count]. *)
Theorem C6_pop_contract
    (rb : RingBuffer.t) (outputBuffers : list (list sample)) (count : nat) :
  (available rb < count →
   pop rb outputBuffers count = Some (false, outputBuffers, rb)) ∧
  (wf rb → channels rb ≤ length outputBuffers → count ≤ available rb →
   ∃ out',
     pop rb outputBuffers count =
       Some (true, out',
             mk (size rb) (channels rb) (buffers rb) (writePtr rb)
                ((readPtr rb + count) `mod` size rb)
                (available rb - count)) ∧
     length out' = length outputBuffers ∧
     ∀ ch o, outputBuffers !! ch = Some o →
       ∃ o', out' !! ch = Some o' ∧
         ∀ i, o' !! i =
              if decide (ch < channels rb ∧ i < count ∧ i < length o)
              then Some (get (default [] (buffers rb !! ch))
                             ((readPtr rb + i) `mod` size rb))
              else o !! i).
Proof.
  split.
  - apply pop_short.
  - apply pop_spec.
Qed.

Lemma C6_witness :
  pop ring_three out_three 4 = Some (false, out_three, ring_three) ∧
  ∃ out',
    pop ring_three out_three 2 =
      Some (true, out',
            mk (size ring_three) (channels ring_three) (buffers ring_three)
               (writePtr ring_three)
               ((readPtr ring_three + 2) `mod` size ring_three)
               (available ring_three - 2)) ∧
    length out' = length out_three ∧
    ∀ ch o, out_three !! ch = Some o →
      ∃ o', out' !! ch = Some o' ∧
        ∀ i, o' !! i =
             if decide (ch < channels ring_three ∧ i < 2 ∧ i < length o)
             then Some (get (default [] (buffers ring_three !! ch))
                            ((readPtr ring_three + i) `mod` size ring_three))
             else o !! i.
Proof.
  split.
  - apply (proj1 (C6_pop_contract ring_three out_three 4)). simpl. lia.
  - apply (proj2 (C6_pop_contract ring_three out_three 2)).
    + apply ring_three_wf.
    + simpl. lia.
    + simpl. lia.
Defined.

Example pop_two_of_three :
  pop ring_three out_three 2 =
  Some (true, [[1; 3; 0]; [2; 4; 0]]%Z,
        mk 4 2 [[1; 3; 5; 0]; [2; 4; 6; 0]]%Z 3 2 1).
Proof. vm_compute. reflexivity. Qed.
End RingBufferClaims.

(** ** Gain recomputation and scheduling *)

Section EngineFacts.
Import AudioEngine.
Local Open Scope Q_scope.

Lemma Qlt_bool_true x y : Qlt_bool x y = true ↔ x < y.
Proof.
  unfold Qlt_bool. rewrite negb_true_iff.
  destruct (Qle_bool y x) eqn:E.
  - apply Qle_bool_iff in E. split; [done|]. intros H. lra.
  - split; [|done]. intros _.
    apply Qnot_le_lt. intros H. apply Qle_bool_iff in H. congruence.
Qed.

Lemma Qlt_bool_false x y : Qlt_bool x y = false ↔ y <= x.
Proof.
  destruct (Qlt_bool x y) eqn:E.
  - apply Qlt_bool_true in E. split; [done|]. intros H. lra.
  - split; [|done]. intros _.
    apply Qnot_lt_le. intros H. apply Qlt_bool_true in H. congruence.
Qed.

Lemma userBuffer_min directBuffer : 0.05 <= userBuffer directBuffer.
Proof. unfold userBuffer. apply Q.le_max_r. Qed.

Lemma userBuffer_default : userBuffer 0.1 == 0.1.
Proof. reflexivity. Qed.

(** *** processDirectAudio: underrun and overrun corrections *)

Lemma correctedCursor_underrun now ub next :
  0.05 <= ub → next < now →
  correctedCursor now ub next = now + ub + 0.05.
Proof.
  intros Hub Hlt. unfold correctedCursor, resetThreshold.
  rewrite (proj2 (Qlt_bool_true _ _) Hlt).
  rewrite (proj2 (Qlt_bool_false _ _)); [done|]. lra.
Qed.

Lemma correctedCursor_overrun now ub next :
  0.05 <= ub → now + resetThreshold ub < next →
  correctedCursor now ub next = now + ub.
Proof.
  intros Hub Hlt. unfold correctedCursor.
  rewrite (proj2 (Qlt_bool_false next now)).
  - by rewrite (proj2 (Qlt_bool_true _ _) Hlt).
  - unfold resetThreshold in Hlt. lra.
Qed.

Lemma correctedCursor_steady now ub next :
  now <= next → next <= now + resetThreshold ub →
  correctedCursor now ub next = next.
Proof.
  intros H1 H2. unfold correctedCursor.
  rewrite (proj2 (Qlt_bool_false next now)) by done.
  by rewrite (proj2 (Qlt_bool_false _ _)) by done.
Qed.

Lemma last_start_scheduleDirect directBuffer buf nodes :
  last_start (scheduleDirect directBuffer buf nodes) =
  Some (correctedCursor (currentTime nodes) (userBuffer directBuffer)
                        (nextAudioTime nodes)).
Proof. unfold last_start, scheduleDirect. simpl. by rewrite last_snoc. Qed.

(** In [processDirectAudio] an underrun restarts the strip at
    [now + userBuffer + 0.05], an overrun at [now + userBuffer]. *)
Lemma processDirectAudio_corrections directBuffer buf nodes :
  (underrun nodes →
   last_start (scheduleDirect directBuffer buf nodes) =
   Some (currentTime nodes + userBuffer directBuffer + 0.05)) ∧
  (currentTime nodes + resetThreshold (userBuffer directBuffer)
   < nextAudioTime nodes →
   last_start (scheduleDirect directBuffer buf nodes) =
   Some (currentTime nodes + userBuffer directBuffer)).
Proof.
  rewrite last_start_scheduleDirect. split; intros H; f_equal.
  - apply correctedCursor_underrun; [apply userBuffer_min|done].
  - apply correctedCursor_overrun; [apply userBuffer_min|done].
Qed.

Example processDirectAudio_underrun_default :
  correctedCursor 1 (userBuffer 0.1) 0 == 1 + 0.15.
Proof. reflexivity. Qed.

Example processDirectAudio_overrun_default :
  correctedCursor 1 (userBuffer 0.1) (1 + 1.0) == 1 + 0.1.
Proof. reflexivity. Qed.
End EngineFacts.

Section SchedulerFacts.
Import AudioEngine.
Local Open Scope Q_scope.

Lemma chunk_duration tempBuffers :
  0 < duration (mkBuffer CHUNK_SIZE 48000 tempBuffers).
Proof. reflexivity. Qed.



(** The cursor a strip is started at, and its state after the step. *)
Lemma scheduleStrip_start ub tmp db nodes :
  last_start (scheduleStrip ub tmp db nodes).2 =
  Some (if Qlt_bool (nextAudioTime nodes) (currentTime nodes)
        then currentTime nodes + ub else nextAudioTime nodes).
Proof. unfold last_start, scheduleStrip. simpl. by rewrite last_snoc. Qed.










(** *** The exact change of [directBuffer] *)


Lemma behind_count_cons id nodes rest :
  behind_count ((id, nodes) :: rest) =
  if Qlt_bool (nextAudioTime nodes) (currentTime nodes)
  then S (behind_count rest) else behind_count rest.
Proof.
  unfold behind_count. rewrite filter_cons. cbn [snd].
  destruct (Qlt_bool (nextAudioTime nodes) (currentTime nodes)) eqn:E.
  - by rewrite decide_True by done.
  - by rewrite decide_False by done.
Qed.

Lemma behind_count_caught_up strips :
  Forall (λ p, ¬ underrun p.2) strips → behind_count strips = 0%nat.
Proof.
  induction 1 as [|[id nodes] rest Hh _ IH]; [done|].
  rewrite behind_count_cons. cbn [snd] in Hh. unfold underrun in Hh.
  destruct (Qlt_bool (nextAudioTime nodes) (currentTime nodes)) eqn:E;
    [|done].
  apply Qlt_bool_true in E. done.
Qed.



End SchedulerFacts.

Section EngineClaims.
Import AudioEngine Examples MoreExamples.
Local Open Scope Q_scope.

Lemma ring_one_chunk_wf : RingBuffer.wf ring_one_chunk.
Proof.
  constructor; simpl; try lia; try done.
  repeat constructor.
Qed.

(** In [scheduleAudio] an underrun restarts a strip at
    [now + userBufferSec], and a cursor ahead of the clock is used as it
    is, however far ahead. *)
Lemma scheduleStrip_cursor ub tmp db nodes :
  (underrun nodes →
   last_start (scheduleStrip ub tmp db nodes).2 = Some (currentTime nodes + ub)) ∧
  (currentTime nodes <= nextAudioTime nodes →
   last_start (scheduleStrip ub tmp db nodes).2 = Some (nextAudioTime nodes)).
Proof.
  rewrite scheduleStrip_start. split; intros H.
  - by rewrite (proj2 (Qlt_bool_true _ _) H).
  - by rewrite (proj2 (Qlt_bool_false _ _) H).
Qed.

(** C1.  [scheduleAudio] on a running engine with one chunk buffered, a
    strip whose cursor (0) is behind its clock (1 s) and
    [directBuffer = 0.1]: the chunk is started at [1 + 0.1], not at
    [1 + 0.1 + 0.05]. *)
Theorem C1_scheduleAudio_underrun_omits_margin :
  ∃ s' e' nodes' t,
    scheduleAudio store_two_routed engine_underrun = Some (s', e') ∧
    strips e' = [(1%nat, nodes')] ∧
    last_start nodes' = Some t ∧
    t == 1 + 0.1 ∧ ¬ t == 1 + 0.1 + 0.05.
Proof.
  eexists _, _, _, _. split; [vm_compute; reflexivity|].
  split; [reflexivity|]. split; [reflexivity|].
  split; [reflexivity|]. intros H. discriminate H.
Qed.

(** C2.  [scheduleAudio] on a running engine with one chunk buffered, a
    strip whose cursor is one second ahead of its clock and
    [directBuffer = 0.1] (threshold [0.3 + 0.2] exceeded): the chunk is
    started at the uncorrected cursor [1 + 1.0], not at [1 + 0.1]. *)
Theorem C2_scheduleAudio_overrun_not_reset :
  ∃ s' e' nodes' t,
    scheduleAudio store_two_routed engine_overrun = Some (s', e') ∧
    strips e' = [(1%nat, nodes')] ∧
    last_start nodes' = Some t ∧
    1 + resetThreshold (userBuffer 0.1) < 1 + 1.0 ∧
    t == 1 + 1.0 ∧ ¬ t == 1 + 0.1.
Proof.
  eexists _, _, _, _. split; [vm_compute; reflexivity|].
  split; [reflexivity|]. split; [reflexivity|].
  split; [reflexivity|].
  split; [reflexivity|]. intros H. discriminate H.
Qed.

(** What [updateAllGains] computes.  On every strip the target of each
    hardware input tap whose Input is in the store is the Input's volume
    when the Output is in its routing list and 0 when it is not, and the
    direct tap's target is [directGain] times the route flag times the
    mute flag, hence 0 when the Output is not direct-routed or the direct
    input is muted. *)
Lemma updateAllGains_targets
    (s : Store.t) (e : AudioEngine.t) (k outputId : nat) (nodes : Strip) :
  strips e !! k = Some (outputId, nodes) →
  ∃ nodes',
    strips (updateAllGains s e) !! k = Some (outputId, nodes') ∧
    (∀ j inputId gainNode idx inputData,
       hwInputGains nodes !! j = Some (inputId, gainNode) →
       list_find (λ i, Store.Input.id i = inputId)
                 (Store.inputs (Store.data s)) = Some (idx, inputData) →
       ∃ g', hwInputGains nodes' !! j = Some (inputId, g') ∧
         target g' =
           Some (if bool_decide (outputId ∈ Store.Input.routing inputData)
                 then Store.Input.volume inputData else 0) ∧
         (outputId ∉ Store.Input.routing inputData → target g' = Some 0)) ∧
    target (directGain nodes') =
      Some (Store.directGain (Store.data s)
            * (if bool_decide (outputId ∈ Store.directRoutingSet s)
               then 1 else 0)
            * (if Store.directMuted (Store.data s) then 0 else 1)) ∧
    (outputId ∉ Store.directRoutingSet s ∨
     Store.directMuted (Store.data s) = true →
     ∃ t, target (directGain nodes') = Some t ∧ t == 0).
Proof.
  intros Hk.
  unfold updateAllGains. simpl. rewrite list_lookup_fmap, Hk. simpl.
  eexists. split; [done|]. simpl. split; [|split].
  - intros j inputId gainNode idx inputData Hj Hfind.
    rewrite list_lookup_fmap, Hj. simpl. rewrite Hfind.
    eexists. split; [done|]. split; [done|].
    intros Hout. unfold target. simpl.
    by rewrite bool_decide_eq_false_2.
  - done.
  - intros Hoff. eexists. split; [done|]. unfold dirTarget. cbn [fst].
    destruct Hoff as [Hout| ->].
    + rewrite bool_decide_eq_false_2 by done.
      destruct (Store.directMuted (Store.data s)); ring.
    + destruct (bool_decide (outputId ∈ Store.directRoutingSet s)); ring.
Qed.

(** C3.  Settings are loaded in which Input 1 is muted, at volume 1 and
    routed to Output 1.  After [updateAllGains] the tap of Input 1 on
    strip 1 targets 1, where [routed ? (muted ? 0 : volume) : 0] is 0: the
    Input's mute flag is never read.  On the same strip the direct tap
    does honour its mute flag: with the direct input muted in the same
    store its target is 0. *)
Theorem C3_updateAllGains_ignores_input_mute :
  ∃ s nodes' g inputData t,
    Persistence.load (Persistence.Parsed saved_muted_input) Store.new
      = Some s ∧
    Store.inputs (Store.data s) = [inputData] ∧
    Store.Input.isMuted inputData = true ∧
    strips (updateAllGains s engine_underrun) = [(1%nat, nodes')] ∧
    hwInputGains nodes' = [(1%nat, g)] ∧
    target g = Some t ∧
    t == Store.Input.volume inputData ∧
    spec_hw_target inputData 1 == 0 ∧
    ¬ t == spec_hw_target inputData 1 ∧
    ∃ muted nodes'' t',
      muted = Persistence.with_data
                (Store.mkData (Store.inputs (Store.data s))
                   (Store.directGain (Store.data s)) true
                   (Store.directRouting (Store.data s))
                   (Store.directBuffer (Store.data s))
                   (Store.outputs (Store.data s))) s ∧
      strips (updateAllGains muted engine_underrun) = [(1%nat, nodes'')] ∧
      target (directGain nodes'') = Some t' ∧ t' == 0.
Proof.
  eexists _, _, _, _, _. split; [vm_compute; reflexivity|].
  split; [reflexivity|]. split; [reflexivity|].
  split; [vm_compute; reflexivity|].
  split; [reflexivity|]. split; [reflexivity|].
  split; [reflexivity|]. split; [reflexivity|].
  split; [vm_compute; intros H; discriminate H|].
  eexists _, _, _. split; [reflexivity|].
  split; [vm_compute; reflexivity|].
  split; [reflexivity|]. reflexivity.
Qed.




Example scheduleAudio_underrun_directBuffer :
  (λ r, Store.directBuffer (Store.data r.1))
    <$> scheduleAudio store_two_routed engine_underrun
  = Some (0.1 + 0.001).
Proof. vm_compute. reflexivity. Qed.

Example scheduleAudio_two_underruns_directBuffer :
  (λ r, Store.directBuffer (Store.data r.1))
    <$> scheduleAudio store_two_routed engine_two_underrun
  = Some (0.1 + 0.001 + 0.001).
Proof. vm_compute. reflexivity. Qed.

Example scheduleAudio_steady_directBuffer :
  (λ r, Store.directBuffer (Store.data r.1))
    <$> scheduleAudio store_two_routed engine_overrun
  = Some 0.1.
Proof. vm_compute. reflexivity. Qed.
End EngineClaims.

(** ** Handshake decoder *)

Section DirectServerClaims.
Import DirectServer Examples.








Lemma handleHandshake_bad s buffer :
  8 ≤ length (accumulate (headerBuffer s) buffer) →
  take 4 (accumulate (headerBuffer s) buffer) ≠ magic →
  handleHandshake s buffer =
    (mk (isHeaderReceived s) [] (sampleRate s), [SocketDestroy]).
Proof.
  intros Hlen Hmagic. unfold handleHandshake. cbn zeta.
  rewrite (proj2 (Nat.leb_le _ _) Hlen).
  by rewrite decide_False by done.
Qed.



Example handshake_misaligned_audio :
  onData new chunk_misaligned =
  (mk true (header_48000 ++ replicate 1016 x00) 48000,
   [ReportStatus true (Some 48000%N); RangeError]).
Proof. vm_compute. reflexivity. Qed.

Example handshake_then_audio :
  onData new (header_48000 ++ [x01; x00; x00; x00; x02; x00; x00; x00; x03]) =
  (mk true [] 48000,
   [ReportStatus true (Some 48000%N);
    ProcessDirectAudio [1; 2]%Z 48000]).
Proof. vm_compute. reflexivity. Qed.

Example handshake_bad_magic :
  onData new header_bad = (mk false [] 44100, [SocketDestroy]).
Proof. vm_compute. reflexivity. Qed.

Example handshake_split_header :
  (let '(s1, fx1) := onData new (take 3 header_48000) in
   let '(s2, fx2) := onData s1 (drop 3 header_48000) in
   (fx1, s2, fx2)) =
  ([], mk true [] 48000, [ReportStatus true (Some 48000%N)]).
Proof. vm_compute. reflexivity. Qed.
End DirectServerClaims.

(** * Further properties *)

(** ** Routing store: toggles, removal, ordering *)

Section StoreExtraFacts.
Import Store.

Lemma elem_of_delete_ne {A} (l : list A) k x y :
  l !! k = Some x → y ≠ x → y ∈ l → y ∈ delete k l.
Proof.
  intros Hk Hne Hy.
  rewrite <- (take_drop_middle _ _ _ Hk) in Hy.
  rewrite delete_take_drop.
  apply elem_of_app in Hy as [Hy|Hy]; apply elem_of_app; [by left|].
  apply elem_of_cons in Hy as [->|Hy]; [done|by right].
Qed.

Lemma NoDup_delete_notin {A} (l : list A) k x :
  NoDup l → l !! k = Some x → x ∉ delete k l.
Proof.
  intros Hnd Hk.
  rewrite <- (take_drop_middle _ _ _ Hk) in Hnd.
  rewrite delete_take_drop.
  apply NoDup_app in Hnd as (_ & Hdisj & Hnd).
  apply NoDup_cons in Hnd as [Hnotin _].
  intros [Hin|Hin]%elem_of_app; [|done].
  apply (Hdisj _ Hin). left.
Qed.

(** The routing list of an input after one toggle. *)
Lemma toggle_in_routing outputId input :
  NoDup (Input.routing input) →
  NoDup (Input.routing (toggle_in outputId input)) ∧
  (outputId ∈ Input.routing (toggle_in outputId input) ↔
   outputId ∉ Input.routing input) ∧
  (∀ o, o ≠ outputId →
     o ∈ Input.routing (toggle_in outputId input) ↔ o ∈ Input.routing input) ∧
  (∀ o, o ∈ Input.routing (toggle_in outputId input) →
     o = outputId ∨ o ∈ Input.routing input).
Proof.
  intros Hnd. unfold toggle_in. simpl.
  destruct (list_find (λ r, r = outputId) (Input.routing input))
    as [[k r]|] eqn:E.
  - apply list_find_Some in E as (Hk & -> & _).
    split; [|split; [|split]].
    + eapply sublist_NoDup; [exact Hnd|apply sublist_delete].
    + split.
      * intros Hin. by apply NoDup_delete_notin in Hin.
      * intros Hout. destruct Hout. by eapply list_elem_of_lookup_2.
    + intros o Hne. split.
      * apply list_elem_of_delete_inv.
      * by apply (elem_of_delete_ne _ _ outputId).
    + intros o Ho. right. by eapply list_elem_of_delete_inv.
  - apply list_find_None in E. rewrite Forall_forall in E.
    assert (outputId ∉ Input.routing input) as Hout.
    { intros Hin. by apply (E _ Hin). }
    split; [|split; [|split]].
    + apply NoDup_app. split; [done|]. split; [|apply NoDup_singleton].
      intros x Hx ->%list_elem_of_singleton. done.
    + split; [done|]. intros _. apply elem_of_app. right. left.
    + intros o Hne. rewrite elem_of_app, list_elem_of_singleton. tauto.
    + intros o [Ho| ->%list_elem_of_singleton]%elem_of_app; auto.
Qed.

Lemma toggle_in_id outputId input :
  Input.id (toggle_in outputId input) = Input.id input.
Proof. done. Qed.

Lemma list_find_insert_same {A} (P : A → Prop) `{∀ x, Decision (P x)}
    (l : list A) idx x y :
  list_find P l = Some (idx, x) → P y →
  list_find P (<[idx := y]> l) = Some (idx, y).
Proof.
  intros (Hidx & Hx & Hbefore)%list_find_Some Hy.
  apply list_find_Some. split; [|split; [done|]].
  - apply list_lookup_insert_eq. by eapply lookup_lt_Some.
  - intros j z Hj Hlt. rewrite list_lookup_insert_ne in Hj by lia.
    by eapply Hbefore.
Qed.

Lemma input_ids_insert s idx input input' :
  inputs (data s) !! idx = Some input →
  Input.id input' = Input.id input →
  Input.id <$> <[idx := input']> (inputs (data s)) = input_ids s.
Proof.
  intros Hidx Hid. unfold input_ids.
  rewrite list_fmap_insert, Hid.
  apply list_insert_id. by rewrite list_lookup_fmap, Hidx.
Qed.

Lemma insert_by_sorted {A} (key : A → nat) x l :
  StronglySorted le (key <$> l) →
  StronglySorted le (key <$> insert_by key x l).
Proof.
  induction l as [|y l IH]; simpl; intros Hs.
  - repeat constructor.
  - apply StronglySorted_inv in Hs as [Hs Hall].
    destruct (key x <=? key y) eqn:E.
    + apply Nat.leb_le in E. simpl. constructor.
      * by constructor.
      * constructor; [done|].
        eapply Forall_impl; [exact Hall|]. simpl. intros; lia.
    + apply Nat.leb_gt in E. simpl. constructor; [by apply IH|].
      rewrite insert_by_perm. simpl. constructor; [lia|done].
Qed.

Lemma sort_by_sorted {A} (key : A → nat) (l : list A) :
  StronglySorted le (key <$> sort_by key l).
Proof.
  induction l as [|x l IH]; simpl; [constructor|].
  by apply insert_by_sorted.
Qed.

Lemma sorted_le_NoDup_lt (l : list nat) :
  StronglySorted le l → NoDup l → Sorted lt l.
Proof.
  intros Hs Hnd. apply StronglySorted_Sorted.
  induction Hs as [|x l Hs IH Hall]; [constructor|].
  apply NoDup_cons in Hnd as [Hx Hnd].
  constructor; [by apply IH|].
  apply Forall_forall. intros y Hy.
  rewrite Forall_forall in Hall. specialize (Hall y Hy).
  destruct (decide (x = y)) as [->|]; [done|lia].
Qed.

Lemma sorted_lt_NoDup (l : list nat) : Sorted lt l → NoDup l.
Proof.
  intros Hs. apply (Sorted_StronglySorted lt _) in Hs.
  induction Hs as [|x l Hs IH Hall]; [constructor|].
  apply NoDup_cons. split; [|done].
  intros Hx. rewrite Forall_forall in Hall. specialize (Hall x Hx). lia.
Qed.

Lemma sorted_lt_sublist (l k : list nat) :
  l `sublist_of` k → Sorted lt k → Sorted lt l.
Proof.
  intros Hsub Hs. apply StronglySorted_Sorted.
  apply (Sorted_StronglySorted lt _) in Hs.
  induction Hsub as [|x l k Hsub IH|x l k Hsub IH]; [constructor| |].
  - apply StronglySorted_inv in Hs as [Hs Hall].
    constructor; [by apply IH|].
    eapply Forall_forall. intros y Hy. rewrite Forall_forall in Hall.
    apply Hall. by eapply elem_of_sublist.
  - apply StronglySorted_inv in Hs as [Hs _]. by apply IH.
Qed.
End StoreExtraFacts.

Section StoreExtra.
Import Store Examples.

(** X1.  Toggling a direct route flips that route only: the toggled
    Output changes membership of the direct routing set, every other
    Output keeps its own, the inputs and outputs are untouched, and a
    second toggle gives back the store. *)
Theorem toggleRouting_direct_flips (s : Store.t) (outputId : nat) :
  isRouted None outputId (toggleRouting None outputId s)
    = negb (isRouted None outputId s) ∧
  (∀ o, o ≠ outputId →
     isRouted None o (toggleRouting None outputId s) = isRouted None o s) ∧
  data (toggleRouting None outputId s) = data s ∧
  toggleRouting None outputId (toggleRouting None outputId s) = s.
Proof.
  unfold toggleRouting, isRouted.
  destruct (decide (outputId ∈ directRoutingSet s)) as [Hin|Hout]; simpl.
  - split; [|split; [|split]].
    + rewrite (bool_decide_eq_true_2 _ Hin). simpl.
      apply bool_decide_eq_false_2.
      rewrite elem_of_difference, elem_of_singleton. tauto.
    + intros o Hne. apply bool_decide_ext.
      rewrite elem_of_difference, elem_of_singleton. tauto.
    + done.
    + rewrite decide_False
        by (rewrite elem_of_difference, elem_of_singleton; tauto).
      destruct s as [d h r ic oc]. unfold set_directRoutingSet. simpl in *.
      f_equal. apply set_eq. intros x.
      rewrite elem_of_union, elem_of_difference, elem_of_singleton.
      destruct (decide (x = outputId)) as [->|]; tauto.
  - split; [|split; [|split]].
    + rewrite (bool_decide_eq_false_2 _ Hout). simpl.
      apply bool_decide_eq_true_2.
      rewrite elem_of_union, elem_of_singleton. tauto.
    + intros o Hne. apply bool_decide_ext.
      rewrite elem_of_union, elem_of_singleton. tauto.
    + done.
    + rewrite decide_True
        by (rewrite elem_of_union, elem_of_singleton; tauto).
      destruct s as [d h r ic oc]. unfold set_directRoutingSet. simpl in *.
      f_equal. apply set_eq. intros x.
      rewrite elem_of_difference, elem_of_union, elem_of_singleton.
      split; [tauto|]. intros Hx. split; [tauto|]. by intros ->.
Qed.

(** X2.  Toggling a hardware route on an existing Input whose routing
    list has no duplicate flips that (Input, Output) pair only: the list
    stays duplicate-free, every other Output keeps its membership, every
    other Input, the input ids, the outputs and the direct routing set are
    unchanged. *)
Theorem toggleRouting_hardware_flips
    (s : Store.t) (inputId outputId idx : nat) (input : Input.t)
    (Hfind : list_find (λ i, Input.id i = inputId) (inputs (data s))
             = Some (idx, input))
    (Hnd : NoDup (Input.routing input)) :
  let s' := toggleRouting (Some inputId) outputId s in
  isRouted (Some inputId) outputId s'
    = negb (isRouted (Some inputId) outputId s) ∧
  (∀ o, o ≠ outputId →
     isRouted (Some inputId) o s' = isRouted (Some inputId) o s) ∧
  (∃ input', inputs (data s') !! idx = Some input' ∧
     NoDup (Input.routing input') ∧
     Input.volume input' = Input.volume input ∧
     Input.isMuted input' = Input.isMuted input ∧
     Input.deviceId input' = Input.deviceId input) ∧
  (∀ j, j ≠ idx → inputs (data s') !! j = inputs (data s) !! j) ∧
  input_ids s' = input_ids s ∧
  outputs (data s') = outputs (data s) ∧
  directRoutingSet s' = directRoutingSet s.
Proof.
  cbn zeta. unfold toggleRouting, isRouted. rewrite Hfind. simpl.
  pose proof (toggle_in_routing outputId input Hnd)
    as (Hnd' & Hflip & Hother & _).
  rewrite (list_find_insert_same _ _ _ _ (toggle_in outputId input) Hfind)
    by (by apply list_find_Some in Hfind as (_ & ? & _)).
  pose proof Hfind as (Hidx & Hid & _)%list_find_Some.
  split; [|split; [|split; [|split; [|split; [|done]]]]].
  - destruct (decide (outputId ∈ Input.routing input)) as [Hin|Hout].
    + rewrite (bool_decide_eq_true_2 _ Hin). simpl.
      apply bool_decide_eq_false_2. tauto.
    + rewrite (bool_decide_eq_false_2 _ Hout). simpl.
      apply bool_decide_eq_true_2. tauto.
  - intros o Hne. apply bool_decide_ext. by apply Hother.
  - exists (toggle_in outputId input). split; [|done].
    apply list_lookup_insert_eq. by eapply lookup_lt_Some.
  - intros j Hne. by apply list_lookup_insert_ne.
  - by apply (input_ids_insert s idx input).
Qed.

Lemma toggleRouting_hardware_witness :
  let s' := toggleRouting (Some 1) 2 store_two_routed in
  isRouted (Some 1) 2 s' = negb (isRouted (Some 1) 2 store_two_routed) ∧
  (∀ o, o ≠ 2 → isRouted (Some 1) o s' = isRouted (Some 1) o store_two_routed).
Proof.
  pose proof (toggleRouting_hardware_flips store_two_routed 1 2 0
                (Input.mk 1 "default" 1 false [1; 2])) as H.
  cbn zeta in H.
  destruct H as (H1 & H2 & _).
  - reflexivity.
  - apply NoDup_cons. split; [|apply NoDup_singleton].
    intros Hin%list_elem_of_singleton. discriminate Hin.
  - split; [exact H1|exact H2].
Defined.

(** X3.  Calls that name an id the store does not hold change nothing:
    [toggleRouting] and [isRouted] for an unknown Input, [removeInput] and
    [removeOutput] for an unknown id. *)
Theorem unknown_id_is_noop (s : Store.t) (id outputId : nat) :
  (id ∉ input_ids s →
   toggleRouting (Some id) outputId s = s ∧
   isRouted (Some id) outputId s = false ∧
   removeInput id s = s) ∧
  (id ∉ output_ids s → removeOutput id s = s).
Proof.
  split.
  - intros Hout.
    assert (list_find (λ i, Input.id i = id) (inputs (data s)) = None) as E.
    { apply list_find_None, Forall_forall. intros i Hi Hid.
      apply Hout. unfold input_ids. apply list_elem_of_fmap. by exists i. }
    unfold toggleRouting, isRouted, removeInput. by rewrite E.
  - intros Hout.
    assert (list_find (λ o, Output.id o = id) (outputs (data s)) = None) as E.
    { apply list_find_None, Forall_forall. intros o Ho Hid.
      apply Hout. unfold output_ids. apply list_elem_of_fmap. by exists o. }
    unfold removeOutput. by rewrite E.
Qed.

Lemma unknown_id_witness :
  toggleRouting (Some 7) 1 store_two_routed = store_two_routed ∧
  isRouted (Some 7) 1 store_two_routed = false ∧
  removeInput 7 store_two_routed = store_two_routed.
Proof.
  apply (proj1 (unknown_id_is_noop store_two_routed 7 1)).
  intros Hin%list_elem_of_singleton. discriminate Hin.
Defined.

Lemma removeInput_ids_sublist id s :
  input_ids (removeInput id s) `sublist_of` input_ids s ∧
  inputs (data (removeInput id s)) `sublist_of` inputs (data s).
Proof.
  unfold removeInput.
  destruct (list_find _ _) as [[idx o]|] eqn:E; [|done].
  unfold input_ids. simpl. split; [apply fmap_sublist|]; apply sublist_delete.
Qed.

(** X4.  With distinct Input ids, [removeInput(id)] of a live Input
    removes exactly that Input: the id is gone, every other id stays, the
    remaining inputs keep their order, and the outputs and the direct
    routing set are untouched; no route from the removed Input is reported
    afterwards. *)
Theorem removeInput_removes_one
    (s : Store.t) (id : nat)
    (Hnd : NoDup (input_ids s)) (Hin : id ∈ input_ids s) :
  (id ∉ input_ids (removeInput id s)) ∧
  (∀ r, r ≠ id → r ∈ input_ids s → r ∈ input_ids (removeInput id s)) ∧
  inputs (data (removeInput id s)) `sublist_of` inputs (data s) ∧
  length (inputs (data (removeInput id s))) + 1 = length (inputs (data s)) ∧
  outputs (data (removeInput id s)) = outputs (data s) ∧
  directRoutingSet (removeInput id s) = directRoutingSet s ∧
  (∀ o, isRouted (Some id) o (removeInput id s) = false).
Proof.
  assert (∃ idx i, list_find (λ i, Input.id i = id) (inputs (data s))
                   = Some (idx, i)) as (idx & i & Hfind).
  { apply list_elem_of_fmap in Hin as (i & -> & Hi).
    destruct (list_find (λ i', Input.id i' = Input.id i) (inputs (data s)))
      as [[idx i']|] eqn:E; [by eauto|].
    apply list_find_None in E. rewrite Forall_forall in E.
    by destruct (E i Hi). }
  pose proof Hfind as (Hidx & Hid & _)%list_find_Some.
  assert (id ∉ input_ids (removeInput id s)) as Hgone.
  { unfold removeInput. rewrite Hfind. unfold input_ids in *. simpl.
    rewrite list_fmap_delete.
    apply (NoDup_delete_notin _ idx); [done|].
    by rewrite list_lookup_fmap, Hidx, <- Hid. }
  split; [done|]. split; [|split; [|split; [|split; [|split]]]].
  - intros r Hne Hr. unfold removeInput. rewrite Hfind.
    unfold input_ids in *. simpl. rewrite list_fmap_delete.
    apply (elem_of_delete_ne _ _ id); [|done|done].
    by rewrite list_lookup_fmap, Hidx, <- Hid.
  - apply removeInput_ids_sublist.
  - unfold removeInput. rewrite Hfind. simpl.
    rewrite length_delete by eauto.
    apply lookup_lt_Some in Hidx. lia.
  - unfold removeInput. by rewrite Hfind.
  - unfold removeInput. by rewrite Hfind.
  - intros o. unfold isRouted.
    destruct (list_find _ (inputs (data (removeInput id s))))
      as [[k i']|] eqn:E; [|done].
    apply list_find_Some in E as (Hk & Hi' & _).
    destruct Hgone. unfold input_ids. apply list_elem_of_fmap.
    exists i'. split; [done|]. by eapply list_elem_of_lookup_2.
Qed.

Lemma removeInput_witness :
  (1 ∉ input_ids (removeInput 1 store_two_routed)) ∧
  (∀ r, r ≠ 1 → r ∈ input_ids store_two_routed →
        r ∈ input_ids (removeInput 1 store_two_routed)) ∧
  inputs (data (removeInput 1 store_two_routed))
    `sublist_of` inputs (data store_two_routed) ∧
  length (inputs (data (removeInput 1 store_two_routed))) + 1
    = length (inputs (data store_two_routed)) ∧
  outputs (data (removeInput 1 store_two_routed))
    = outputs (data store_two_routed) ∧
  directRoutingSet (removeInput 1 store_two_routed)
    = directRoutingSet store_two_routed ∧
  (∀ o, isRouted (Some 1) o (removeInput 1 store_two_routed) = false).
Proof.
  apply (removeInput_removes_one store_two_routed 1).
  - apply NoDup_singleton.
  - apply list_elem_of_singleton. reflexivity.
Defined.

(** X5.  Whatever the order of the lists before, [addOutput] and
    [addInput] leave the list in ascending id order, keep every entity that
    was there, and add one with the default settings: volume 1, unmuted,
    flat EQ and no device for an Output; volume 1, unmuted, device
    ["default"] and no route for an Input. *)
Theorem add_keeps_sorted_and_defaults (s : Store.t) :
  (∃ id s', addOutput s = Some (id, s') ∧
     Sorted le (output_ids s') ∧
     outputs (data s') ≡ₚ
       Output.mk id "" 1 false (mkEqValues 0 0 0) :: outputs (data s) ∧
     inputs (data s') = inputs (data s) ∧
     directRoutingSet s' = directRoutingSet s) ∧
  (∃ id s', addInput s = Some (id, s') ∧
     Sorted le (input_ids s') ∧
     inputs (data s') ≡ₚ
       Input.mk id "default" 1 false [] :: inputs (data s) ∧
     outputs (data s') = outputs (data s) ∧
     directRoutingSet s' = directRoutingSet s).
Proof.
  split.
  - unfold addOutput.
    destruct (getAvailableId_total (output_ids s)) as [id ->]. simpl.
    eexists _, _. split; [done|]. simpl.
    split; [apply StronglySorted_Sorted, sort_by_sorted|].
    split; [|done].
    by rewrite sort_by_perm, <- Permutation_cons_append.
  - unfold addInput.
    destruct (getAvailableId_total (input_ids s)) as [id ->]. simpl.
    eexists _, _. split; [done|]. simpl.
    split; [apply StronglySorted_Sorted, sort_by_sorted|].
    split; [|done].
    by rewrite sort_by_perm, <- Permutation_cons_append.
Qed.
End StoreExtra.

(** ** Routing store: the invariant of the operations *)

Section StoreInvariant.
Import Store StoreSteps Examples.

Lemma removeOutput_routes_live id s :
  routes_live s → routes_live (removeOutput id s).
Proof.
  intros [Hdir Hin]. unfold removeOutput.
  destruct (list_find _ _) as [[idx o]|] eqn:Hfind; [|done].
  assert (∀ r, r ≠ id → r ∈ output_ids s →
            r ∈ Output.id <$> delete idx (outputs (data s))) as Hkeep.
  { intros r Hne Hr.
    pose proof (removeOutput_keeps id s r Hne Hr) as H.
    unfold removeOutput in H. by rewrite Hfind in H. }
  split.
  - intros r Hr. simpl in Hr.
    apply elem_of_difference in Hr as [Hr Hne].
    rewrite elem_of_singleton in Hne.
    apply Hkeep; [done|]. by apply Hdir.
  - intros input r Hinput Hr. simpl in Hinput.
    apply list_elem_of_fmap in Hinput as (i0 & -> & Hi0).
    simpl in Hr. apply list_elem_of_filter in Hr as [Hne Hr].
    apply Hkeep; [done|]. by apply (Hin i0).
Qed.

Lemma inv_new : inv Store.new.
Proof.
  constructor.
  - constructor.
  - constructor.
  - split.
    + intros r Hr. by apply elem_of_empty in Hr.
    + intros input r Hinput. by apply elem_of_nil in Hinput.
  - constructor.
Qed.

Lemma output_ids_toggleRouting inputId outputId s :
  output_ids (toggleRouting inputId outputId s) = output_ids s.
Proof.
  unfold toggleRouting. destruct inputId as [iid|].
  - by destruct (list_find _ _) as [[idx input]|].
  - by destruct (decide _).
Qed.

Lemma step_inv s s' : inv s → step s s' → inv s'.
Proof.
  intros [Hsi Hso [Hdir Hin] Hnd] Hstep.
  destruct Hstep as [s id s' Hadd|s id s' Hadd|s id|s id|s inputId outputId Hlive].
  - (* addInput *)
    unfold addInput in Hadd.
    destruct (getAvailableId (input_ids s)) as [id'|] eqn:Hid; [|done].
    simpl in Hadd. injection Hadd as <- <-.
    apply getAvailableId_spec in Hid as (_ & Hfree & _).
    assert (∀ i, i ∈ sort_by Input.id
                       (inputs (data s) ++ [Input.mk id' "default" 1 false []]) →
                 i ∈ inputs (data s) ∨ i = Input.mk id' "default" 1 false [])
      as Hmem.
    { intros i. rewrite sort_by_perm, elem_of_app, list_elem_of_singleton.
      tauto. }
    constructor.
    + apply sorted_le_NoDup_lt; [apply sort_by_sorted|].
      unfold input_ids. simpl. rewrite sort_by_perm, fmap_app. simpl.
      rewrite <- Permutation_cons_append. apply NoDup_cons.
      split; [done|]. by apply sorted_lt_NoDup.
    + done.
    + split; [done|]. intros input r Hinput Hr. simpl in Hinput.
      apply Hmem in Hinput as [Hold| ->]; [by eapply Hin|].
      by apply elem_of_nil in Hr.
    + simpl. apply Forall_forall. intros i Hi.
      apply Hmem in Hi as [Hold| ->]; [|apply NoDup_nil_2].
      rewrite Forall_forall in Hnd. by apply Hnd.
  - (* addOutput *)
    unfold addOutput in Hadd.
    destruct (getAvailableId (output_ids s)) as [id'|] eqn:Hid; [|done].
    simpl in Hadd. injection Hadd as <- <-.
    apply getAvailableId_spec in Hid as (_ & Hfree & _).
    assert (output_ids (set_outputs
              (sort_by Output.id
                 (outputs (data s) ++
                  [Output.mk id' "" 1 false (mkEqValues 0 0 0)])) s)
            ≡ₚ id' :: output_ids s) as Hperm.
    { unfold output_ids. simpl. rewrite sort_by_perm, fmap_app. simpl.
      by rewrite <- Permutation_cons_append. }
    constructor.
    + done.
    + apply sorted_le_NoDup_lt; [apply sort_by_sorted|].
      rewrite Hperm. apply NoDup_cons.
      split; [done|]. by apply sorted_lt_NoDup.
    + split.
      * intros r Hr. rewrite Hperm. right. by apply Hdir.
      * intros input r Hinput Hr. rewrite Hperm. right. by eapply Hin.
    + done.
  - (* removeInput *)
    destruct (removeInput_ids_sublist id s) as [Hsub1 Hsub2].
    constructor.
    + by eapply sorted_lt_sublist.
    + unfold removeInput. by destruct (list_find _ _) as [[idx i]|].
    + split.
      * unfold removeInput. by destruct (list_find _ _) as [[idx i]|].
      * intros input r Hinput Hr.
        assert (output_ids (removeInput id s) = output_ids s) as ->.
        { unfold removeInput. by destruct (list_find _ _) as [[idx i]|]. }
        eapply Hin; [|done]. by eapply elem_of_sublist.
    + apply Forall_forall. intros i Hi. rewrite Forall_forall in Hnd.
      apply Hnd. by eapply elem_of_sublist.
  - (* removeOutput *)
    constructor.
    + assert (input_ids (removeOutput id s) = input_ids s) as ->; [|done].
      unfold removeOutput. destruct (list_find _ _) as [[idx o]|]; [|done].
      unfold input_ids. simpl. rewrite <- list_fmap_compose.
      by apply list_fmap_ext.
    + eapply sorted_lt_sublist; [apply removeOutput_ids_sublist|done].
    + by apply removeOutput_routes_live.
    + unfold removeOutput. destruct (list_find _ _) as [[idx o]|]; [|done].
      simpl. apply Forall_fmap. eapply Forall_impl; [exact Hnd|].
      intros i Hi. simpl. by apply NoDup_filter.
  - (* toggleRouting *)
    destruct inputId as [iid|]; unfold toggleRouting.
    + destruct (list_find _ _) as [[idx input]|] eqn:Hfind;
        [|by constructor].
      pose proof Hfind as (Hidx & Hid & _)%list_find_Some.
      assert (NoDup (Input.routing input)) as Hndi.
      { rewrite Forall_forall in Hnd. apply Hnd.
        by eapply list_elem_of_lookup_2. }
      pose proof (toggle_in_routing outputId input Hndi)
        as (Hnd' & _ & _ & Hsubset).
      constructor.
      * unfold input_ids. simpl.
        rewrite (input_ids_insert s idx input); done.
      * done.
      * split; [done|]. intros i r Hi Hr. simpl in Hi.
        apply list_elem_of_lookup in Hi as [j Hj].
        destruct (decide (j = idx)) as [->|Hne].
        -- rewrite list_lookup_insert_eq in Hj by (by eapply lookup_lt_Some).
           injection Hj as <-.
           apply Hsubset in Hr as [->|Hr]; [done|].
           eapply Hin; [|done]. by eapply list_elem_of_lookup_2.
        -- rewrite list_lookup_insert_ne in Hj by done.
           eapply Hin; [|done]. by eapply list_elem_of_lookup_2.
      * simpl. by apply Forall_insert.
    + destruct (decide _); constructor; try done.
      * split; [|done]. intros r Hr. simpl in Hr.
        apply elem_of_difference in Hr as [Hr _]. by apply Hdir.
      * split; [|done]. intros r Hr. simpl in Hr.
        apply elem_of_union in Hr as [Hr|Hr]; [by apply Hdir|].
        by apply elem_of_singleton in Hr as ->.
Qed.

(** X6.  From a store with ascending distinct ids, no dangling route and
    no route listed twice (the constructor's store is one), every run of
    [addInput], [addOutput], [removeInput], [removeOutput] and route toggles
    towards live Outputs ends in such a store. *)
Theorem store_steps_keep_invariant (s s' : Store.t)
    (Hinv : inv s) (Hrun : rtc step s s') :
  inv s'.
Proof.
  induction Hrun as [s|s s1 s' Hstep Hrun IH]; [done|].
  apply IH. by eapply step_inv.
Qed.

Lemma inv_store_two_routed : inv store_two_routed.
Proof.
  constructor.
  - repeat constructor.
  - repeat constructor.
  - split.
    + intros r Hr. simpl in Hr.
      apply elem_of_union in Hr as [Hr|Hr];
        apply elem_of_singleton in Hr as ->; apply list_elem_of_In;
        simpl; auto.
    + intros input r Hinput Hr. simpl in Hinput.
      apply list_elem_of_singleton in Hinput as ->. exact Hr.
  - repeat constructor; simpl.
    + intros Hin%list_elem_of_singleton. discriminate Hin.
    + intros Hin. by apply elem_of_nil in Hin.
Qed.

Lemma store_steps_witness :
  inv (toggleRouting None 1 (removeOutput 2 store_two_routed)).
Proof.
  apply (store_steps_keep_invariant store_two_routed).
  - exact inv_store_two_routed.
  - eapply rtc_l; [apply (step_removeOutput _ 2)|].
    apply rtc_once. apply step_toggleRouting.
    apply list_elem_of_singleton. reflexivity.
Defined.
End StoreInvariant.

(** ** Strip handlers of the UI *)

Section UIExtra.
Import Store StoreSteps Examples.

(** The routing loop of [addNewOutput] toggles every input once. *)
Lemma foldl_toggle_inputs id pre rest acc :
  inputs (data acc) = (toggle_in id <$> pre) ++ rest →
  NoDup (Input.id <$> (pre ++ rest)) →
  foldl (λ a inp, toggleRouting (Some (Input.id inp)) id a) acc rest =
  set_inputs (toggle_in id <$> (pre ++ rest)) acc.
Proof.
  revert pre acc. induction rest as [|i rest IH]; intros pre acc Hin Hnd.
  - simpl. rewrite app_nil_r in *. rewrite <- Hin.
    by destruct acc as [[]].
  - cbn [foldl].
    assert (list_find (λ x, Input.id x = Input.id i) (inputs (data acc))
            = Some (length pre, i)) as Hfind.
    { rewrite Hin. rewrite list_find_app_r.
      - simpl. rewrite decide_True by done. simpl.
        by rewrite length_fmap.
      - apply list_find_None, Forall_forall.
        intros x (x0 & -> & Hx0)%list_elem_of_fmap Hid. simpl in Hid.
        rewrite fmap_app in Hnd. apply NoDup_app in Hnd as (_ & Hdisj & _).
        apply (Hdisj (Input.id x0)).
        + apply list_elem_of_fmap. by exists x0.
        + simpl. rewrite Hid. left. }
    assert (toggleRouting (Some (Input.id i)) id acc =
            set_inputs (<[length pre := toggle_in id i]> (inputs (data acc)))
                       acc) as ->.
    { unfold toggleRouting. by rewrite Hfind. }
    rewrite (IH (pre ++ [i])).
    + by rewrite <- app_assoc.
    + simpl. rewrite Hin.
      replace (length pre) with (length (toggle_in id <$> pre) + 0)
        by (rewrite length_fmap; lia).
      rewrite insert_app_r. simpl.
      rewrite fmap_app. simpl. by rewrite <- app_assoc.
    + by rewrite <- app_assoc.
Qed.

Lemma isRouted_hardware_find inputId outputId s idx input :
  list_find (λ i, Input.id i = inputId) (inputs (data s)) = Some (idx, input) →
  isRouted (Some inputId) outputId s
  = bool_decide (outputId ∈ Input.routing input).
Proof. intros H. unfold isRouted. by rewrite H. Qed.

(** X7.  On a store that satisfies the invariant, [addNewOutput] allocates
    the smallest free Output id (positive, not in use, every smaller
    positive id in use), adds that Output and no other, and leaves the
    new Output routed from the direct input and from every hardware
    Input, changes no route towards another Output, and keeps the
    invariant. *)
Theorem addNewOutput_routes_everything (s : Store.t) (Hinv : inv s) :
  ∃ id s', UI.addNewOutput s = Some (id, s') ∧
    1 ≤ id ∧ (∀ k, 1 ≤ k < id → k ∈ output_ids s) ∧
    (id ∉ output_ids s) ∧ id ∈ output_ids s' ∧
    output_ids s' ≡ₚ id :: output_ids s ∧
    isRouted None id s' = true ∧
    (∀ inputId, inputId ∈ input_ids s → isRouted (Some inputId) id s' = true) ∧
    (∀ src o, o ≠ id → isRouted src o s' = isRouted src o s) ∧
    input_ids s' = input_ids s ∧
    inv s'.
Proof.
  destruct Hinv as [Hsi Hso [Hdir Hin] Hnd].
  destruct (addOutput_spec s) as (id & s1 & Hadd & Hpos & Hfree & Hmin
                                  & Hperm & Hinputs & Hdirset).
  assert (inv s1) as Hinv1.
  { eapply step_inv; [by constructor|by eapply step_addOutput]. }
  assert (NoDup (Input.id <$> inputs (data s1))) as Hnd1.
  { rewrite Hinputs. by apply sorted_lt_NoDup. }
  assert (id ∈ output_ids s1) as Hlive by (rewrite Hperm; left).
  pose proof (foldl_toggle_inputs id [] (inputs (data s1)) s1 eq_refl Hnd1)
    as Hfold.
  rewrite app_nil_l in Hfold.
  set (s2 := set_inputs (toggle_in id <$> inputs (data s1)) s1) in *.
  assert (inv s2) as Hinv2.
  { rewrite <- Hfold. clear -Hinv1 Hlive.
    generalize (inputs (data s1)) as l. revert Hinv1 Hlive.
    generalize s1 as acc.
    intros acc Hacc Hid l. revert acc Hacc Hid.
    induction l as [|i l IH]; intros acc Hacc Hid; cbn [foldl]; [done|].
    apply IH.
    - eapply step_inv; [exact Hacc|by apply step_toggleRouting].
    - by rewrite output_ids_toggleRouting. }
  assert (id ∉ directRoutingSet s2) as Hnodir.
  { unfold s2. simpl. rewrite Hdirset. intros H. by apply Hfree, Hdir. }
  assert (toggleRouting None id s2
          = set_directRoutingSet (directRoutingSet s ∪ {[id]}) s2) as Hs3.
  { unfold toggleRouting. rewrite decide_False by done.
    unfold s2 at 1. simpl. by rewrite Hdirset. }
  assert (inv (set_directRoutingSet (directRoutingSet s ∪ {[id]}) s2))
    as Hinv3.
  { rewrite <- Hs3. eapply step_inv; [exact Hinv2|].
    by apply step_toggleRouting. }
  assert (∀ i, i ∈ inputs (data s) → id ∉ Input.routing i) as Hnoroute.
  { intros i Hi Hr. apply Hfree. by eapply Hin. }
  assert (∀ iid, list_find (λ i1, Input.id i1 = iid)
                           (toggle_in id <$> inputs (data s))
                 = prod_map (λ n, n) (toggle_in id)
                     <$> list_find (λ i1, Input.id i1 = iid)
                                   (inputs (data s))) as Hfindmap.
  { intros iid. rewrite list_find_fmap. f_equal. }
  exists id, (set_directRoutingSet (directRoutingSet s ∪ {[id]}) s2).
  split.
  { unfold UI.addNewOutput. rewrite Hadd. cbn -[toggleRouting foldl].
    by rewrite Hfold, Hs3. }
  split; [done|]. split; [done|]. split; [done|]. split; [done|].
  split; [exact Hperm|].
  split; [|split; [|split; [|split; [|done]]]].
  - unfold isRouted. simpl. apply bool_decide_eq_true_2.
    rewrite elem_of_union, elem_of_singleton. tauto.
  - intros inputId Hid.
    apply list_elem_of_fmap in Hid as (i0 & -> & Hi0).
    destruct (list_find (λ i, Input.id i = Input.id i0) (inputs (data s)))
      as [[idx i]|] eqn:Hfind.
    2:{ apply list_find_None in Hfind. rewrite Forall_forall in Hfind.
        by destruct (Hfind i0 Hi0). }
    pose proof Hfind as (Hidx & Hid & _)%list_find_Some.
    unfold isRouted. simpl. rewrite Hinputs, Hfindmap, Hfind. simpl.
    apply bool_decide_eq_true_2.
    assert (NoDup (Input.routing i)) as Hndi.
    { rewrite Forall_forall in Hnd. apply Hnd.
      by eapply list_elem_of_lookup_2. }
    destruct (toggle_in_routing id i Hndi) as (_ & Hflip & _).
    apply Hflip, Hnoroute. by eapply list_elem_of_lookup_2.
  - intros src o Hne.
    destruct src as [iid|]; unfold isRouted; simpl.
    + rewrite Hinputs, Hfindmap.
      destruct (list_find _ (inputs (data s))) as [[idx i]|] eqn:Hfind;
        [|done].
      simpl. apply bool_decide_ext.
      assert (NoDup (Input.routing i)) as Hndi.
      { apply list_find_Some in Hfind as (Hidx & _).
        rewrite Forall_forall in Hnd. apply Hnd.
        by eapply list_elem_of_lookup_2. }
      destruct (toggle_in_routing id i Hndi) as (_ & _ & Hother & _).
      by apply Hother.
    + apply bool_decide_ext.
      rewrite elem_of_union, elem_of_singleton. split; [|tauto].
      intros [?|?]; [done|by subst].
  - unfold input_ids. simpl. rewrite Hinputs, <- list_fmap_compose.
    by apply list_fmap_ext.
Qed.

Lemma addNewOutput_witness :
  ∃ id s', UI.addNewOutput store_two_routed = Some (id, s') ∧
    1 ≤ id ∧ (∀ k, 1 ≤ k < id → k ∈ output_ids store_two_routed) ∧
    (id ∉ output_ids store_two_routed) ∧ id ∈ output_ids s' ∧
    output_ids s' ≡ₚ id :: output_ids store_two_routed ∧
    isRouted None id s' = true ∧
    (∀ inputId, inputId ∈ input_ids store_two_routed →
                isRouted (Some inputId) id s' = true) ∧
    (∀ src o, o ≠ id → isRouted src o s' = isRouted src o store_two_routed) ∧
    input_ids s' = input_ids store_two_routed ∧
    inv s'.
Proof.
  apply (addNewOutput_routes_everything store_two_routed).
  exact inv_store_two_routed.
Defined.

(** X8.  [removeOutput] of the UI does nothing when the dialog is
    declined.  When confirmed, the engine has no strip for the id any
    more and keeps every other strip, its ring buffer and its running
    state; strips still belong to live Outputs and routes still point at
    live Outputs if they did before. *)
Theorem ui_removeOutput_consistent
    (s : Store.t) (e : AudioEngine.t) (id : nat) :
  UI.removeOutput false id s e = (s, e) ∧
  (id ∉ fst <$> AudioEngine.strips (UI.removeOutput true id s e).2) ∧
  (∀ k nodes, k ≠ id → (k, nodes) ∈ AudioEngine.strips e →
     (k, nodes) ∈ AudioEngine.strips (UI.removeOutput true id s e).2) ∧
  AudioEngine.strips (UI.removeOutput true id s e).2
    `sublist_of` AudioEngine.strips e ∧
  AudioEngine.ringBuffer (UI.removeOutput true id s e).2
    = AudioEngine.ringBuffer e ∧
  AudioEngine.isRunning (UI.removeOutput true id s e).2
    = AudioEngine.isRunning e ∧
  (UI.strips_live s e →
   UI.strips_live (UI.removeOutput true id s e).1
                  (UI.removeOutput true id s e).2) ∧
  (routes_live s → routes_live (UI.removeOutput true id s e).1).
Proof.
  split; [done|]. simpl.
  split; [|split; [|split; [|split; [done|split; [done|split]]]]].
  - intros ((k & nodes) & Hk & Hin)%list_elem_of_fmap. simpl in Hk. subst k.
    apply list_elem_of_filter in Hin as [Hne _]. by simpl in Hne.
  - intros k nodes Hne Hin. by apply list_elem_of_filter.
  - apply sublist_filter.
  - intros Hlive k ((k' & nodes) & Hk & Hin)%list_elem_of_fmap.
    simpl in Hk. subst k'.
    apply list_elem_of_filter in Hin as [Hne Hin]. simpl in Hne.
    apply removeOutput_keeps; [done|].
    apply Hlive. apply list_elem_of_fmap. by exists (k, nodes).
  - apply removeOutput_routes_live.
Qed.

(** X9.  The global mute handler mutes every Output when at least one was
    unmuted and unmutes every Output otherwise, keeping ids, volumes,
    devices and EQ values.  Afterwards all Outputs carry the same flag; with
    at least one Output a second press gives the opposite flag; and two
    presses give back the outputs exactly when they all carried the same
    flag to begin with (individual mute states are not restored). *)
Theorem toggleGlobalMute_all_or_nothing (s : Store.t) :
  ((UI.toggleGlobalMute s).1 = true ↔
   ∃ o, o ∈ outputs (data s) ∧ Output.isMuted o = false) ∧
  outputs (data (UI.toggleGlobalMute s).2)
    = UI.set_muted (UI.toggleGlobalMute s).1 <$> outputs (data s) ∧
  Forall (λ o, Output.isMuted o = (UI.toggleGlobalMute s).1)
         (outputs (data (UI.toggleGlobalMute s).2)) ∧
  output_ids (UI.toggleGlobalMute s).2 = output_ids s ∧
  inputs (data (UI.toggleGlobalMute s).2) = inputs (data s) ∧
  (outputs (data s) ≠ [] →
   (UI.toggleGlobalMute (UI.toggleGlobalMute s).2).1
   = negb (UI.toggleGlobalMute s).1) ∧
  ((∃ b, Forall (λ o, Output.isMuted o = b) (outputs (data s))) ↔
   outputs (data (UI.toggleGlobalMute (UI.toggleGlobalMute s).2).2)
   = outputs (data s)).
Proof.
  assert (∀ l, existsb (λ o, negb (Output.isMuted o)) l = true ↔
               ∃ o, o ∈ l ∧ Output.isMuted o = false) as Hex.
  { intros l. rewrite existsb_exists. split.
    - intros (o & Ho & Hm). exists o. split; [by apply list_elem_of_In|].
      by destruct (Output.isMuted o).
    - intros (o & Ho & Hm). exists o. split; [by apply list_elem_of_In|].
      by rewrite Hm. }
  assert (∀ b l, l ≠ [] →
            existsb (λ o, negb (Output.isMuted o)) (UI.set_muted b <$> l)
            = negb b) as Hsecond.
  { intros b l Hl. destruct l as [|o l]; [done|]. simpl.
    destruct b; simpl; [|done].
    apply not_true_is_false. rewrite Hex.
    intros (o' & (o1 & -> & _)%list_elem_of_fmap & Hm). discriminate Hm. }
  unfold UI.toggleGlobalMute. simpl.
  set (m := existsb (λ o, negb (Output.isMuted o)) (outputs (data s))).
  split; [apply Hex|].
  split; [done|]. split; [|split; [|split; [done|split]]].
  - apply Forall_fmap, Forall_true. done.
  - unfold output_ids. simpl. rewrite <- list_fmap_compose.
    by apply list_fmap_ext.
  - apply Hsecond.
  - destruct (decide (outputs (data s) = [])) as [Hnil|Hne].
    { rewrite Hnil. simpl. split; [done|]. intros _. by exists true. }
    rewrite (Hsecond m _ Hne). rewrite <- list_fmap_compose. split.
    + intros [b Hb].
      assert (m = negb b) as ->.
      { unfold m. destruct b.
        - apply not_true_is_false. rewrite Hex. intros (o & Ho & Hm).
          rewrite Forall_forall in Hb. rewrite (Hb o Ho) in Hm.
          discriminate Hm.
        - destruct (outputs (data s)) as [|o l]; [done|].
          apply Forall_cons in Hb as [Ho _]. simpl. by rewrite Ho. }
      rewrite negb_involutive.
      rewrite <- (list_fmap_id (outputs (data s))) at 2.
      apply Forall_fmap_ext_1. eapply Forall_impl; [exact Hb|].
      intros [i d v mu q] Hmu. simpl in *. by subst.
    + intros Heq. exists (negb m). rewrite <- Heq.
      apply Forall_fmap, Forall_true. done.
Qed.
End UIExtra.

(** ** Saving and loading the settings *)

Section PersistenceExtra.
Import Store Examples MoreExamples.

Lemma restore_saved_output out :
  Persistence.restore_output
    (Persistence.mkSavedOutput (Output.id out) (Output.selectedDeviceId out)
       (Output.volume out) (Output.isMuted out)
       (Some (Output.eqValues out)) (Some (Output.eqValues out)))
  = out.
Proof. by destruct out. Qed.

Lemma dedup_first_spec l :
  NoDup (Persistence.dedup_first l) ∧
  ∀ x, x ∈ Persistence.dedup_first l ↔ x ∈ l.
Proof.
  induction l as [|y l [IHnd IHin]]; simpl.
  - split; [constructor|done].
  - split.
    + apply NoDup_cons. split; [|by apply NoDup_filter].
      rewrite list_elem_of_filter. tauto.
    + intros x. rewrite !elem_of_cons, list_elem_of_filter, IHin.
      destruct (decide (x = y)); tauto.
Qed.

(** X10.  Loading what [save] wrote restores the settings, whatever the
    store held before the load: the inputs with their routes, the outputs,
    the direct gain, mute flag and buffer length, and the direct routing
    set, so that every route query answers as before the save. *)
Theorem save_load_round_trip (s s0 : Store.t) :
  ∃ s', Persistence.load (Persistence.Parsed (Persistence.save s)) s0
        = Some s' ∧
    inputs (data s') = inputs (data s) ∧
    outputs (data s') = outputs (data s) ∧
    directGain (data s') = directGain (data s) ∧
    directMuted (data s') = directMuted (data s) ∧
    directBuffer (data s') = directBuffer (data s) ∧
    directRoutingSet s' = directRoutingSet s ∧
    (∀ src o, isRouted src o s' = isRouted src o s).
Proof.
  unfold Persistence.load, Persistence.load_inputs. simpl.
  eexists. split; [reflexivity|].
  assert (Persistence.restore_output <$>
            ((λ out,
                Persistence.mkSavedOutput (Output.id out)
                  (Output.selectedDeviceId out) (Output.volume out)
                  (Output.isMuted out) (Some (Output.eqValues out))
                  (Some (Output.eqValues out))) <$> outputs (data s))
          = outputs (data s)) as Hout.
  { rewrite <- list_fmap_compose.
    rewrite <- (list_fmap_id (outputs (data s))) at 2.
    apply list_fmap_ext. intros i x _. apply restore_saved_output. }
  assert (∀ a b : Store.t, inputs (data (if 0 <? length (inputs (data s))
                                          then a else b))
                           = if 0 <? length (inputs (data s))
                             then inputs (data a) else inputs (data b))
    as Hif by (intros; by destruct (0 <? _)).
  unfold Persistence.load_outputs, Persistence.load_direct. simpl.
  rewrite Hout.
  destruct (0 <? length (outputs (data s)));
    destruct (0 <? length (inputs (data s))); simpl;
    rewrite list_to_set_elements_L;
    (split; [done|]); (split; [done|]); (split; [done|]);
    (split; [done|]); (split; [done|]); (split; [done|]);
    intros [iid|] o; unfold isRouted; simpl; done.
Qed.

(** X11.  Loading settings of the single-input version (no [inputs], a
    [hardwareGain]) yields exactly one Input: id 1, unmuted, routed to the
    Outputs of the old hardware routing with repeats dropped, at the old
    gain, except that a gain of 0 becomes 1.  The Outputs are the saved
    ones, their EQ taken from [eq] when [eqValues] is missing. *)
Theorem load_migrates_single_input
    (saved : Persistence.Saved) (s : Store.t) (g : Q)
    (Hnone : Persistence.inputs saved = None)
    (Hgain : Persistence.hardwareGain saved = Some g) :
  ∃ s' input,
    Persistence.load (Persistence.Parsed saved) s = Some s' ∧
    inputs (data s') = [input] ∧
    Input.id input = 1 ∧ Input.isMuted input = false ∧
    NoDup (Input.routing input) ∧
    (∀ o, o ∈ Input.routing input ↔
          o ∈ default [] (Persistence.hardwareRouting saved)) ∧
    Input.volume input = (if Qeq_bool g 0 then 1%Q else g) ∧
    outputs (data s')
      = Persistence.restore_output <$> default [] (Persistence.outputs saved).
Proof.
  unfold Persistence.load, Persistence.load_inputs.
  rewrite Hnone, Hgain. simpl.
  eexists _, _. split; [reflexivity|].
  unfold Persistence.load_outputs.
  destruct (dedup_first_spec (default [] (Persistence.hardwareRouting saved)))
    as [Hnd Hmem].
  destruct (0 <? _); simpl; repeat split; try done; apply Hmem.
Qed.

Lemma load_migrates_witness :
  ∃ s' input,
    Persistence.load (Persistence.Parsed saved_legacy) Store.new = Some s' ∧
    inputs (data s') = [input] ∧
    Input.id input = 1 ∧ Input.isMuted input = false ∧
    NoDup (Input.routing input) ∧
    (∀ o, o ∈ Input.routing input ↔
          o ∈ default [] (Persistence.hardwareRouting saved_legacy)) ∧
    Input.volume input = (if Qeq_bool 0 0 then 1%Q else 0%Q) ∧
    outputs (data s')
      = Persistence.restore_output
          <$> default [] (Persistence.outputs saved_legacy).
Proof.
  apply (load_migrates_single_input saved_legacy Store.new 0%Q);
    reflexivity.
Defined.

Example load_legacy_example :
  (λ s, (inputs (data s), outputs (data s)))
    <$> Persistence.load (Persistence.Parsed saved_legacy) Store.new
  = Some ([Input.mk 1 "mic" 1 false [2; 1]],
          [Output.mk 1 "" 1 false (mkEqValues 1 2 3)]).
Proof. vm_compute. reflexivity. Qed.

Example load_first_run :
  (λ s, (input_ids s, output_ids s, isRouted (Some 1) 1 s, isRouted None 1 s))
    <$> Persistence.load Persistence.Missing Store.new
  = Some ([1], [1], true, true).
Proof. vm_compute. reflexivity. Qed.
End PersistenceExtra.

(** ** Ring buffer as a queue *)

Section RingBufferExtra.
Import RingBuffer Examples MoreExamples.

Lemma pop_contents rb outputBuffers count out' rb' ch :
  wf rb → count ≤ available rb →
  pop rb outputBuffers count = Some (true, out', rb') →
  contents rb' ch = drop count (contents rb ch).
Proof.
  intros Hwf Hcount Hpop. unfold pop in Hpop.
  rewrite (proj2 (Nat.ltb_ge _ _) Hcount) in Hpop.
  destruct (pop_frames _ _ _ _ _ _) as [[ptr o]|] eqn:Ep; [|done].
  simpl in Hpop. injection Hpop as _ <-.
  destruct Hwf as [Hsz Hch Hbufs Hrd Hav Hwr].
  apply pop_frames_ptr in Ep; [|done|done]. subst ptr.
  unfold contents. simpl.
  apply list_eq. intros j. rewrite lookup_drop, !list_lookup_fmap.
  destruct (decide (j < available rb - count)) as [Hj|Hj].
  - rewrite !lookup_seq_lt by lia. simpl. do 2 f_equal.
    rewrite Nat.Div0.add_mod_idemp_l. f_equal. lia.
  - by rewrite !lookup_seq_ge by lia.
Qed.

Lemma pop_false_inv rb outputBuffers count out' rb' :
  pop rb outputBuffers count = Some (false, out', rb') →
  available rb < count ∧ rb' = rb.
Proof.
  unfold pop. destruct (available rb <? count) eqn:E.
  - apply Nat.ltb_lt in E. by intros [= _ <-].
  - destruct (pop_frames _ _ _ _ _ _) as [[ptr o]|]; [|done]. done.
Qed.

Lemma pop_true_inv rb outputBuffers count out' rb' :
  pop rb outputBuffers count = Some (true, out', rb') →
  count ≤ available rb.
Proof.
  unfold pop. destruct (available rb <? count) eqn:E; [done|].
  apply Nat.ltb_ge in E. done.
Qed.

Lemma run_op_queue rb o rb' ch :
  wf rb → ch < channels rb → Queue.feeds ch o →
  run_op rb o = Some rb' →
  contents rb' ch = Queue.step (size rb) ch (contents rb ch) o.
Proof.
  intros Hwf Hch Hfeed.
  destruct o as [floatArray inputChannels|out count|]; simpl in *.
  - destruct (push_spec rb floatArray inputChannels Hwf)
      as (rb1 & -> & _ & _ & _ & _ & Hcont); [lia|].
    intros [= <-]. apply Hcont. lia.
  - destruct (pop rb out count) as [[[b out'] rb1]|] eqn:E; [|done].
    simpl. intros [= <-]. rewrite length_contents.
    destruct b.
    + pose proof (pop_true_inv _ _ _ _ _ E) as Hc.
      rewrite (proj2 (Nat.ltb_ge _ _) Hc).
      by eapply pop_contents.
    + destruct (pop_false_inv _ _ _ _ _ E) as [Hc ->].
      by rewrite (proj2 (Nat.ltb_lt _ _) Hc).
  - intros [= <-]. done.
Qed.

(** X12.  Along every run of [push], [pop] and [clear] on a well-formed
    ring buffer, the samples stored for a channel are those of a queue
    bounded by [size]: [push] appends the channel's samples and keeps the
    last [size], a successful [pop] drops the oldest [count], a failed
    one nothing, [clear] empties. *)
Theorem ring_buffer_is_bounded_queue
    (rb rb' : RingBuffer.t) (ops : list op) (ch : nat)
    (Hwf : wf rb) (Hch : ch < channels rb)
    (Hfeeds : Forall (Queue.feeds ch) ops)
    (Hrun : run_ops rb ops = Some rb') :
  contents rb' ch = Queue.run (size rb) ch (contents rb ch) ops.
Proof.
  revert rb Hwf Hch Hrun.
  induction Hfeeds as [|o ops Ho Hfeeds IH]; intros rb Hwf Hch Hrun.
  - simpl in Hrun. by injection Hrun as <-.
  - simpl in Hrun.
    destruct (run_op rb o) as [rb1|] eqn:E; [|done]. simpl in Hrun.
    destruct (run_op_wf _ _ _ Hwf E) as (Hwf1 & Hs1 & Hc1).
    rewrite (IH rb1 Hwf1) by (by rewrite ?Hc1).
    unfold Queue.run. simpl. rewrite Hs1.
    by rewrite (run_op_queue rb o rb1 ch).
Qed.

Lemma ring_buffer_queue_witness :
  contents ring_after_run 0 =
  Queue.run (size (new 4 2)) 0 (contents (new 4 2) 0) ring_run.
Proof.
  apply (ring_buffer_is_bounded_queue (new 4 2) ring_after_run).
  - apply new_wf. lia.
  - simpl. lia.
  - repeat constructor.
  - vm_compute. reflexivity.
Defined.

Example ring_buffer_queue_example :
  (λ rb, contents rb 0) <$> run_ops (new 4 2) ring_run = Some [5; 7]%Z.
Proof. vm_compute. reflexivity. Qed.

(** X13.  A successful [pop] hands out the oldest [count] stored samples of
    every channel, in order, at the front of the matching output array,
    leaves the rest of that array alone, and keeps the remaining samples;
    two pops in a row leave the ring buffer as one pop of the summed count
    does. *)
Theorem pop_takes_oldest
    (rb : RingBuffer.t) (outputBuffers : list (list sample)) (count : nat)
    (Hwf : wf rb) (Hout : channels rb ≤ length outputBuffers)
    (Hcount : count ≤ available rb) :
  ∃ out' rb',
    pop rb outputBuffers count = Some (true, out', rb') ∧
    (∀ ch, contents rb' ch = drop count (contents rb ch)) ∧
    (∀ ch o, ch < channels rb → outputBuffers !! ch = Some o →
       count ≤ length o →
       out' !! ch = Some (take count (contents rb ch) ++ drop count o)) ∧
    (∀ out2 count2, channels rb ≤ length out2 →
       count + count2 ≤ available rb →
       snd <$> pop rb' out2 count2
       = snd <$> pop rb outputBuffers (count + count2)).
Proof.
  destruct (pop_spec rb outputBuffers count Hwf Hout Hcount)
    as (out' & Hpop & Hlen & Hlk).
  eexists out', _. split; [exact Hpop|].
  split; [|split].
  - intros ch. by eapply pop_contents.
  - intros ch o Hch Ho Hlo.
    destruct (Hlk ch o Ho) as (o' & -> & Hi). f_equal.
    apply list_eq. intros i. rewrite Hi.
    destruct (decide (i < count)) as [Hic|Hic].
    + rewrite decide_True by lia.
      rewrite lookup_app_l
        by (rewrite length_take, length_contents; lia).
      rewrite lookup_take_lt by done.
      by rewrite contents_lookup by lia.
    + rewrite decide_False by lia.
      rewrite lookup_app_r
        by (rewrite length_take, length_contents; lia).
      rewrite length_take, length_contents, lookup_drop.
      f_equal. lia.
  - intros out2 count2 Hout2 Hsum.
    assert (wf (mk (size rb) (channels rb) (buffers rb) (writePtr rb)
                   ((readPtr rb + count) `mod` size rb)
                   (available rb - count))) as Hwf'.
    { eapply pop_wf; [exact Hwf|exact Hpop]. }
    destruct (pop_spec _ out2 count2 Hwf') as (o2 & -> & _);
      [done|simpl; lia|].
    destruct (pop_spec rb outputBuffers (count + count2) Hwf Hout Hsum)
      as (o3 & -> & _).
    simpl. do 2 f_equal.
    + rewrite Nat.Div0.add_mod_idemp_l. f_equal. lia.
    + lia.
Qed.

Lemma pop_takes_oldest_witness :
  ∃ out' rb',
    pop ring_three out_three 2 = Some (true, out', rb') ∧
    (∀ ch, contents rb' ch = drop 2 (contents ring_three ch)) ∧
    (∀ ch o, ch < channels ring_three → out_three !! ch = Some o →
       2 ≤ length o →
       out' !! ch = Some (take 2 (contents ring_three ch) ++ drop 2 o)) ∧
    (∀ out2 count2, channels ring_three ≤ length out2 →
       2 + count2 ≤ available ring_three →
       snd <$> pop rb' out2 count2
       = snd <$> pop ring_three out_three (2 + count2)).
Proof.
  apply (pop_takes_oldest ring_three out_three 2).
  - exact ring_three_wf.
  - simpl. lia.
  - simpl. lia.
Defined.

Lemma write_channels_other chs frame ptr bufs bufs' ch :
  write_channels chs frame ptr bufs = Some bufs' →
  ch ∉ chs → bufs' !! ch = bufs !! ch.
Proof.
  revert bufs. induction chs as [|c chs IH]; intros bufs; simpl.
  - by intros [= <-].
  - unfold store_at. destruct (bufs !! c) as [b|] eqn:Eb; [|done]. simpl.
    intros Hw Hnotin. apply not_elem_of_cons in Hnotin as [Hne Hnotin].
    rewrite (IH _ Hw Hnotin). by apply list_lookup_insert_ne.
Qed.

Lemma push_frame_unfed floatArray inputChannels rb i rb' ch :
  push_frame floatArray inputChannels rb i = Some rb' →
  channels rb `min` inputChannels ≤ ch →
  buffers rb' !! ch = buffers rb !! ch ∧
  channels rb' = channels rb ∧ size rb' = size rb.
Proof.
  unfold push_frame.
  destruct (write_channels _ _ _ _) as [bufs|] eqn:Ew; [|done]. simpl.
  intros [= <-] Hch.
  assert (bufs !! ch = buffers rb !! ch) as Hb.
  { eapply write_channels_other; [exact Ew|].
    rewrite elem_of_seq. lia. }
  by destruct (available rb <? size rb).
Qed.

Lemma push_frames_unfed floatArray inputChannels idxs rb rb' :
  push_frames floatArray inputChannels rb idxs = Some rb' →
  (∀ ch, channels rb `min` inputChannels ≤ ch →
         buffers rb' !! ch = buffers rb !! ch) ∧
  channels rb' = channels rb ∧ size rb' = size rb.
Proof.
  revert rb. induction idxs as [|i idxs IH]; intros rb Hpush;
    simpl in Hpush.
  - by injection Hpush as <-.
  - destruct (push_frame floatArray inputChannels rb i) as [rb1|] eqn:E;
      [|done].
    simpl in Hpush. destruct (IH rb1 Hpush) as (Hb & Hc & Hs).
    assert (channels rb1 = channels rb ∧ size rb1 = size rb) as [Hc1 Hs1].
    { unfold push_frame in E.
      destruct (write_channels _ _ _ _); [|done]. simpl in E.
      injection E as <-. by destruct (available rb <? size rb). }
    split; [|split; congruence].
    intros ch Hch. rewrite Hb by (rewrite Hc1; done).
    by apply (push_frame_unfed floatArray inputChannels rb i rb1 ch).
Qed.

Lemma push_frame_cursors floatArray inputChannels rb i rb' :
  wf rb → push_frame floatArray inputChannels rb i = Some rb' →
  writePtr rb' = (writePtr rb + 1) `mod` size rb ∧
  readPtr rb' = (readPtr rb + (available rb + 1 - size rb)) `mod` size rb.
Proof.
  intros [Hsz Hch Hbufs Hrd Hav Hwr]. unfold push_frame.
  destruct (write_channels _ _ _ _) as [bufs|]; [|done]. simpl.
  destruct (available rb <? size rb) eqn:E; intros [= <-]; simpl.
  - apply Nat.ltb_lt in E. split; [done|].
    replace (available rb + 1 - size rb) with 0 by lia.
    by rewrite Nat.add_0_r, Nat.mod_small.
  - apply Nat.ltb_ge in E. split; [done|].
    by replace (available rb + 1 - size rb) with 1 by lia.
Qed.

Lemma push_frames_cursors floatArray inputChannels idxs rb rb' :
  wf rb → push_frames floatArray inputChannels rb idxs = Some rb' →
  writePtr rb' = (writePtr rb + length idxs) `mod` size rb ∧
  readPtr rb' =
    (readPtr rb + (available rb + length idxs - size rb)) `mod` size rb.
Proof.
  revert rb. induction idxs as [|i idxs IH]; intros rb Hwf Hpush;
    simpl in Hpush.
  - injection Hpush as <-. destruct Hwf as [Hsz Hch Hbufs Hrd Hav Hwr].
    cbn [length].
    replace (available rb + 0 - size rb) with 0 by lia.
    rewrite !Nat.add_0_r. split.
    + symmetry. apply Nat.mod_small. rewrite Hwr.
      apply Nat.mod_upper_bound. lia.
    + symmetry. by apply Nat.mod_small.
  - destruct (push_frame_spec floatArray inputChannels rb i Hwf)
      as (rb1 & E & Hwf1 & Hs1 & _ & Ha1 & _).
    rewrite E in Hpush. simpl in Hpush.
    destruct (push_frame_cursors _ _ _ _ _ Hwf E) as [Hw1 Hr1].
    destruct (IH rb1 Hwf1 Hpush) as [Hw Hr].
    destruct Hwf as [Hsz Hch Hbufs Hrd Hav Hwr].
    rewrite Hw, Hr, Hw1, Hr1, Hs1, Ha1. cbn [length].
    rewrite !Nat.Div0.add_mod_idemp_l. split; f_equal; lia.
Qed.

(** X14.  [push] with a positive channel count on a well-formed ring
    buffer returns, and writes only the channels the input has: for an
    input with fewer channels than the ring buffer, the storage of every
    channel from [inputChannels] on is left exactly as it was, while the
    cursors advance for all channels: the write cursor by the number of
    frames pushed, the stored count by the same up to [size], and the
    read cursor by the number of frames overwritten. *)
Theorem push_leaves_missing_channels
    (rb : RingBuffer.t) (floatArray : list sample) (inputChannels : nat)
    (Hwf : wf rb) (Hpos : 0 < inputChannels) :
  let n := length (channel_of floatArray inputChannels 0) in
  ∃ rb',
    push rb floatArray inputChannels = Some rb' ∧
    (∀ ch, channels rb `min` inputChannels ≤ ch →
           buffers rb' !! ch = buffers rb !! ch) ∧
    channels rb' = channels rb ∧ size rb' = size rb ∧
    writePtr rb' = (writePtr rb + n) `mod` size rb ∧
    available rb' = (available rb + n) `min` size rb ∧
    readPtr rb' = (readPtr rb + (available rb + n - size rb)) `mod` size rb.
Proof.
  cbn zeta.
  destruct (push_spec rb floatArray inputChannels Hwf Hpos)
    as (rb' & Hpush & _ & _ & _ & Ha & _).
  exists rb'. split; [exact Hpush|].
  unfold push in Hpush. rewrite length_channel_of in *.
  destruct (frame_count (length floatArray) inputChannels) as [n|];
    [|done].
  cbn [mbind option_bind default] in *.
  destruct (push_frames_unfed _ _ _ _ _ Hpush) as (Hb & Hc & Hs).
  destruct (push_frames_cursors _ _ _ _ _ Hwf Hpush) as [Hw Hr].
  rewrite length_seq in Hw, Hr. done.
Qed.

Lemma push_missing_channels_witness :
  let n := length (channel_of [7; 8]%Z 1 0) in
  ∃ rb',
    push ring_three [7; 8]%Z 1 = Some rb' ∧
    (∀ ch, channels ring_three `min` 1 ≤ ch →
           buffers rb' !! ch = buffers ring_three !! ch) ∧
    channels rb' = channels ring_three ∧ size rb' = size ring_three ∧
    writePtr rb' = (writePtr ring_three + n) `mod` size ring_three ∧
    available rb' = (available ring_three + n) `min` size ring_three ∧
    readPtr rb' =
      (readPtr ring_three + (available ring_three + n - size ring_three))
        `mod` size ring_three.
Proof.
  apply (push_leaves_missing_channels ring_three [7; 8]%Z 1).
  - exact ring_three_wf.
  - lia.
Defined.

Example push_mono_after_three :
  push ring_three [7; 8]%Z 1 = Some ring_after_mono.
Proof. vm_compute. reflexivity. Qed.

Example push_mono_into_stereo :
  (λ rb, (available rb, contents rb 0, contents rb 1))
    <$> push (new 4 2) [7; 8]%Z 1
  = Some (2, [7; 8]%Z, [0; 0]%Z).
Proof. vm_compute. reflexivity. Qed.
End RingBufferExtra.

(** ** What scheduleAudio starts, and when *)

Section PlaybackExtra.
Import AudioEngine Playback Examples MoreExamples.
Local Open Scope Q_scope.

Lemma scheduleChunk_strips ub tmp strips db :
  (scheduleChunk ub tmp db strips).2 =
  (λ '(id, nodes), (id, (scheduleStrip ub tmp 0 nodes).2)) <$> strips.
Proof.
  revert db.
  induction strips as [|[id nodes] rest IH]; intros db; cbn [scheduleChunk].
  - done.
  - destruct (scheduleStrip ub tmp db nodes) as [db1 nodes'] eqn:E1.
    destruct (scheduleChunk ub tmp db1 rest) as [db2 rest'] eqn:E2.
    cbn [snd fmap list_fmap]. f_equal.
    + unfold scheduleStrip in E1. injection E1 as _ <-. done.
    + rewrite <- (IH db1), E2. done.
Qed.

(** One [pop] of a chunk from a stereo ring buffer into two zeroed
    arrays. *)
Lemma pop_chunk rb :
  RingBuffer.wf rb → RingBuffer.channels rb = 2%nat →
  (CHUNK_SIZE ≤ RingBuffer.available rb)%nat →
  ∃ rb',
    RingBuffer.pop rb
      [replicate CHUNK_SIZE RingBuffer.zero;
       replicate CHUNK_SIZE RingBuffer.zero] CHUNK_SIZE
    = Some (true,
            chunk (RingBuffer.contents rb 0) (RingBuffer.contents rb 1) 0,
            rb') ∧
    RingBuffer.wf rb' ∧ RingBuffer.channels rb' = 2%nat ∧
    RingBuffer.available rb' = (RingBuffer.available rb - CHUNK_SIZE)%nat ∧
    ∀ ch, RingBuffer.contents rb' ch
          = drop CHUNK_SIZE (RingBuffer.contents rb ch).
Proof.
  intros Hwf Hch Hav.
  destruct (pop_spec rb
              [replicate CHUNK_SIZE RingBuffer.zero;
               replicate CHUNK_SIZE RingBuffer.zero] CHUNK_SIZE Hwf)
    as (out' & Hpop & Hlen & Hlk); [cbn [length]; lia|done|].
  assert (∀ ch, (ch < 2)%nat →
            out' !! ch = Some (take CHUNK_SIZE (RingBuffer.contents rb ch)))
    as Hout.
  { intros ch Hlt.
    destruct (Hlk ch (replicate CHUNK_SIZE RingBuffer.zero))
      as (o' & -> & Hi).
    { destruct ch as [|[|ch]]; [done|done|lia]. }
    f_equal. apply list_eq. intros i. rewrite Hi, length_replicate.
    destruct (decide (i < CHUNK_SIZE)%nat) as [Hic|Hic].
    - rewrite decide_True by lia.
      rewrite lookup_take_lt by done.
      by rewrite contents_lookup by lia.
    - rewrite decide_False by lia.
      rewrite lookup_take_ge by lia.
      apply lookup_ge_None_2. rewrite length_replicate. lia. }
  assert (out' = chunk (RingBuffer.contents rb 0) (RingBuffer.contents rb 1) 0)
    as ->.
  { unfold chunk. rewrite Nat.mul_0_r, !drop_0.
    pose proof (Hout 0%nat ltac:(lia)) as H0.
    pose proof (Hout 1%nat ltac:(lia)) as H1.
    cbn [length] in Hlen.
    destruct out' as [|a [|b [|c out']]]; try discriminate Hlen.
    cbn in H0, H1. by injection H0 as ->; injection H1 as ->. }
  eexists. split; [exact Hpop|].
  split; [eapply pop_wf; [exact Hwf|exact Hpop]|].
  split; [done|]. split; [done|].
  intros ch. eapply pop_contents; [exact Hwf|exact Hav|exact Hpop].
Qed.

Lemma chunk_succ c0 c1 j :
  chunk c0 c1 (S j) = chunk (drop CHUNK_SIZE c0) (drop CHUNK_SIZE c1) j.
Proof.
  unfold chunk. rewrite !drop_drop.
  by replace (CHUNK_SIZE * S j)%nat with (CHUNK_SIZE + CHUNK_SIZE * j)%nat
    by lia.
Qed.

Lemma div_chunk_succ a :
  (CHUNK_SIZE ≤ a)%nat →
  (a `div` CHUNK_SIZE = S ((a - CHUNK_SIZE) `div` CHUNK_SIZE))%nat.
Proof.
  intros H.
  replace a with (a - CHUNK_SIZE + 1 * CHUNK_SIZE)%nat at 1 by lia.
  rewrite Nat.div_add by done. lia.
Qed.

Lemma mod_chunk_sub a :
  (CHUNK_SIZE ≤ a)%nat →
  ((a - CHUNK_SIZE) `mod` CHUNK_SIZE = a `mod` CHUNK_SIZE)%nat.
Proof.
  intros H.
  replace a with (a - CHUNK_SIZE + 1 * CHUNK_SIZE)%nat at 2 by lia.
  by rewrite Nat.Div0.mod_add.
Qed.

Lemma chunks_step rb rb' :
  (CHUNK_SIZE ≤ RingBuffer.available rb)%nat →
  RingBuffer.available rb' = (RingBuffer.available rb - CHUNK_SIZE)%nat →
  (∀ ch, RingBuffer.contents rb' ch
         = drop CHUNK_SIZE (RingBuffer.contents rb ch)) →
  chunks rb =
  chunk (RingBuffer.contents rb 0) (RingBuffer.contents rb 1) 0 :: chunks rb'.
Proof.
  intros Hav Hav' Hc. unfold chunks.
  rewrite (div_chunk_succ _ Hav), Hav', !Hc.
  cbn [seq fmap list_fmap]. f_equal.
  rewrite <- fmap_S_seq, <- list_fmap_compose.
  apply list_fmap_ext. intros _ j _. apply chunk_succ.
Qed.

(** The loop of [scheduleAudio] plays the whole chunks of the ring buffer,
    oldest first, on every strip, and leaves the rest stored. *)
Lemma schedule_loop_plays fuel ub s e :
  RingBuffer.wf (ringBuffer e) →
  RingBuffer.channels (ringBuffer e) = 2%nat →
  (RingBuffer.available (ringBuffer e) ≤ fuel)%nat →
  ∃ s' rb',
    schedule_loop fuel ub s e =
      Some (s', mk (isRunning e)
                   ((λ '(id, nodes),
                       (id, play ub (chunks (ringBuffer e)) nodes))
                      <$> strips e)
                   rb') ∧
    RingBuffer.available rb'
      = (RingBuffer.available (ringBuffer e) `mod` CHUNK_SIZE)%nat ∧
    ∀ ch, RingBuffer.contents rb' ch
          = drop (CHUNK_SIZE
                  * (RingBuffer.available (ringBuffer e) `div` CHUNK_SIZE))
                 (RingBuffer.contents (ringBuffer e) ch).
Proof.
  revert s e.
  assert (∀ (s : Store.t) (e : t),
    (RingBuffer.available (ringBuffer e) < CHUNK_SIZE)%nat →
    ∃ s' rb',
      Some (s, e) =
        Some (s', mk (isRunning e)
                     ((λ '(id, nodes),
                         (id, play ub (chunks (ringBuffer e)) nodes))
                        <$> strips e)
                     rb') ∧
      RingBuffer.available rb'
        = (RingBuffer.available (ringBuffer e) `mod` CHUNK_SIZE)%nat ∧
      ∀ ch, RingBuffer.contents rb' ch
            = drop (CHUNK_SIZE
                    * (RingBuffer.available (ringBuffer e) `div` CHUNK_SIZE))
                   (RingBuffer.contents (ringBuffer e) ch)) as Hexit.
  { intros s e Hlt. exists s, (ringBuffer e).
    unfold chunks. rewrite Nat.div_small, Nat.mod_small by done.
    cbn [seq fmap list_fmap]. rewrite Nat.mul_0_r.
    split; [|split; [done|by intros ch; rewrite drop_0]].
    destruct e as [run strips rb]. cbn [isRunning AudioEngine.strips ringBuffer].
    do 2 f_equal. f_equal.
    induction strips as [|[id nodes] l IH]; [done|].
    cbn [fmap list_fmap]. by rewrite <- IH. }
  induction fuel as [|fuel IH]; intros s e Hwf Hch Hfuel;
    cbn [schedule_loop].
  - destruct (CHUNK_SIZE <=? RingBuffer.available (ringBuffer e))%nat eqn:E.
    { apply Nat.leb_le in E. unfold CHUNK_SIZE in E. lia. }
    apply Nat.leb_gt in E. by apply Hexit.
  - destruct (CHUNK_SIZE <=? RingBuffer.available (ringBuffer e))%nat eqn:E.
    2:{ apply Nat.leb_gt in E. by apply Hexit. }
    apply Nat.leb_le in E.
    destruct (pop_chunk (ringBuffer e) Hwf Hch E)
      as (rb1 & Hpop & Hwf1 & Hch1 & Hav1 & Hc1).
    rewrite Hpop. cbn [mbind option_bind].
    pose proof (scheduleChunk_strips ub
                  (chunk (RingBuffer.contents (ringBuffer e) 0)
                         (RingBuffer.contents (ringBuffer e) 1) 0)
                  (strips e) (Store.directBuffer (Store.data s))) as Hs.
    destruct (scheduleChunk ub _ (Store.directBuffer (Store.data s))
                (strips e)) as [db1 strips1] eqn:Ec.
    cbn [snd] in Hs. subst strips1.
    match goal with
    | |- context [schedule_loop fuel ub ?s1 ?e1] =>
        destruct (IH s1 e1) as (s' & rb' & Hloop & Hav' & Hc')
    end.
    { done. }
    { done. }
    { cbn [ringBuffer]. unfold CHUNK_SIZE in *. lia. }
    cbn [ringBuffer isRunning strips] in Hloop, Hav', Hc'.
    exists s', rb'. split; [|split].
    + rewrite Hloop. do 2 f_equal. f_equal.
      rewrite <- list_fmap_compose. apply list_fmap_ext.
      intros _ [id nodes] _.
      by rewrite (chunks_step (ringBuffer e) rb1 E Hav1 Hc1).
    + by rewrite Hav', Hav1, mod_chunk_sub.
    + intros ch. rewrite Hc', Hc1, Hav1, drop_drop.
      f_equal. rewrite (div_chunk_succ _ E). lia.
Qed.

Lemma scheduleAudio_plays s e :
  isRunning e = true →
  RingBuffer.wf (ringBuffer e) →
  RingBuffer.channels (ringBuffer e) = 2%nat →
  ∃ s' rb',
    scheduleAudio s e =
      Some (s', mk true
                   ((λ '(id, nodes),
                       (id, play (userBuffer (Store.directBuffer (Store.data s)))
                                 (chunks (ringBuffer e)) nodes))
                      <$> strips e)
                   rb') ∧
    RingBuffer.available rb'
      = (RingBuffer.available (ringBuffer e) `mod` CHUNK_SIZE)%nat ∧
    ∀ ch, RingBuffer.contents rb' ch
          = drop (CHUNK_SIZE
                  * (RingBuffer.available (ringBuffer e) `div` CHUNK_SIZE))
                 (RingBuffer.contents (ringBuffer e) ch).
Proof.
  intros Hrun Hwf Hch. unfold scheduleAudio. rewrite Hrun. cbn [negb].
  destruct (schedule_loop_plays (RingBuffer.available (ringBuffer e))
              (userBuffer (Store.directBuffer (Store.data s))) s e Hwf Hch)
    as (s' & rb' & Hloop & Hrest); [done|].
  rewrite Hrun in Hloop. by exists s', rb'.
Qed.

Lemma chunk_duration_pos : 0 < chunk_duration.
Proof. reflexivity. Qed.

Lemma inject_succ j :
  inject_Z (Z.of_nat (S j)) == inject_Z (Z.of_nat j) + 1.
Proof. rewrite Nat2Z.inj_succ, <- Z.add_1_r, inject_Z_plus. reflexivity. Qed.

(** A strip that is not behind its clock: chunk [j] starts [j] chunk
    durations after the cursor. *)
Lemma play_caught_up ub bufs nodes :
  currentTime nodes <= nextAudioTime nodes →
  ∃ new,
    started (play ub bufs nodes) = started nodes ++ new ∧
    buffer <$> new = mkBuffer CHUNK_SIZE 48000 <$> bufs ∧
    (∀ j src, new !! j = Some src →
       when src == nextAudioTime nodes
                   + inject_Z (Z.of_nat j) * chunk_duration) ∧
    nextAudioTime (play ub bufs nodes)
      == nextAudioTime nodes
         + inject_Z (Z.of_nat (length bufs)) * chunk_duration ∧
    currentTime (play ub bufs nodes) = currentTime nodes ∧
    hwInputGains (play ub bufs nodes) = hwInputGains nodes ∧
    directGain (play ub bufs nodes) = directGain nodes ∧
    masterVol (play ub bufs nodes) = masterVol nodes.
Proof.
  revert nodes. induction bufs as [|tmp bufs IH]; intros nodes Hle.
  - exists []. cbn [play foldl length]. rewrite app_nil_r.
    split; [done|]. split; [done|]. split; [done|].
    split; [|done]. cbn. ring.
  - apply Qlt_bool_false in Hle.
    set (nodes1 := (scheduleStrip ub tmp 0 nodes).2).
    change (play ub (tmp :: bufs) nodes) with (play ub bufs nodes1).
    assert (started nodes1
            = started nodes
              ++ [mkSource (nextAudioTime nodes)
                           (mkBuffer CHUNK_SIZE 48000 tmp)]) as Hst.
    { unfold nodes1, scheduleStrip. cbn [snd started]. by rewrite Hle. }
    assert (nextAudioTime nodes1 = nextAudioTime nodes + chunk_duration)
      as Hnext.
    { unfold nodes1, scheduleStrip. cbn [snd nextAudioTime].
      by rewrite Hle. }
    assert (currentTime nodes1 = currentTime nodes) as Hnow by done.
    pose proof chunk_duration_pos as Hd.
    apply Qlt_bool_false in Hle.
    destruct (IH nodes1) as (new & Hnew & Hbuf & Hwhen & Hend & Hcur & Hhw & Hdir & Hmv).
    { rewrite Hnow, Hnext. lra. }
    exists (mkSource (nextAudioTime nodes) (mkBuffer CHUNK_SIZE 48000 tmp)
            :: new).
    split; [by rewrite Hnew, Hst, <- app_assoc|].
    split; [cbn [fmap list_fmap buffer]; by rewrite <- Hbuf|].
    split.
    { intros [|j] src.
      - intros [= <-]. cbn. ring.
      - cbn [lookup list_lookup]. intros Hj.
        rewrite (Hwhen j src Hj), Hnext, inject_succ. ring. }
    split.
    { rewrite Hend, Hnext. cbn [length]. rewrite inject_succ. ring. }
    by rewrite Hcur, Hhw, Hdir, Hmv.
Qed.

Lemma first_start_ge ub nodes :
  0 <= ub → currentTime nodes <= first_start ub nodes.
Proof.
  intros Hub. unfold first_start.
  destruct (Qlt_bool (nextAudioTime nodes) (currentTime nodes)) eqn:E.
  - lra.
  - by apply Qlt_bool_false in E.
Qed.

(** Any strip: the first chunk of a pass starts at [first_start], the
    following ones back to back after it. *)
Lemma play_spec ub bufs nodes :
  0 <= ub →
  ∃ new,
    started (play ub bufs nodes) = started nodes ++ new ∧
    buffer <$> new = mkBuffer CHUNK_SIZE 48000 <$> bufs ∧
    (∀ j src, new !! j = Some src →
       when src == first_start ub nodes
                   + inject_Z (Z.of_nat j) * chunk_duration) ∧
    (bufs ≠ [] →
     nextAudioTime (play ub bufs nodes)
       == first_start ub nodes
          + inject_Z (Z.of_nat (length bufs)) * chunk_duration) ∧
    (bufs = [] → play ub bufs nodes = nodes) ∧
    currentTime (play ub bufs nodes) = currentTime nodes ∧
    hwInputGains (play ub bufs nodes) = hwInputGains nodes ∧
    directGain (play ub bufs nodes) = directGain nodes ∧
    masterVol (play ub bufs nodes) = masterVol nodes.
Proof.
  intros Hub. destruct bufs as [|tmp bufs].
  - exists []. rewrite app_nil_r. by repeat split.
  - set (nodes1 := (scheduleStrip ub tmp 0 nodes).2).
    change (play ub (tmp :: bufs) nodes) with (play ub bufs nodes1).
    assert (started nodes1
            = started nodes
              ++ [mkSource (first_start ub nodes)
                           (mkBuffer CHUNK_SIZE 48000 tmp)]) as Hst by done.
    assert (nextAudioTime nodes1 = first_start ub nodes + chunk_duration)
      as Hnext by done.
    assert (currentTime nodes1 = currentTime nodes) as Hnow by done.
    pose proof chunk_duration_pos as Hd.
    pose proof (first_start_ge ub nodes Hub) as Hge.
    destruct (play_caught_up ub bufs nodes1)
      as (new & Hnew & Hbuf & Hwhen & Hend & Hcur & Hhw & Hdir & Hmv).
    { rewrite Hnow, Hnext. lra. }
    exists (mkSource (first_start ub nodes) (mkBuffer CHUNK_SIZE 48000 tmp)
            :: new).
    split; [by rewrite Hnew, Hst, <- app_assoc|].
    split; [cbn [fmap list_fmap buffer]; by rewrite <- Hbuf|].
    split.
    { intros [|j] src.
      - intros [= <-]. cbn. ring.
      - cbn [lookup list_lookup]. intros Hj.
        rewrite (Hwhen j src Hj), Hnext, inject_succ. ring. }
    split.
    { intros _. rewrite Hend, Hnext. cbn [length]. rewrite inject_succ.
      ring. }
    split; [done|]. by rewrite Hcur, Hhw, Hdir, Hmv.
Qed.

Lemma new_buffer_chunk (new : list Source) bufs j src :
  buffer <$> new = mkBuffer CHUNK_SIZE 48000 <$> bufs →
  new !! j = Some src →
  ∃ tmp, bufs !! j = Some tmp ∧ buffer src = mkBuffer CHUNK_SIZE 48000 tmp.
Proof.
  intros Hbuf Hj.
  assert ((buffer <$> new) !! j = Some (buffer src)) as H
    by (by rewrite list_lookup_fmap, Hj).
  rewrite Hbuf, list_lookup_fmap in H.
  destruct (bufs !! j) as [tmp|]; [|done].
  exists tmp. by injection H as <-.
Qed.

Lemma chunks_lookup rb j tmp :
  chunks rb !! j = Some tmp →
  tmp = [take CHUNK_SIZE (drop (CHUNK_SIZE * j) (RingBuffer.contents rb 0));
         take CHUNK_SIZE (drop (CHUNK_SIZE * j) (RingBuffer.contents rb 1))].
Proof.
  unfold chunks. rewrite list_lookup_fmap.
  destruct (seq 0 _ !! j) as [i|] eqn:E; [|done].
  apply lookup_seq in E as [-> _]. by intros [= <-].
Qed.

Lemma length_chunks rb :
  length (chunks rb) = (RingBuffer.available rb `div` CHUNK_SIZE)%nat.
Proof. unfold chunks. by rewrite length_fmap, length_seq. Qed.

(** X15.  One pass of [scheduleAudio] on a running engine with a stereo
    ring buffer returns; it takes every whole chunk of 1024 frames out of
    the ring buffer and leaves the remaining frames (fewer than 1024)
    stored in order; on every strip it starts exactly one new source per
    chunk, after the sources already started, and the [j]-th new source
    holds frames [1024 j .. 1024 j + 1023] of the stored left and right
    channels at 48 kHz: audio is played once, complete and in arrival
    order.  Gain nodes and clocks are not touched. *)
Theorem scheduleAudio_plays_stored_chunks
    (s : Store.t) (e : AudioEngine.t)
    (Hrun : isRunning e = true)
    (Hwf : RingBuffer.wf (ringBuffer e))
    (Hch : RingBuffer.channels (ringBuffer e) = 2%nat) :
  ∃ s' e',
    scheduleAudio s e = Some (s', e') ∧
    RingBuffer.available (ringBuffer e')
      = (RingBuffer.available (ringBuffer e) `mod` CHUNK_SIZE)%nat ∧
    (∀ ch, RingBuffer.contents (ringBuffer e') ch
           = drop (CHUNK_SIZE
                   * (RingBuffer.available (ringBuffer e) `div` CHUNK_SIZE))
                  (RingBuffer.contents (ringBuffer e) ch)) ∧
    length (strips e') = length (strips e) ∧
    ∀ k id nodes, strips e !! k = Some (id, nodes) →
      ∃ nodes' new,
        strips e' !! k = Some (id, nodes') ∧
        started nodes' = started nodes ++ new ∧
        length new
          = (RingBuffer.available (ringBuffer e) `div` CHUNK_SIZE)%nat ∧
        (∀ j src, new !! j = Some src →
           buffer src =
           mkBuffer CHUNK_SIZE 48000
             [take CHUNK_SIZE
                (drop (CHUNK_SIZE * j)
                      (RingBuffer.contents (ringBuffer e) 0));
              take CHUNK_SIZE
                (drop (CHUNK_SIZE * j)
                      (RingBuffer.contents (ringBuffer e) 1))]) ∧
        currentTime nodes' = currentTime nodes ∧
        hwInputGains nodes' = hwInputGains nodes ∧
        directGain nodes' = directGain nodes ∧
        masterVol nodes' = masterVol nodes.
Proof.
  destruct (scheduleAudio_plays s e Hrun Hwf Hch)
    as (s' & rb' & Hsched & Hav & Hc).
  eexists s', _. split; [exact Hsched|].
  cbn [ringBuffer strips].
  split; [exact Hav|]. split; [exact Hc|].
  split; [by rewrite length_fmap|].
  intros k id nodes Hk. rewrite list_lookup_fmap, Hk. cbn [fmap option_fmap option_map].
  pose proof (userBuffer_min (Store.directBuffer (Store.data s))) as Hub.
  destruct (play_spec (userBuffer (Store.directBuffer (Store.data s)))
              (chunks (ringBuffer e)) nodes)
    as (new & Hnew & Hbuf & _ & _ & _ & Hrest); [lra|].
  eexists _, new. split; [reflexivity|]. split; [exact Hnew|].
  split.
  { rewrite <- (length_chunks (ringBuffer e)).
    by rewrite <- (length_fmap buffer new), Hbuf, length_fmap. }
  split; [|exact Hrest].
  intros j src Hj.
  destruct (new_buffer_chunk new _ j src Hbuf Hj) as (tmp & Htmp & ->).
  by rewrite (chunks_lookup _ _ _ Htmp).
Qed.

Lemma scheduleAudio_plays_witness :
  ∃ s' e',
    scheduleAudio store_two_routed engine_underrun = Some (s', e') ∧
    RingBuffer.available (ringBuffer e')
      = (RingBuffer.available (ringBuffer engine_underrun)
         `mod` CHUNK_SIZE)%nat ∧
    (∀ ch, RingBuffer.contents (ringBuffer e') ch
           = drop (CHUNK_SIZE
                   * (RingBuffer.available (ringBuffer engine_underrun)
                      `div` CHUNK_SIZE))
                  (RingBuffer.contents (ringBuffer engine_underrun) ch)) ∧
    length (strips e') = length (strips engine_underrun) ∧
    ∀ k id nodes, strips engine_underrun !! k = Some (id, nodes) →
      ∃ nodes' new,
        strips e' !! k = Some (id, nodes') ∧
        started nodes' = started nodes ++ new ∧
        length new
          = (RingBuffer.available (ringBuffer engine_underrun)
             `div` CHUNK_SIZE)%nat ∧
        (∀ j src, new !! j = Some src →
           buffer src =
           mkBuffer CHUNK_SIZE 48000
             [take CHUNK_SIZE
                (drop (CHUNK_SIZE * j)
                      (RingBuffer.contents (ringBuffer engine_underrun) 0));
              take CHUNK_SIZE
                (drop (CHUNK_SIZE * j)
                      (RingBuffer.contents (ringBuffer engine_underrun) 1))]) ∧
        currentTime nodes' = currentTime nodes ∧
        hwInputGains nodes' = hwInputGains nodes ∧
        directGain nodes' = directGain nodes ∧
        masterVol nodes' = masterVol nodes.
Proof.
  apply (scheduleAudio_plays_stored_chunks store_two_routed engine_underrun).
  - reflexivity.
  - exact ring_one_chunk_wf.
  - reflexivity.
Defined.

(** X16.  Within one pass of [scheduleAudio] every strip's new sources
    are gapless and never in the past: the first starts at the strip's
    cursor, or at [currentTime + userBuffer] when the cursor is behind the
    clock; each following one starts exactly where the previous one ends;
    no source starts before the strip's [currentTime]; and the cursor is
    left at the end of the last source.  A pass that finds less than one
    chunk leaves the strip as it was. *)
Theorem scheduleAudio_starts_back_to_back
    (s : Store.t) (e : AudioEngine.t)
    (Hrun : isRunning e = true)
    (Hwf : RingBuffer.wf (ringBuffer e))
    (Hch : RingBuffer.channels (ringBuffer e) = 2%nat) :
  ∃ s' e',
    scheduleAudio s e = Some (s', e') ∧
    ∀ k id nodes, strips e !! k = Some (id, nodes) →
      ∃ nodes' new,
        strips e' !! k = Some (id, nodes') ∧
        started nodes' = started nodes ++ new ∧
        (∀ src, new !! 0%nat = Some src →
           when src ==
           (if Qlt_bool (nextAudioTime nodes) (currentTime nodes)
            then currentTime nodes
                 + userBuffer (Store.directBuffer (Store.data s))
            else nextAudioTime nodes)) ∧
        (∀ j a b, new !! j = Some a → new !! S j = Some b →
           when b == when a + duration (buffer a)) ∧
        (∀ j src, new !! j = Some src → currentTime nodes <= when src) ∧
        (∀ src, last new = Some src →
           nextAudioTime nodes' == when src + duration (buffer src)) ∧
        (new = [] → nodes' = nodes).
Proof.
  destruct (scheduleAudio_plays s e Hrun Hwf Hch)
    as (s' & rb' & Hsched & _ & _).
  eexists s', _. split; [exact Hsched|].
  cbn [strips].
  intros k id nodes Hk. rewrite list_lookup_fmap, Hk.
  cbn [fmap option_fmap option_map].
  pose proof (userBuffer_min (Store.directBuffer (Store.data s))) as Hub.
  set (ub := userBuffer (Store.directBuffer (Store.data s))) in *.
  destruct (play_spec ub (chunks (ringBuffer e)) nodes)
    as (new & Hnew & Hbuf & Hwhen & Hend & Hnone & _); [lra|].
  pose proof (first_start_ge ub nodes ltac:(lra)) as Hge.
  pose proof chunk_duration_pos as Hd.
  assert (∀ j src, new !! j = Some src →
            duration (buffer src) = chunk_duration) as Hdur.
  { intros j src Hj.
    by destruct (new_buffer_chunk new _ j src Hbuf Hj) as (tmp & _ & ->). }
  eexists _, new. split; [reflexivity|]. split; [exact Hnew|].
  split; [|split; [|split; [|split]]].
  - intros src H0. rewrite (Hwhen _ _ H0). fold (first_start ub nodes).
    cbn. ring.
  - intros j a b Ha Hb.
    rewrite (Hwhen _ _ Ha), (Hwhen _ _ Hb), (Hdur _ _ Ha), inject_succ.
    ring.
  - intros j src Hj. rewrite (Hwhen _ _ Hj).
    assert (0 <= inject_Z (Z.of_nat j) * chunk_duration).
    { apply Qmult_le_0_compat; [|lra].
      change 0 with (inject_Z 0). rewrite <- Zle_Qle. lia. }
    lra.
  - intros src Hlast.
    assert (chunks (ringBuffer e) ≠ []) as Hne.
    { intros Hnil. rewrite Hnil in Hbuf.
      apply fmap_nil_inv in Hbuf. by rewrite Hbuf in Hlast. }
    rewrite (Hend Hne).
    rewrite last_lookup in Hlast.
    rewrite (Hwhen _ _ Hlast), (Hdur _ _ Hlast).
    assert (length (chunks (ringBuffer e)) = length new) as Hlen.
    { by rewrite <- (length_fmap buffer new), Hbuf, length_fmap. }
    assert (length new ≠ 0%nat) as Hpos.
    { intros H0. apply nil_length_inv in H0. by rewrite H0 in Hlast. }
    rewrite Hlen.
    replace (length new) with (S (pred (length new))) at 1 by lia.
    rewrite inject_succ. ring.
  - intros ->. apply Hnone.
    by apply fmap_nil_inv with (f := mkBuffer CHUNK_SIZE 48000).
Qed.

Lemma scheduleAudio_back_to_back_witness :
  ∃ s' e',
    scheduleAudio store_two_routed engine_underrun = Some (s', e') ∧
    ∀ k id nodes, strips engine_underrun !! k = Some (id, nodes) →
      ∃ nodes' new,
        strips e' !! k = Some (id, nodes') ∧
        started nodes' = started nodes ++ new ∧
        (∀ src, new !! 0%nat = Some src →
           when src ==
           (if Qlt_bool (nextAudioTime nodes) (currentTime nodes)
            then currentTime nodes
                 + userBuffer
                     (Store.directBuffer (Store.data store_two_routed))
            else nextAudioTime nodes)) ∧
        (∀ j a b, new !! j = Some a → new !! S j = Some b →
           when b == when a + duration (buffer a)) ∧
        (∀ j src, new !! j = Some src → currentTime nodes <= when src) ∧
        (∀ src, last new = Some src →
           nextAudioTime nodes' == when src + duration (buffer src)) ∧
        (new = [] → nodes' = nodes).
Proof.
  apply (scheduleAudio_starts_back_to_back store_two_routed engine_underrun).
  - reflexivity.
  - exact ring_one_chunk_wf.
  - reflexivity.
Defined.
End PlaybackExtra.

(** ** Direct scheduling, de-interleaving and gain recomputation *)

Section EngineExtra.
Import AudioEngine Examples MoreExamples Sender.
Local Open Scope Q_scope.

(** *** Rounding: what the statements about doubles assume *)

Lemma rnd_proper (rnd : Q → Q) x y :
  (∀ x y, x <= y → rnd x <= rnd y) → x == y → rnd x == rnd y.
Proof.
  intros Hmono Hxy. apply Qle_antisym; apply Hmono; rewrite Hxy;
    apply Qle_refl.
Qed.

Lemma rnd_nonneg (rnd : Q → Q) x :
  (∀ x y, x <= y → rnd x <= rnd y) → rnd 0 == 0 → 0 <= x → 0 <= rnd x.
Proof.
  intros Hmono Hzero Hx. rewrite <- Hzero. by apply Hmono.
Qed.

(** A sum of a double and something not negative rounds to at least the
    double. *)
Lemma rnd_add_ge (rnd : Q → Q) a x :
  (∀ x y, x <= y → rnd x <= rnd y) → rnd a == a → 0 <= x →
  a <= rnd (a + x).
Proof.
  intros Hmono Ha Hx. rewrite <- Ha at 1. apply Hmono. lra.
Qed.

Lemma userBuffer_double (rnd : Q → Q) directBuffer :
  (∀ x y, x <= y → rnd x <= rnd y) → (∀ x, rnd (rnd x) == rnd x) →
  rnd 0 == 0 → rnd directBuffer == directBuffer →
  0 <= Doubles.userBuffer rnd directBuffer ∧
  rnd (Doubles.userBuffer rnd directBuffer)
  == Doubles.userBuffer rnd directBuffer.
Proof.
  intros Hmono Hidem Hzero Hdb. unfold Doubles.userBuffer.
  set (a := if Qeq_bool directBuffer 0 then rnd 0.1 else directBuffer).
  assert (rnd a == a) as Ha.
  { unfold a. destruct (Qeq_bool directBuffer 0); [apply Hidem|done]. }
  assert (0 <= rnd 0.05) as H5 by (apply rnd_nonneg; [done|done|lra]).
  split.
  - eapply Qle_trans; [exact H5|apply Q.le_max_r].
  - destruct (Q.max_spec a (rnd 0.05)) as [[_ Hm]|[_ Hm]].
    + rewrite (rnd_proper rnd _ _ Hmono Hm), Hm. apply Hidem.
    + by rewrite (rnd_proper rnd _ _ Hmono Hm), Hm.
Qed.

Lemma resetThreshold_ge (rnd : Q → Q) ub :
  (∀ x y, x <= y → rnd x <= rnd y) → rnd 0 == 0 →
  0 <= ub → rnd ub == ub →
  ub <= Doubles.resetThreshold rnd ub.
Proof.
  intros Hmono Hzero Hub Hd. unfold Doubles.resetThreshold.
  assert (0 <= rnd 0.2) as H2 by (apply rnd_nonneg; [done|done|lra]).
  assert (ub <= rnd (ub * 3)) as H3.
  { rewrite <- Hd at 1. apply Hmono. lra. }
  rewrite <- Hd at 1. apply Hmono. lra.
Qed.

Lemma correctedCursor_bounds (rnd : Q → Q) now ub next :
  (∀ x y, x <= y → rnd x <= rnd y) → rnd 0 == 0 →
  rnd now == now → 0 <= ub → rnd ub == ub →
  now <= Doubles.correctedCursor rnd now ub next ∧
  Doubles.correctedCursor rnd now ub next
  <= rnd (now + Doubles.resetThreshold rnd ub) ∧
  (now <= next → next <= rnd (now + Doubles.resetThreshold rnd ub) →
   Doubles.correctedCursor rnd now ub next = next).
Proof.
  intros Hmono Hzero Hnow Hub Hd.
  assert (0 <= rnd 0.05) as H5 by (apply rnd_nonneg; [done|done|lra]).
  pose proof (rnd_add_ge rnd now ub Hmono Hnow Hub) as Hstart.
  pose proof (resetThreshold_ge rnd ub Hmono Hzero Hub Hd) as Hthr.
  assert (rnd (now + ub) <= rnd (now + Doubles.resetThreshold rnd ub))
    as Hreset by (apply Hmono; lra).
  unfold Doubles.correctedCursor. cbn zeta.
  destruct (Qlt_bool next now) eqn:E1.
  - apply Qlt_bool_true in E1.
    assert (now <= rnd (rnd (now + ub) + rnd 0.05)) as Hlo.
    { rewrite <- Hnow at 1. apply Hmono. lra. }
    destruct (Qlt_bool (rnd (now + _)) _) eqn:E2.
    + split; [done|]. split; [done|]. intros H. lra.
    + apply Qlt_bool_false in E2. split; [done|]. split; [done|].
      intros H. lra.
  - apply Qlt_bool_false in E1.
    destruct (Qlt_bool (rnd (now + _)) _) eqn:E2.
    + apply Qlt_bool_true in E2. split; [done|]. split; [done|].
      intros _ H. lra.
    + apply Qlt_bool_false in E2. done.
Qed.

(** X17.  [processDirectAudio] (the version that schedules each array as
    it arrives), on doubles.  Rounding is taken to be monotone and to
    leave doubles alone; the strip's clock and the buffer setting are
    doubles.  On a running engine with at least one strip the call throws
    when the array has no whole frame or [createBuffer] does not accept
    the rate, and then nothing is changed.  Otherwise it starts exactly
    one source on the strip; the source never starts before the strip's
    clock and never after [currentTime + resetThreshold] as the code
    computes it, whatever the cursor was; the cursor is left at the end
    of the new source; a cursor already inside that window is used as it
    is, so consecutive arrays play back to back.  The source holds the
    de-interleaved array, and no gain node is touched. *)
Theorem processDirectAudio_start_bounded
    (rnd : Q → Q) (accepts : Q → bool)
    (s : Store.t) (e : AudioEngine.t)
    (floatArray : list RingBuffer.sample) (rate : Q)
    (k id : nat) (nodes : Strip)
    (Hmono : ∀ x y, x <= y → rnd x <= rnd y)
    (Hidem : ∀ x, rnd (rnd x) == rnd x)
    (Hzero : rnd 0 == 0)
    (Hnow : rnd (currentTime nodes) == currentTime nodes)
    (Hdb : rnd (Store.directBuffer (Store.data s))
           == Store.directBuffer (Store.data s))
    (Hrun : isRunning e = true)
    (Hk : strips e !! k = Some (id, nodes)) :
  let ub := Doubles.userBuffer rnd (Store.directBuffer (Store.data s)) in
  let frameCount := (length floatArray `div` 2)%nat in
  (frameCount = 0%nat ∨ accepts rate = false →
   Doubles.processDirectAudio rnd accepts s e floatArray rate = None) ∧
  ((0 < frameCount)%nat → accepts rate = true →
   ∃ e' src nodes',
     Doubles.processDirectAudio rnd accepts s e floatArray rate = Some e' ∧
     isRunning e' = isRunning e ∧ ringBuffer e' = ringBuffer e ∧
     length (strips e') = length (strips e) ∧
     strips e' !! k = Some (id, nodes') ∧
     started nodes' = started nodes ++ [src] ∧
     buffer src = mkBuffer frameCount rate (deinterleave floatArray) ∧
     currentTime nodes <= when src ∧
     when src <= rnd (currentTime nodes + Doubles.resetThreshold rnd ub) ∧
     nextAudioTime nodes'
     = rnd (when src + Doubles.duration rnd (buffer src)) ∧
     (currentTime nodes <= nextAudioTime nodes →
      nextAudioTime nodes
      <= rnd (currentTime nodes + Doubles.resetThreshold rnd ub) →
      when src = nextAudioTime nodes) ∧
     currentTime nodes' = currentTime nodes ∧
     hwInputGains nodes' = hwInputGains nodes ∧
     directGain nodes' = directGain nodes ∧
     masterVol nodes' = masterVol nodes).
Proof.
  cbn zeta. unfold Doubles.processDirectAudio. rewrite Hrun. cbn [negb].
  destruct (strips e) as [|p rest] eqn:Es; [done|].
  rewrite <- Es in Hk |- *.
  unfold Doubles.createBuffer_ok. split.
  - intros [H0| ->].
    + by rewrite H0.
    + by rewrite andb_false_r.
  - intros Hpos Hacc.
    rewrite (proj2 (Nat.ltb_lt _ _) Hpos), Hacc. cbn [andb].
    destruct (userBuffer_double rnd (Store.directBuffer (Store.data s))
                Hmono Hidem Hzero Hdb) as [Hub Hubd].
    destruct (correctedCursor_bounds rnd (currentTime nodes)
                (Doubles.userBuffer rnd (Store.directBuffer (Store.data s)))
                (nextAudioTime nodes) Hmono Hzero Hnow Hub Hubd)
      as (Hlo & Hhi & Hsteady).
    eexists _, (mkSource _ _), _. split; [reflexivity|].
    cbn [isRunning ringBuffer strips].
    split; [done|]. split; [done|]. split; [by rewrite length_fmap|].
    rewrite list_lookup_fmap, Hk. cbn [fmap option_fmap option_map].
    split; [reflexivity|]. unfold Doubles.scheduleDirect.
    cbn [started when buffer nextAudioTime currentTime hwInputGains
         directGain masterVol].
    split; [reflexivity|]. split; [reflexivity|].
    split; [exact Hlo|]. split; [exact Hhi|]. split; [reflexivity|].
    split; [exact Hsteady|]. done.
Qed.

(** Rounding to the nearest multiple of 1/1024 is such a rounding. *)
Lemma round_1024_mono x y : x <= y → round_1024 x <= round_1024 y.
Proof.
  intros H. unfold round_1024.
  apply Qmult_le_compat_r; [|done].
  rewrite <- Zle_Qle. apply Qfloor_resp_le. lra.
Qed.

Lemma round_1024_idemp x : round_1024 (round_1024 x) == round_1024 x.
Proof.
  unfold round_1024 at 1.
  set (n := Qfloor (x * 1024 + (1 # 2))).
  assert (round_1024 x == inject_Z n / 1024) as Hx by done.
  assert (Qfloor (round_1024 x * 1024 + (1 # 2)) = n) as ->; [|by symmetry].
  assert (round_1024 x * 1024 + (1 # 2) == inject_Z n + (1 # 2)) as ->.
  { rewrite Hx. field. }
  pose proof (Qfloor_le (inject_Z n + (1 # 2))) as Hle.
  pose proof (Qlt_floor (inject_Z n + (1 # 2))) as Hlt.
  set (m := Qfloor (inject_Z n + (1 # 2))) in *.
  assert (inject_Z m < inject_Z (n + 1)) as H1.
  { rewrite inject_Z_plus. eapply Qle_lt_trans; [exact Hle|].
    change (inject_Z 1) with 1. lra. }
  assert (inject_Z n < inject_Z (m + 1)) as H2.
  { eapply Qle_lt_trans; [|exact Hlt]. lra. }
  rewrite <- Zlt_Qlt in H1, H2. lia.
Qed.

Lemma processDirectAudio_start_witness :
  let ub := Doubles.userBuffer round_1024
              (Store.directBuffer
                 (Store.data (Store.set_directBuffer 0.125 store_two_routed))) in
  let frameCount := (length [1; 2; 3; 4]%Z `div` 2)%nat in
  (frameCount = 0%nat ∨ accepts_chromium 48000 = false →
   Doubles.processDirectAudio round_1024 accepts_chromium
     (Store.set_directBuffer 0.125 store_two_routed) engine_underrun
     [1; 2; 3; 4]%Z 48000 = None) ∧
  ((0 < frameCount)%nat → accepts_chromium 48000 = true →
   ∃ e' src nodes',
     Doubles.processDirectAudio round_1024 accepts_chromium
       (Store.set_directBuffer 0.125 store_two_routed) engine_underrun
       [1; 2; 3; 4]%Z 48000 = Some e' ∧
     isRunning e' = isRunning engine_underrun ∧
     ringBuffer e' = ringBuffer engine_underrun ∧
     length (strips e') = length (strips engine_underrun) ∧
     strips e' !! 0%nat = Some (1%nat, nodes') ∧
     started nodes' = started (strip_at 0) ++ [src] ∧
     buffer src = mkBuffer frameCount 48000 (deinterleave [1; 2; 3; 4]%Z) ∧
     currentTime (strip_at 0) <= when src ∧
     when src
     <= round_1024 (currentTime (strip_at 0)
                    + Doubles.resetThreshold round_1024 ub) ∧
     nextAudioTime nodes'
     = round_1024 (when src + Doubles.duration round_1024 (buffer src)) ∧
     (currentTime (strip_at 0) <= nextAudioTime (strip_at 0) →
      nextAudioTime (strip_at 0)
      <= round_1024 (currentTime (strip_at 0)
                     + Doubles.resetThreshold round_1024 ub) →
      when src = nextAudioTime (strip_at 0)) ∧
     currentTime nodes' = currentTime (strip_at 0) ∧
     hwInputGains nodes' = hwInputGains (strip_at 0) ∧
     directGain nodes' = directGain (strip_at 0) ∧
     masterVol nodes' = masterVol (strip_at 0)).
Proof.
  apply (processDirectAudio_start_bounded round_1024 accepts_chromium
           (Store.set_directBuffer 0.125 store_two_routed) engine_underrun
           [1; 2; 3; 4]%Z 48000 0 1 (strip_at 0)).
  - exact round_1024_mono.
  - exact round_1024_idemp.
  - reflexivity.
  - reflexivity.
  - vm_compute. reflexivity.
  - reflexivity.
  - reflexivity.
Defined.

(** At the bound the rounding decides.  With multiples of 1/1024 for
    doubles, a clock at 0 and a buffer setting of 1/16, the threshold as
    the code computes it is 397/1024, and a cursor there is kept; read
    exactly the threshold is 0.3875 and the cursor would be moved. *)
Example correctedCursor_at_the_bound :
  Doubles.correctedCursor round_1024 0
    (Doubles.userBuffer round_1024 0.0625) (397 # 1024) = 397 # 1024 ∧
  correctedCursor 0 (userBuffer 0.0625) (397 # 1024) == 0.0625.
Proof. split; reflexivity. Qed.

Example processDirectAudio_refuses_rate :
  Doubles.processDirectAudio round_1024 accepts_chromium
    store_two_routed engine_underrun [1; 2; 3; 4]%Z 1000 = None ∧
  Doubles.processDirectAudio round_1024 accepts_chromium
    store_two_routed engine_underrun [1]%Z 48000 = None.
Proof. split; reflexivity. Qed.







Lemma updateHwGain_twice s outputId now entry :
  updateHwGain s outputId now (updateHwGain s outputId now entry)
  = updateHwGain s outputId now entry.
Proof.
  destruct entry as [inputId g]. unfold updateHwGain at 2.
  destruct (list_find _ _) as [[i inputData]|] eqn:E.
  - unfold updateHwGain. rewrite E. done.
  - unfold updateHwGain. by rewrite E.
Qed.

Lemma updateStripGains_twice s outputId nodes :
  updateStripGains s outputId (updateStripGains s outputId nodes)
  = updateStripGains s outputId nodes.
Proof.
  unfold updateStripGains.
  cbn [currentTime hwInputGains directGain masterVol nextAudioTime started].
  f_equal. rewrite <- list_fmap_compose. apply list_fmap_ext.
  intros _ entry _. apply updateHwGain_twice.
Qed.

(** X19.  [updateAllGains] only retargets gains: running it twice is the
    same as running it once; it keeps the set and order of strips, the
    ring buffer, every strip's cursor, started sources, master volume and
    the taps' input ids; it never changes the current value of a gain
    (only its target); and a tap whose input id is no longer in the store
    is left exactly as it was. *)
Theorem updateAllGains_idempotent_frame (s : Store.t) (e : AudioEngine.t) :
  updateAllGains s (updateAllGains s e) = updateAllGains s e ∧
  isRunning (updateAllGains s e) = isRunning e ∧
  ringBuffer (updateAllGains s e) = ringBuffer e ∧
  fst <$> strips (updateAllGains s e) = fst <$> strips e ∧
  ∀ k id nodes, strips e !! k = Some (id, nodes) →
    ∃ nodes',
      strips (updateAllGains s e) !! k = Some (id, nodes') ∧
      nextAudioTime nodes' = nextAudioTime nodes ∧
      started nodes' = started nodes ∧
      masterVol nodes' = masterVol nodes ∧
      currentTime nodes' = currentTime nodes ∧
      value (directGain nodes') = value (directGain nodes) ∧
      length (hwInputGains nodes') = length (hwInputGains nodes) ∧
      ∀ j inputId g, hwInputGains nodes !! j = Some (inputId, g) →
        ∃ g',
          hwInputGains nodes' !! j = Some (inputId, g') ∧
          value g' = value g ∧
          (inputId ∉ Store.input_ids s → g' = g).
Proof.
  split; [|split; [done|split; [done|split]]].
  - unfold updateAllGains. cbn [isRunning strips ringBuffer]. f_equal.
    rewrite <- list_fmap_compose. apply list_fmap_ext.
    intros _ [id nodes] _. cbn. f_equal. apply updateStripGains_twice.
  - unfold updateAllGains. cbn [strips].
    rewrite <- list_fmap_compose. apply list_fmap_ext.
    by intros _ [id nodes] _.
  - intros k id nodes Hk. unfold updateAllGains. cbn [strips].
    rewrite list_lookup_fmap, Hk. cbn [fmap option_fmap option_map].
    eexists. split; [reflexivity|]. unfold updateStripGains.
    cbn [currentTime hwInputGains directGain masterVol nextAudioTime
         started].
    split; [done|]. split; [done|]. split; [done|]. split; [done|].
    split; [done|]. split; [by rewrite length_fmap|].
    intros j inputId g Hj. rewrite list_lookup_fmap, Hj.
    cbn [fmap option_fmap option_map]. unfold updateHwGain.
    destruct (list_find _ _) as [[i inputData]|] eqn:E.
    + eexists. split; [reflexivity|]. split; [done|].
      intros Hnotin. exfalso. apply Hnotin.
      apply list_find_Some in E as (Hi & Hid & _).
      unfold Store.input_ids. apply list_elem_of_fmap.
      exists inputData. split; [done|]. by eapply list_elem_of_lookup_2.
    + exists g. done.
Qed.
End EngineExtra.

(** ** The handshake and the audio stream, end to end *)

Section DirectServerExtra.
Import DirectServer Sender Examples.


Lemma length_header rate : length (header rate) = 8.
Proof. reflexivity. Qed.




Lemma handleAudioData_nil s : handleAudioData s [] = [].
Proof. reflexivity. Qed.

(** [handleAudioData] in one equation: the whole frames of the chunk, or
    nothing when there is not one. *)
Lemma handleAudioData_spec s buffer :
  handleAudioData s buffer =
  if decide (length buffer < 8) then []
  else [ProcessDirectAudio
          (float32_view (take (8 * (length buffer `div` 8)) buffer))
          (sampleRate s)].
Proof.
  unfold handleAudioData, handleAudioData_at. cbn zeta.
  change (0 `mod` 4 =? 0) with true. cbn iota.
  pose proof (Nat.div_mod_eq (length buffer) 8) as Hdm.
  pose proof (Nat.mod_upper_bound (length buffer) 8 ltac:(lia)) as Hm.
  destruct (length buffer `mod` 8 =? 0) eqn:E; cbn [negb].
  - apply Nat.eqb_eq in E.
    replace (8 * (length buffer `div` 8)) with (length buffer) by lia.
    rewrite firstn_all.
    destruct (decide (length buffer < 8)) as [Hlt|Hge].
    + assert (length buffer = 0) as H0.
      { rewrite Nat.mod_small in E by done. done. }
      by rewrite H0.
    + destruct (length buffer =? 0) eqn:E0; [|done].
      apply Nat.eqb_eq in E0. lia.
  - apply Nat.eqb_neq in E.
    rewrite (Nat.mul_comm (length buffer `div` 8) 8).
    rewrite length_take.
    destruct (decide (length buffer < 8)) as [Hlt|Hge].
    + rewrite (Nat.div_small (length buffer) 8) by done. done.
    + destruct (_ =? 0) eqn:E0; [|done].
      apply Nat.eqb_eq in E0.
      assert (1 ≤ length buffer `div` 8).
      { apply Nat.div_le_lower_bound; lia. }
      lia.
Qed.

Lemma length_float32_view n bytes :
  length bytes = 4 * n → length (float32_view bytes) = n.
Proof.
  revert bytes. induction n as [|n IH]; intros bytes Hlen.
  - by destruct bytes.
  - destruct bytes as [|b0 [|b1 [|b2 [|b3 rest]]]];
      cbn [length] in Hlen; try lia.
    cbn [float32_view length]. f_equal. apply IH. lia.
Qed.

Lemma float32_view_app n a b :
  length a = 4 * n →
  float32_view (a ++ b) = float32_view a ++ float32_view b.
Proof.
  revert a. induction n as [|n IH]; intros a Hlen.
  - by destruct a.
  - destruct a as [|b0 [|b1 [|b2 [|b3 rest]]]];
      cbn [length] in Hlen; try lia.
    cbn [app float32_view]. f_equal. apply IH. lia.
Qed.

Lemma decoded_handleAudioData s buffer :
  decoded (handleAudioData s buffer)
  = float32_view (take (8 * (length buffer `div` 8)) buffer).
Proof.
  rewrite handleAudioData_spec.
  destruct (decide (length buffer < 8)) as [Hlt|Hge].
  - rewrite (Nat.div_small (length buffer) 8) by done. done.
  - unfold decoded. cbn. by rewrite app_nil_r.
Qed.



(** X21.  The header may arrive in pieces: while fewer than 8 bytes have
    accumulated the server only stores them (no report, no audio, no
    destroy), and the next chunk is then handled exactly as if both had
    arrived as one chunk. *)
Theorem handshake_split_insensitive
    (s : DirectServer.t) (a b : list byte)
    (Hawait : isHeaderReceived s = false)
    (Hshort : length (headerBuffer s ++ a) < 8) :
  onData s a = (mk false (headerBuffer s ++ a) (sampleRate s), []) ∧
  onData (onData s a).1 b = onData s (a ++ b).
Proof.
  assert (onData s a = (mk false (headerBuffer s ++ a) (sampleRate s), []))
    as Ha.
  { unfold onData. rewrite Hawait. cbn [negb].
    unfold handleHandshake, accumulate. cbn zeta.
    rewrite (proj2 (Nat.ltb_ge 1024 _)) by lia.
    rewrite (proj2 (Nat.leb_gt 8 _)) by lia.
    by rewrite Hawait. }
  split; [exact Ha|]. rewrite Ha. cbn [fst].
  unfold onData. rewrite Hawait. cbn [isHeaderReceived negb].
  unfold handleHandshake.
  cbn [headerBuffer isHeaderReceived DirectServer.sampleRate].
  assert (accumulate (headerBuffer s ++ a) b
          = accumulate (headerBuffer s) (a ++ b)) as ->.
  { unfold accumulate. by rewrite app_assoc. }
  rewrite <- (app_assoc (headerBuffer s) a b).
  by rewrite Hawait.
Qed.

Lemma handshake_split_witness :
  onData new (take 3 header_48000)
  = (mk false (headerBuffer new ++ take 3 header_48000) (sampleRate new),
     []) ∧
  onData (onData new (take 3 header_48000)).1 (drop 3 header_48000)
  = onData new (take 3 header_48000 ++ drop 3 header_48000).
Proof.
  apply (handshake_split_insensitive new
           (take 3 header_48000) (drop 3 header_48000)).
  - reflexivity.
  - cbn. lia.
Defined.

(** X22.  The 1024-byte cap of the handshake buffer cuts from the front:
    when a correct header arrives in one chunk with more than 1016 bytes
    of audio behind it, the first [length audio - 1016] bytes of the chunk
    (the start of the header, or all of it) are cut off before the check,
    and unless the bytes that then come first happen to spell the magic
    the socket is destroyed and no audio is decoded. *)
Theorem handshake_oversized_first_chunk
    (s : DirectServer.t) (rate : N) (audio : list byte)
    (Hlong : 1016 < length audio)
    (Htail : take 4 (drop (length audio - 1016) (header rate ++ audio))
             ≠ magic) :
  onData (onConnection s).1 (header rate ++ audio)
  = (mk false [] (sampleRate s), [SocketDestroy]).
Proof.
  unfold onConnection, onData. cbn [fst isHeaderReceived negb].
  assert (accumulate [] (header rate ++ audio)
          = drop (length audio - 1016) (header rate ++ audio)) as Hacc.
  { unfold accumulate. cbn [app]. cbn zeta.
    rewrite (proj2 (Nat.ltb_lt 1024 _))
      by (rewrite length_app, length_header; lia).
    rewrite length_app, length_header. reflexivity. }
  rewrite handleHandshake_bad.
  - done.
  - cbn [headerBuffer].
    rewrite Hacc, length_drop, length_app, length_header. lia.
  - cbn [headerBuffer]. by rewrite Hacc.
Qed.

Lemma handshake_oversized_witness :
  onData (onConnection new).1 (header 48000 ++ replicate 1017 x00)
  = (mk false [] (sampleRate new), [SocketDestroy]).
Proof.
  apply (handshake_oversized_first_chunk new 48000 (replicate 1017 x00)).
  - rewrite length_replicate. lia.
  - rewrite length_replicate.
    change (1017 - 1016) with 1. discriminate.
Defined.

(** X23.  In the streaming state a chunk never changes the server state
    and never destroys the socket; it hands the engine exactly the whole
    8-byte frames at the front of the chunk, two samples per frame, in at
    most one call tagged with the negotiated rate, and silently drops up
    to 7 trailing bytes; a chunk shorter than one frame produces no call
    at all. *)
Theorem streaming_decodes_whole_frames
    (s : DirectServer.t) (buffer : list byte)
    (Hstream : isHeaderReceived s = true) :
  (onData s buffer).1 = s ∧
  (SocketDestroy ∉ (onData s buffer).2) ∧
  decoded (onData s buffer).2
    = float32_view (take (8 * (length buffer `div` 8)) buffer) ∧
  length (decoded (onData s buffer).2) = 2 * (length buffer `div` 8) ∧
  (length buffer < 8 → (onData s buffer).2 = []) ∧
  (8 ≤ length buffer →
   ∃ floatArray,
     (onData s buffer).2 = [ProcessDirectAudio floatArray (sampleRate s)]).
Proof.
  unfold onData. rewrite Hstream. cbn [negb fst snd].
  split; [done|]. split; [|split; [|split; [|split]]].
  - rewrite handleAudioData_spec.
    destruct (decide (length buffer < 8)).
    + apply not_elem_of_nil.
    + intros Hin%list_elem_of_singleton. discriminate Hin.
  - apply decoded_handleAudioData.
  - rewrite decoded_handleAudioData.
    apply length_float32_view.
    rewrite length_take.
    pose proof (Nat.div_mod_eq (length buffer) 8). lia.
  - intros Hlt. rewrite handleAudioData_spec. by rewrite decide_True.
  - intros Hge. rewrite handleAudioData_spec.
    rewrite decide_False by lia. by eexists.
Qed.

Lemma streaming_decodes_witness :
  (onData (mk true [] 48000) (header_48000 ++ [x00; x00; x80; x3f])).1
    = mk true [] 48000 ∧
  (SocketDestroy
     ∉ (onData (mk true [] 48000) (header_48000 ++ [x00; x00; x80; x3f])).2) ∧
  decoded (onData (mk true [] 48000)
             (header_48000 ++ [x00; x00; x80; x3f])).2
    = float32_view
        (take (8 * (length (header_48000 ++ [x00; x00; x80; x3f]) `div` 8))
              (header_48000 ++ [x00; x00; x80; x3f])) ∧
  length (decoded (onData (mk true [] 48000)
                     (header_48000 ++ [x00; x00; x80; x3f])).2)
    = 2 * (length (header_48000 ++ [x00; x00; x80; x3f]) `div` 8) ∧
  (length (header_48000 ++ [x00; x00; x80; x3f]) < 8 →
   (onData (mk true [] 48000)
      (header_48000 ++ [x00; x00; x80; x3f])).2 = []) ∧
  (8 ≤ length (header_48000 ++ [x00; x00; x80; x3f]) →
   ∃ floatArray,
     (onData (mk true [] 48000)
        (header_48000 ++ [x00; x00; x80; x3f])).2
     = [ProcessDirectAudio floatArray (sampleRate (mk true [] 48000))]).
Proof.
  apply (streaming_decodes_whole_frames (mk true [] 48000)
           (header_48000 ++ [x00; x00; x80; x3f])).
  reflexivity.
Defined.

(** X24.  In the streaming state, cutting the byte stream at a frame
    boundary is harmless: when the first chunk is a whole number of 8-byte
    frames, the samples handed to the engine for the two chunks, in order,
    are exactly those handed over for the concatenation. *)
Theorem streaming_split_on_frame_boundary
    (s : DirectServer.t) (a b : list byte)
    (Hstream : isHeaderReceived s = true)
    (Halign : length a `mod` 8 = 0) :
  (onData (onData s a).1 b).1 = (onData s (a ++ b)).1 ∧
  decoded ((onData s a).2 ++ (onData (onData s a).1 b).2)
  = decoded (onData s (a ++ b)).2.
Proof.
  unfold onData. rewrite Hstream. cbn [negb fst snd]. rewrite Hstream.
  cbn [negb fst snd]. split; [done|].
  unfold decoded at 1. rewrite fmap_app, join_app.
  fold (decoded (handleAudioData s a)).
  fold (decoded (handleAudioData s b)).
  rewrite !decoded_handleAudioData.
  pose proof (Nat.div_mod_eq (length a) 8) as Ha.
  rewrite Halign, Nat.add_0_r in Ha.
  rewrite <- Ha, firstn_all.
  rewrite length_app.
  assert ((length a + length b) `div` 8
          = length a `div` 8 + length b `div` 8) as ->.
  { rewrite Ha at 1. rewrite (Nat.mul_comm 8), Nat.add_comm.
    rewrite Nat.div_add by done. lia. }
  rewrite Nat.mul_add_distr_l, <- Ha.
  rewrite take_app_add'  by done.
  apply eq_sym, (float32_view_app (2 * (length a `div` 8))). lia.
Qed.

Lemma streaming_split_witness :
  (onData (onData (mk true [] 48000) header_48000).1
          [x00; x00; x80; x3f]).1
    = (onData (mk true [] 48000) (header_48000 ++ [x00; x00; x80; x3f])).1 ∧
  decoded ((onData (mk true [] 48000) header_48000).2
           ++ (onData (onData (mk true [] 48000) header_48000).1
                      [x00; x00; x80; x3f]).2)
  = decoded (onData (mk true [] 48000)
               (header_48000 ++ [x00; x00; x80; x3f])).2.
Proof.
  apply (streaming_split_on_frame_boundary (mk true [] 48000)
           header_48000 [x00; x00; x80; x3f]).
  - reflexivity.
  - reflexivity.
Defined.

(** A cut inside a frame is not harmless: four bytes, then twelve, give
    two samples where the sixteen bytes together give four. *)
Example streaming_split_inside_frame :
  let a := [x01; x00; x00; x00] in
  let b := [x02; x00; x00; x00; x03; x00; x00; x00; x04; x00; x00; x00] in
  decoded ((onData (mk true [] 48000) a).2
           ++ (onData (mk true [] 48000) b).2) = [2; 3]%Z ∧
  decoded (onData (mk true [] 48000) (a ++ b)).2 = [1; 2; 3; 4]%Z.
Proof. split; reflexivity. Qed.
End DirectServerExtra.
